(** * Burrows-Wheeler transform, inversion and FM-index search (BWT/BWT.py)

    A shallow embedding of the class [BWT] of [BWT/BWT.py] and the properties
    of its methods: the rotation matrix and the transform, the rank-tagged
    reconstruction of the sequence, the suffix array and the backward
    search. *)

From Stdlib Require Import ZArith Ascii String List Lia DecimalString DecimalZ.
From stdpp Require Import base list sorting gmap strings.

Open Scope Z_scope.

(** ** Python values and outcomes *)

(** A Python [str] is a list of characters; a character is a [str] of
    length one, written [[c]] where the code builds or compares one. *)
Abbreviation str := (list ascii).

(** [s2l "TAG"] is the Python literal ['TAG']. *)
Definition s2l (s : string) : str := list_ascii_of_string s.

(** The exception classes.  The first four are the built-in ones the
    statements of [BWT.py] can raise; [InvalidSequenceError] and
    [ReconstructionError] are the classes of section 7 of the specification
    and are built by no definition of this file. *)
Inductive exn : Type :=
  | KeyError | IndexError | TypeError | AttributeError
  | InvalidSequenceError | ReconstructionError.

(** What running a piece of code gives: a value, a raised exception, or
    [NoFuel] when the bound on the number of loop iterations or nested calls
    given to the model was reached before the code returned. *)
Inductive outcome (A : Type) : Type :=
  | Ret (a : A)
  | Raise (e : exn)
  | NoFuel.
Arguments Ret {A} a.
Arguments Raise {A} e.
Arguments NoFuel {A}.

Definition obind {A B} (m : outcome A) (k : A → outcome B) : outcome B :=
  match m with
  | Ret a => k a
  | Raise e => Raise e
  | NoFuel => NoFuel
  end.

Notation "x ⇐ m ;; k" := (obind m (λ x, k))
  (at level 100, m at next level, k at level 200, right associativity).

Definition len {A} (l : list A) : Z := Z.of_nat (length l).

(** [l[i]]: a negative index counts from the end, an index out of range
    raises [IndexError]. *)
Definition getitem {A} (l : list A) (i : Z) : outcome A :=
  let j := if i <? 0 then i + len l else i in
  if j <? 0 then Raise IndexError
  else match l !! Z.to_nat j with
       | Some x => Ret x
       | None => Raise IndexError
       end.

(** [l[lo:hi]]: bounds are clamped, negative ones count from the end. *)
Definition slice_bound (n i : Z) : Z :=
  if i <? 0 then Z.max 0 (i + n) else Z.min i n.

Definition slice {A} (l : list A) (lo hi : Z) : list A :=
  let a := slice_bound (len l) lo in
  let b := slice_bound (len l) hi in
  take (Z.to_nat (b - a)) (drop (Z.to_nat a) l).

(** [str(k)] for an integer [k]. *)
Definition str_of_int (k : Z) : str :=
  list_ascii_of_string (NilZero.string_of_int (Z.to_int k)).

(** The code point of a character, [ord(c)]. *)
Definition ord (c : ascii) : nat := nat_of_ascii c.

(** [a <= b] on characters and on strings (lexicographic, by code point; a
    proper prefix is smaller). *)
Definition chr_leb (a b : ascii) : bool := (ord a <=? ord b)%nat.

Fixpoint str_leb (a b : str) : bool :=
  match a, b with
  | [], _ => true
  | _ :: _, [] => false
  | x :: a', y :: b' =>
      if (ord x <? ord y)%nat then true
      else if (ord y <? ord x)%nat then false
      else str_leb a' b'
  end.

(** [sorted(l)] and [sorted(l, key=...)]: Python's sort is stable, and a
    stable sort is determined by its input and the order, so it is the list
    that stable insertion computes. *)
Fixpoint insort {A} (leb : A → A → bool) (x : A) (l : list A) : list A :=
  match l with
  | [] => [x]
  | y :: l' => if leb x y then x :: l else y :: insort leb x l'
  end.

Definition sorted {A} (leb : A → A → bool) (l : list A) : list A :=
  foldr (insort leb) [] l.

Definition sorted_key {A K} (leb : K → K → bool) (key : A → K) (l : list A)
  : list A :=
  sorted (λ x y, leb (key x) (key y)) l.

(** [range(lo, hi)]. *)
Definition range (lo hi : Z) : list Z :=
  (λ k, lo + Z.of_nat k) <$> seq 0 (Z.to_nat (hi - lo)).

(** ** The class [BWT]: pure methods *)

(** [criarMatriz] (lines 28-50): [len(seq)] times, append [seq] and rotate
    it right by one, [seq = seq[-1] + seq[:len(seq)-1]]. *)
Definition rotate_step (seq : str) : outcome str :=
  c ⇐ getitem seq (-1) ;;
  Ret (c :: slice seq 0 (len seq - 1)).

Fixpoint criarMatriz_loop (k : nat) (seq : str) (matriz : list str)
  : outcome (list str) :=
  match k with
  | O => Ret matriz
  | S k' =>
      let matriz := matriz ++ [seq] in
      seq ⇐ rotate_step seq ;;
      criarMatriz_loop k' seq matriz
  end.

Definition criarMatriz (seq : str) : outcome (list str) :=
  criarMatriz_loop (length seq) seq [].

(** [ordenarMatriz] (lines 52-67). *)
Definition ordenarMatriz (matriz : list str) : list str :=
  sorted str_leb matriz.

(** [construirBWT] (lines 84-105): [bwt += linha[-1]] for each row. *)
Fixpoint construirBWT_loop (matriz : list str) (bwt : str) : outcome str :=
  match matriz with
  | [] => Ret bwt
  | linha :: matriz' =>
      c ⇐ getitem linha (-1) ;;
      construirBWT_loop matriz' (bwt ++ [c])
  end.

Definition construirBWT (matriz : list str) : outcome str :=
  construirBWT_loop matriz [].

(** The transform as the driver (lines 332-340) and [procuraPadraoBWT]
    (line 290) compute it. *)
Definition transform (seq : str) : outcome str :=
  matriz ⇐ criarMatriz seq ;;
  construirBWT (ordenarMatriz matriz).

(** [criarPrimeiraColuna] (lines 107-122) and [criarUltimaColuna] (lines
    124-145): lists of one-character strings. *)
Definition criarPrimeiraColuna (bwt : str) : list str :=
  (λ c, [c]) <$> sorted chr_leb bwt.

Definition criarUltimaColuna (bwt : str) : list str :=
  foldl (λ lista item, lista ++ [[item]]) [] bwt.

(** ** The class [BWT]: instance state *)

(** [dicionarioOcorrencias] is a Python [dict] from characters to counters;
    its keys are iterated in insertion order, so it is kept as an association
    list with distinct keys in that order. *)
Abbreviation dict := (list (ascii * Z)).

Fixpoint dict_get (d : dict) (k : ascii) : outcome Z :=
  match d with
  | [] => Raise KeyError
  | (k', v) :: d' => if decide (k' = k) then Ret v else dict_get d' k
  end.

(** [d[k] = v]: the value is replaced where the key is, a new key goes
    last. *)
Fixpoint dict_set (d : dict) (k : ascii) (v : Z) : dict :=
  match d with
  | [] => [(k, v)]
  | (k', v') :: d' =>
      if decide (k' = k) then (k, v) :: d' else (k', v') :: dict_set d' k v
  end.

Definition dict_keys (d : dict) : list ascii := d.*1.

(** The attribute [suffix_array] of an instance: the method of the class
    until line 268 assigns a list to it. *)
Inductive suffix_array_attr : Type :=
  | SA_method
  | SA_list (sa : list Z).

(** The attributes of an instance; [dicionarioOcorrencias] does not exist
    until [criarDicionarioOcorrencias] has run. *)
Record BWT : Type := mkBWT {
  seqOriginal : str;
  listaSequenciaOriginal : list str;
  dicionarioOcorrencias : option dict;
  attr_suffix_array : suffix_array_attr
}.

(** [BWT(seqOriginal)], lines 23-26. *)
Definition BWT_init (seqOriginal : str) : BWT :=
  mkBWT seqOriginal [] None SA_method.

Definition set_dicionario (d : dict) (self : BWT) : BWT :=
  mkBWT (seqOriginal self) (listaSequenciaOriginal self) (Some d)
        (attr_suffix_array self).

Definition set_lista (l : list str) (self : BWT) : BWT :=
  mkBWT (seqOriginal self) l (dicionarioOcorrencias self)
        (attr_suffix_array self).

Definition set_suffix_array (sa : list Z) (self : BWT) : BWT :=
  mkBWT (seqOriginal self) (listaSequenciaOriginal self)
        (dicionarioOcorrencias self) (SA_list sa).

Definition get_dicionario (self : BWT) : outcome dict :=
  match dicionarioOcorrencias self with
  | Some d => Ret d
  | None => Raise AttributeError
  end.

(** ** Rank tagging (lines 147-201) *)

(** [criarDicionarioOcorrencias]: [{letra: -1 for letra in bwt}]. *)
Definition criarDicionarioOcorrencias (bwt : str) (self : BWT) : BWT :=
  set_dicionario (foldl (λ d letra, dict_set d letra (-1)) [] bwt) self.

(** [decidirCaracter]: [lista] is the caller's list, returned extended. *)
Definition decidirCaracter (item : str) (chave : ascii) (lista : list str)
    (self : BWT) : outcome (list str * BWT) :=
  if decide (item = [chave]) then
    d ⇐ get_dicionario self ;;
    v ⇐ dict_get d chave ;;
    let self := set_dicionario (dict_set d chave (v + 1)) self in
    d ⇐ get_dicionario self ;;
    v ⇐ dict_get d chave ;;
    Ret (lista ++ [item ++ str_of_int v], self)
  else Ret (lista, self).

(** The inner loop of [preencherLista], over the keys. *)
Fixpoint preencher_chaves (chaves : list ascii) (item : str)
    (lista : list str) (self : BWT) : outcome (list str * BWT) :=
  match chaves with
  | [] => Ret (lista, self)
  | chave :: chaves' =>
      r ⇐ decidirCaracter item chave lista self ;;
      preencher_chaves chaves' item r.1 r.2
  end.

(** The outer loop of [preencherLista], over the column. *)
Fixpoint preencher_itens (itens : list str) (lista : list str) (self : BWT)
  : outcome (list str * BWT) :=
  match itens with
  | [] => Ret (lista, self)
  | item :: itens' =>
      d ⇐ get_dicionario self ;;
      r ⇐ preencher_chaves (dict_keys d) item lista self ;;
      preencher_itens itens' r.1 r.2
  end.

(** [preencherLista]: the two loops, then every counter back to [-1]. *)
Definition preencherLista (listaSequencias : list str)
    (listaConcatenada : list str) (self : BWT) : outcome (list str * BWT) :=
  r ⇐ preencher_itens listaSequencias listaConcatenada self ;;
  d ⇐ get_dicionario r.2 ;;
  Ret (r.1, set_dicionario
              (foldl (λ d chave, dict_set d chave (-1)) d (dict_keys d)) r.2).

(** ** Reconstruction (lines 203-251) *)

(** The [for] loop of [obterSequenciaOriginal] from the row [indice + 1] on:
    [None] when the loop executed [return], [Some letra] when it ran to its
    end with that value of [letra]. *)
Fixpoint obter_percorrer (comprimentoUltimaColuna : Z)
    (primeiraColuna : list str) (itens : list str) (indice : Z) (letra : str)
    (self : BWT) : outcome (option str * BWT) :=
  match itens with
  | [] => Ret (Some letra, self)
  | item :: itens' =>
      let indice := indice + 1 in
      r ⇐ (if decide (item = letra) then
             c ⇐ getitem letra 0 ;;
             let self :=
               set_lista (listaSequenciaOriginal self ++ [[c]]) self in
             letra ⇐ getitem primeiraColuna indice ;;
             Ret (letra, self)
           else Ret (letra, self)) ;;
      if len (listaSequenciaOriginal r.2) =? comprimentoUltimaColuna
      then Ret (None, r.2)
      else obter_percorrer comprimentoUltimaColuna primeiraColuna itens'
             indice r.1 r.2
  end.

(** [obterSequenciaOriginal]; [fuel] bounds the depth of the recursion of
    line 235, and [NoFuel] stands for a recursion deeper than that. The
    interpreter's own bound on the depth of the stack is not modelled: a
    statement that holds for every [fuel] speaks of the recursion as the
    method is written. *)
Fixpoint obterSequenciaOriginal (fuel : nat) (letra : str)
    (comprimentoUltimaColuna : Z) (primeiraColuna ultimaColuna : list str)
    (self : BWT) : outcome BWT :=
  match fuel with
  | O => NoFuel
  | S fuel' =>
      r ⇐ obter_percorrer comprimentoUltimaColuna primeiraColuna
            ultimaColuna (-1) letra self ;;
      match r.1 with
      | None => Ret r.2
      | Some letra =>
          obterSequenciaOriginal fuel' letra comprimentoUltimaColuna
            primeiraColuna ultimaColuna r.2
      end
  end.

(** [SequenciaOriginalEmString]. *)
Definition SequenciaOriginalEmString (self : BWT) : outcome str :=
  let seqOriginal := concat (listaSequenciaOriginal self) in
  c ⇐ getitem seqOriginal 0 ;;
  Ret (slice seqOriginal 1 (len seqOriginal) ++ [c]).

(** The reconstruction as the driver runs it (lines 343-363) on an
    instance, from the tag [letra] (['$0'] there). *)
Definition invert (fuel : nat) (letra : str) (bwt : str) (self : BWT)
  : outcome (str * BWT) :=
  let self := criarDicionarioOcorrencias bwt self in
  let primeiraColuna := criarPrimeiraColuna bwt in
  let ultimaColuna := criarUltimaColuna bwt in
  r1 ⇐ preencherLista primeiraColuna [] self ;;
  r2 ⇐ preencherLista ultimaColuna [] r1.2 ;;
  let comprimentoUltimaColuna := len r2.1 in
  self ⇐ obterSequenciaOriginal fuel letra comprimentoUltimaColuna
           r1.1 r2.1 r2.2 ;;
  s ⇐ SequenciaOriginalEmString self ;;
  Ret (s, self).

(** ** Suffix array (lines 253-270) *)

(** [self.suffix_array(seq)]: the call looks the attribute up on the
    instance first; once it holds a list the call raises [TypeError]. *)
Definition suffix_array (seq : str) (self : BWT) : outcome (list Z * BWT) :=
  match attr_suffix_array self with
  | SA_list _ => Raise TypeError
  | SA_method =>
      let sa := sorted_key str_leb (λ i, slice seq i (len seq))
                  (range 0 (len seq)) in
      Ret (sa, set_suffix_array sa self)
  end.

(** ** Backward search (lines 273-322) *)

(** [l[i] = x]. *)
Definition setitem {A} (l : list A) (i : Z) (x : A) : outcome (list A) :=
  let j := if i <? 0 then i + len l else i in
  if (j <? 0) || (len l <=? j) then Raise IndexError
  else Ret (<[Z.to_nat j := x]> l).

(** [count[char]] and [first_occurrence[symbol]]: a missing key raises
    [KeyError]. *)
Definition lookup_key {V} (m : gmap ascii V) (k : ascii) : outcome V :=
  match m !! k with
  | Some v => Ret v
  | None => Raise KeyError
  end.

(** Line 295: [{char: [0] * (len(bwt) + 1) for char in set(bwt)}]. *)
Definition count_init (bwt : str) : gmap ascii (list Z) :=
  foldr (λ char m, <[char := replicate (Z.to_nat (len bwt + 1)) 0]> m) ∅ bwt.

(** Lines 297-298, for every key: [count[char][i] = count[char][i - 1]]. *)
Definition count_copy (i : Z) (count : gmap ascii (list Z))
  : outcome (gmap ascii (list Z)) :=
  map_fold (λ char row acc,
              m ⇐ acc ;;
              v ⇐ getitem row (i - 1) ;;
              row ⇐ setitem row i v ;;
              Ret (<[char := row]> m))
           (Ret ∅) count.

(** Line 299: [count[bwt[i - 1]][i] += 1]. *)
Definition count_bump (bwt : str) (i : Z) (count : gmap ascii (list Z))
  : outcome (gmap ascii (list Z)) :=
  char ⇐ getitem bwt (i - 1) ;;
  row ⇐ lookup_key count char ;;
  v ⇐ getitem row i ;;
  row ⇐ setitem row i (v + 1) ;;
  Ret (<[char := row]> count).

(** Lines 296-299, the loop over [range(1, len(bwt) + 1)]. *)
Fixpoint count_loop (bwt : str) (indices : list Z) (count : gmap ascii (list Z))
  : outcome (gmap ascii (list Z)) :=
  match indices with
  | [] => Ret count
  | i :: indices' =>
      count ⇐ count_copy i count ;;
      count ⇐ count_bump bwt i count ;;
      count_loop bwt indices' count
  end.

Definition count_table (bwt : str) : outcome (gmap ascii (list Z)) :=
  count_loop bwt (range 1 (len bwt + 1)) (count_init bwt).

(** Lines 302-305 over [enumerate(sorted_bwt)] from index [i]. *)
Fixpoint first_occurrence_loop (sorted_bwt : str) (i : Z)
    (first_occurrence : gmap ascii Z) : gmap ascii Z :=
  match sorted_bwt with
  | [] => first_occurrence
  | char :: rest =>
      first_occurrence_loop rest (i + 1)
        (match first_occurrence !! char with
         | None => <[char := i]> first_occurrence
         | Some _ => first_occurrence
         end)
  end.

Definition first_occurrence_table (sorted_bwt : str) : gmap ascii Z :=
  first_occurrence_loop sorted_bwt 0 ∅.

(** [suffix_array[i]] at line 320, where [suffix_array] is whatever the
    attribute holds: subscripting the method raises [TypeError]. *)
Definition sa_getitem (suffix_array : suffix_array_attr) (i : Z) : outcome Z :=
  match suffix_array with
  | SA_method => Raise TypeError
  | SA_list sa => getitem sa i
  end.

(** A list comprehension [[f(i) for i in l]]. *)
Fixpoint comprehension {A B} (f : A → outcome B) (l : list A)
  : outcome (list B) :=
  match l with
  | [] => Ret []
  | x :: l' => y ⇐ f x ;; ys ⇐ comprehension f l' ;; Ret (y :: ys)
  end.

(** The [while] loop of lines 310-322; [fuel] bounds its iterations. *)
Fixpoint fm_loop (fuel : nat) (count : gmap ascii (list Z))
    (first_occurrence : gmap ascii Z) (suffix_array : suffix_array_attr)
    (top bottom : Z) (pattern : str) : outcome (list Z) :=
  match fuel with
  | O => NoFuel
  | S fuel' =>
      if top <=? bottom then
        if negb (len pattern =? 0) then
          symbol ⇐ getitem pattern (-1) ;;
          let pattern := slice pattern 0 (-1) in
          row ⇐ lookup_key count symbol ;;
          hi ⇐ getitem row (bottom + 1) ;;
          lo ⇐ getitem row top ;;
          if hi >? lo then
            fo ⇐ lookup_key first_occurrence symbol ;;
            row ⇐ lookup_key count symbol ;;
            lo ⇐ getitem row top ;;
            let top' := fo + lo in
            fo ⇐ lookup_key first_occurrence symbol ;;
            row ⇐ lookup_key count symbol ;;
            hi ⇐ getitem row (bottom + 1) ;;
            let bottom' := fo + hi - 1 in
            fm_loop fuel' count first_occurrence suffix_array
              top' bottom' pattern
          else Ret []
        else
          l ⇐ comprehension (sa_getitem suffix_array)
                (range top (bottom + 1)) ;;
          Ret (sorted Z.leb l)
      else Ret []
  end.

(** [procuraPadraoBWT]; the loop consumes one symbol of [pattern] per
    iteration and stops at the latest on the iteration after the last
    symbol, so [len(pattern) + 1] iterations are all it can make. *)
Definition procuraPadraoBWT (pattern : str) (self : BWT) : outcome (list Z) :=
  matriz ⇐ criarMatriz (seqOriginal self) ;;
  bwt ⇐ construirBWT (ordenarMatriz matriz) ;;
  let sorted_bwt := sorted chr_leb bwt in
  let suffix_array := attr_suffix_array self in
  count ⇐ count_table bwt ;;
  let first_occurrence := first_occurrence_table sorted_bwt in
  fm_loop (S (length pattern)) count first_occurrence suffix_array
    0 (len bwt - 1) pattern.

(** * Specification-level definitions

    What the statements below are written with: the rotations and the sorted
    matrix of a sequence as functions, the rank tags of a column, the
    contents of the tables of the search, and the scan the search is
    compared with. *)

(** The orders as relations. *)
Definition le_of {A} (leb : A → A → bool) : relation A :=
  λ x y, leb x y = true.
Definition str_le (a b : str) : Prop := str_leb a b = true.
Definition chr_le (a b : ascii) : Prop := chr_leb a b = true.

(** [rot k l] is [l] read cyclically from index [k]. *)
Definition rot {A} (k : nat) (l : list A) : list A := drop k l ++ take k l.

(** A row moved one step left ([x·w] to [w·x]) and right ([w·x] to
    [x·w]). *)
Definition rotl (r : str) : str := rot 1 r.
Definition rotr (r : str) : str := rot (length r - 1) r.

(** The first and the last character of a row. *)
Definition first_chr (r : str) : ascii := default "000"%char (head r).
Definition last_chr (r : str) : ascii := default "000"%char (last r).

(** The rotations of a sequence, by start index, and the matrix
    [ordenarMatriz(criarMatriz(sq))] with its first and last columns. *)
Definition rotations (sq : str) : list str :=
  (λ k, rot k sq) <$> seq 0 (length sq).
Definition matrix (sq : str) : list str := sorted str_leb (rotations sq).
Definition first_col (M : list str) : str := first_chr <$> M.
Definition last_col (M : list str) : str := last_chr <$> M.

(** The transform of a sequence, as a function. *)
Definition bwt_of (sq : str) : str :=
  last_chr <$> sorted str_leb (rotations sq).

(** [s] is below every character of [body]: [body ++ [s]] is a sequence
    terminated by its unique, smallest symbol. *)
Definition sentinel_ok (s : ascii) (body : str) : Prop :=
  Forall (λ c, (ord s < ord c)%nat) body.

(** The suffix array as [sorted] computes it, on naturals. *)
Definition sa_nat (sq : str) : list nat :=
  sorted_key str_leb (λ i, drop i sq) (seq 0 (length sq)).

(** The dictionary of [criarDicionarioOcorrencias]: the distinct characters
    of [bwt], each at [-1]. *)
Definition dict_fresh (bwt : str) : dict :=
  foldl (λ d letra, dict_set d letra (-1)) [] bwt.
Definition all_reset (d : dict) : Prop := Forall (λ kv, kv.2 = -1) d.

(** The number of occurrences of [c] in [l]. *)
Definition count_chr (c : ascii) (l : str) : nat :=
  length (filter (λ x, x = c) l).

(** The tag of the occurrence number [k] of [c]: [c + str(k)]. *)
Definition tag (c : ascii) (k : nat) : str := c :: str_of_int (Z.of_nat k).

(** The tags of a column that comes after the characters [pre]. *)
Fixpoint tags_from (pre col : str) : list str :=
  match col with
  | [] => []
  | c :: col' => tag c (count_chr c pre) :: tags_from (pre ++ [c]) col'
  end.
Definition tags (col : str) : list str := tags_from [] col.

(** A column as the list of one-character strings the code handles. *)
Definition chars (col : str) : list str := (λ c, [c]) <$> col.

(** What the walk has collected after [m] matches, [h j] being the
    character of its [j]-th match. *)
Definition collected (h : nat → ascii) (m : nat) : list str :=
  (λ j, [h j]) <$> seq 0 m.

(** On the transform of [body ++ [s]]: the rank of the row that holds the
    rotation from [m], and the character and the tag of the [m]-th step of
    the walk. *)
Definition row_of (s : ascii) (body : str) (m : nat) : nat :=
  default 0%nat
    (fst <$> list_find (λ r, r = rot m (body ++ [s])) (matrix (body ++ [s]))).
Definition walk_chr (s : ascii) (body : str) (m : nat) : ascii :=
  last_chr (rot m (body ++ [s])).
Definition walk_tag (s : ascii) (body : str) (m : nat) : str :=
  tag (walk_chr s body m)
    (count_chr (walk_chr s body m)
       (take (row_of s body m) (last_col (matrix (body ++ [s]))))).

(** On an arbitrary string [bwt]: the tag the walk from the tag of [s]
    holds after [m] matches, and its character. *)
Fixpoint chain (s : ascii) (bwt : str) (m : nat) : str :=
  match m with
  | O => tag s 0
  | S m' =>
      default []
        (i ← fst <$> list_find (λ t, t = chain s bwt m') (tags bwt);
         tags (sorted chr_leb bwt) !! i)
  end.
Definition chain_chr (s : ascii) (bwt : str) (m : nat) : ascii :=
  default "000"%char (head (chain s bwt m)).

(** The row of [c] in [count] once the loop of lines 296-299 has run for
    [i = 1, ..., k], and the table with those rows. *)
Definition count_row (bwt : str) (c : ascii) (k : nat) : list Z :=
  (λ j, if decide (j ≤ k)%nat then Z.of_nat (count_chr c (take j bwt)) else 0)
    <$> seq 0 (S (length bwt)).
Definition count_spec (bwt : str) (k : nat) (count : gmap ascii (list Z))
  : Prop :=
  ∀ c, count !! c = if decide (c ∈ bwt) then Some (count_row bwt c k) else None.

(** The rows of [M] whose index is in [[a, b)] are those that start with
    [q]. *)
Definition rows_from (M : list str) (q : str) (a b : nat) : Prop :=
  ∀ i r, M !! i = Some r → q `prefix_of` r ↔ (a ≤ i < b)%nat.

(** The offsets the search is after: [l] lists, once each, the starts of
    the rotations of [body ++ [s]] that begin with the pattern. *)
Definition starts (s : ascii) (body : str) (p : str) (l : list Z) : Prop :=
  NoDup l ∧
  ∀ x, x ∈ l ↔
       ∃ k, (k < length (body ++ [s]))%nat ∧ x = Z.of_nat k ∧
            p `prefix_of` rot k (body ++ [s]).

(** The offsets a scan of the sequence finds:
    [[i for i in range(len(sq)) if sq[i : i + len(p)] == p]]. *)
Definition brute_force (sq p : str) : list Z :=
  filter (λ i, slice sq i (i + len p) = p) (range 0 (len sq)).

(** * The sample of the driver *)

Example criarMatriz_TAG :
  criarMatriz (s2l "TAG$")
    = Ret [s2l "TAG$"; s2l "$TAG"; s2l "G$TA"; s2l "AG$T"].
Proof. reflexivity. Qed.

Example transform_sample :
  transform (s2l "TAGACAGAGA$") = Ret (s2l "AGGGTCAAAA$").
Proof. by vm_compute. Qed.

Example suffix_array_sample :
  suffix_array (s2l "TAGACAGAGA$") (BWT_init (s2l "TAGACAGAGA$"))
    = Ret ([10; 9; 3; 7; 1; 5; 4; 8; 2; 6; 0],
           set_suffix_array [10; 9; 3; 7; 1; 5; 4; 8; 2; 6; 0]
             (BWT_init (s2l "TAGACAGAGA$"))).
Proof. by vm_compute. Qed.

Example invert_sample :
  ∃ self', invert 11 (s2l "$0") (s2l "AGGGTCAAAA$")
             (BWT_init (s2l "TAGACAGAGA$"))
           = Ret (s2l "TAGACAGAGA$", self').
Proof. eexists. by vm_compute. Qed.

(** ** Indexing and slicing *)

Lemma len_nonneg {A} (l : list A) : 0 ≤ len l.
Proof. unfold len. lia. Qed.

Lemma len_app {A} (l k : list A) : len (l ++ k) = len l + len k.
Proof. unfold len. rewrite length_app. lia. Qed.

Lemma getitem_nat {A} (l : list A) (i : nat) x :
  l !! i = Some x → getitem l (Z.of_nat i) = Ret x.
Proof.
  intros H. unfold getitem.
  destruct (Z.ltb_spec (Z.of_nat i) 0) as [?|_]; [lia|].
  destruct (Z.ltb_spec (Z.of_nat i) 0) as [?|_]; [lia|].
  by rewrite Nat2Z.id, H.
Qed.

Lemma getitem_Z {A} (l : list A) (i : Z) x :
  0 ≤ i → l !! Z.to_nat i = Some x → getitem l i = Ret x.
Proof.
  intros Hi H. rewrite <- (Z2Nat.id i) by done. by apply getitem_nat.
Qed.

Lemma getitem_last {A} (l : list A) x : getitem (l ++ [x]) (-1) = Ret x.
Proof.
  unfold getitem. change (-1 <? 0) with true. cbv iota.
  assert (len (l ++ [x]) = len l + 1) as -> by by rewrite len_app.
  pose proof (len_nonneg l).
  destruct (Z.ltb_spec (-1 + (len l + 1)) 0) as [?|_]; [lia|].
  replace (Z.to_nat (-1 + (len l + 1))) with (length l) by (unfold len; lia).
  by rewrite lookup_app_r, Nat.sub_diag by lia.
Qed.

Lemma getitem_nil {A} (i : Z) : getitem (@nil A) i = Raise IndexError.
Proof.
  unfold getitem. simpl. destruct (i <? 0); cbn -[Z.add];
    by destruct (_ <? 0).
Qed.

Lemma getitem_0 {A} (x : A) l : getitem (x :: l) 0 = Ret x.
Proof. done. Qed.

Lemma slice_init {A} (l : list A) :
  slice l 0 (len l - 1) = take (length l - 1) l.
Proof.
  unfold slice, slice_bound. simpl.
  pose proof (len_nonneg l).
  destruct (Z.ltb_spec (len l - 1) 0).
  - assert (length l = 0%nat) as Hl by (unfold len in *; lia).
    destruct l; [|done]. done.
  - rewrite Z.min_l by lia. simpl. rewrite Z.min_l by lia.
    rewrite drop_0. f_equal. unfold len. lia.
Qed.

Lemma slice_init_neg {A} (l : list A) :
  slice l 0 (-1) = take (length l - 1) l.
Proof.
  unfold slice, slice_bound. simpl.
  pose proof (len_nonneg l). rewrite Z.min_l by lia.
  rewrite drop_0. f_equal. unfold len. lia.
Qed.

Lemma slice_from {A} (l : list A) (i : nat) :
  slice l (Z.of_nat i) (len l) = drop i l.
Proof.
  unfold slice, slice_bound.
  pose proof (len_nonneg l).
  destruct (Z.ltb_spec (Z.of_nat i) 0); [lia|].
  destruct (Z.ltb_spec (len l) 0); [lia|].
  rewrite (Z.min_l (len l)) by lia.
  destruct (Z.le_gt_cases (Z.of_nat i) (len l)).
  - rewrite Z.min_l by lia. rewrite Nat2Z.id.
    apply take_ge. rewrite length_drop. unfold len. lia.
  - rewrite Z.min_r by lia.
    rewrite !drop_ge by (unfold len in *; lia). by rewrite take_nil.
Qed.

Lemma take_init_snoc {A} (l : list A) x :
  take (length (l ++ [x]) - 1) (l ++ [x]) = l.
Proof.
  rewrite length_app. simpl.
  replace (length l + 1 - 1)%nat with (length l) by lia.
  apply take_app_length.
Qed.

Lemma range_seq (n : nat) : range 0 (Z.of_nat n) = Z.of_nat <$> seq 0 n.
Proof.
  unfold range. rewrite Z.sub_0_r, Nat2Z.id. by apply list_fmap_ext.
Qed.

Lemma length_range lo hi : length (range lo hi) = Z.to_nat (hi - lo).
Proof. unfold range. by rewrite length_fmap, length_seq. Qed.

Lemma lookup_range lo hi (i : nat) :
  (i < Z.to_nat (hi - lo))%nat → range lo hi !! i = Some (lo + Z.of_nat i).
Proof.
  intros Hi. unfold range. rewrite list_lookup_fmap.
  by rewrite lookup_seq_lt.
Qed.

Lemma obind_Ret {A B} (m : outcome A) (k : A → outcome B) b :
  obind m k = Ret b ↔ ∃ a, m = Ret a ∧ k a = Ret b.
Proof.
  destruct m; simpl; (split; [intros H|intros (a' & H1 & H2)]);
    try done; eauto; congruence.
Qed.
(** ** The order on characters and strings *)

Lemma ord_inj a b : ord a = ord b → a = b.
Proof.
  unfold ord. intros H.
  by rewrite <- (ascii_nat_embedding a), <- (ascii_nat_embedding b), H.
Qed.

Lemma str_leb_refl a : str_leb a a = true.
Proof.
  induction a as [|x a IH]; [done|]. simpl.
  by rewrite Nat.ltb_irrefl.
Qed.

Lemma str_leb_total a b : str_leb a b = false → str_leb b a = true.
Proof.
  revert b. induction a as [|x a IH]; intros [|y b]; simpl; try done.
  destruct (Nat.ltb_spec (ord x) (ord y)); [done|].
  destruct (Nat.ltb_spec (ord y) (ord x)); [done|].
  apply IH.
Qed.

Lemma str_leb_antisym a b : str_leb a b = true → str_leb b a = true → a = b.
Proof.
  revert b. induction a as [|x a IH]; intros [|y b]; simpl; try done.
  destruct (Nat.ltb_spec (ord x) (ord y));
    destruct (Nat.ltb_spec (ord y) (ord x)); try done; try lia.
  intros. f_equal; [apply ord_inj; lia | by apply IH].
Qed.

Lemma str_leb_trans a b c :
  str_leb a b = true → str_leb b c = true → str_leb a c = true.
Proof.
  revert b c. induction a as [|x a IH]; intros [|y b] [|z c]; simpl; try done.
  destruct (Nat.ltb_spec (ord x) (ord y)), (Nat.ltb_spec (ord y) (ord z)),
    (Nat.ltb_spec (ord x) (ord z)), (Nat.ltb_spec (ord y) (ord x)),
    (Nat.ltb_spec (ord z) (ord y)), (Nat.ltb_spec (ord z) (ord x));
    try done; try lia.
  apply IH.
Qed.

(** Strings with a common prefix compare as their remainders do. *)
Lemma str_leb_app p a b : str_leb (p ++ a) (p ++ b) = str_leb a b.
Proof.
  induction p as [|x p IH]; [done|]. simpl. by rewrite Nat.ltb_irrefl.
Qed.

(** Strings of one length with a common last part compare as their first 
    parts do. *)
Lemma str_leb_app_r a b s :
  length a = length b → str_leb (a ++ s) (b ++ s) = str_leb a b.
Proof.
  revert b. induction a as [|x a IH]; intros [|y b] Hl; try done.
  - simpl. apply str_leb_refl.
  - simpl. rewrite IH by (simpl in Hl; lia). done.
Qed.

(** ** [sorted] *)

Section sorted.
Context {A : Type} (leb : A → A → bool).
Implicit Types (x y : A) (l : list A).

Lemma insort_Permutation x l : insort leb x l ≡ₚ x :: l.
Proof.
  induction l as [|y l IH]; [done|]. simpl.
  destruct (leb x y); [done|]. by rewrite IH, Permutation_swap.
Qed.

Lemma sorted_Permutation l : sorted leb l ≡ₚ l.
Proof.
  induction l as [|x l IH]; [done|]. unfold sorted in *. simpl.
  by rewrite insort_Permutation, IH.
Qed.

Lemma length_sorted l : length (sorted leb l) = length l.
Proof. by rewrite sorted_Permutation. Qed.

Lemma elem_of_sorted x l : x ∈ sorted leb l ↔ x ∈ l.
Proof. by rewrite sorted_Permutation. Qed.

(** An ascending list is left as it is, whether or not it has equal
    elements. *)
Lemma sorted_id l : Sorted (le_of leb) l → sorted leb l = l.
Proof.
  induction 1 as [|x l Hl IH Hx]; [done|].
  unfold sorted in *. simpl. rewrite IH.
  destruct Hx as [|y l Hxy]; [done|]. simpl. by rewrite Hxy.
Qed.

Hypothesis leb_total : ∀ x y, leb x y = false → leb y x = true.
Hypothesis leb_trans : ∀ x y z,
  leb x y = true → leb y z = true → leb x z = true.

Lemma insort_Sorted x l : Sorted (le_of leb) l → Sorted (le_of leb) (insort leb x l).
Proof.
  induction 1 as [|y l Hl IH Hy]; simpl; [by repeat constructor|].
  destruct (leb x y) eqn:Hxy.
  - by repeat constructor.
  - constructor; [done|].
    apply leb_total in Hxy.
    destruct Hy as [|z l Hyz]; simpl; [by constructor|].
    destruct (leb x z); by constructor.
Qed.

Lemma sorted_Sorted l : Sorted (le_of leb) (sorted leb l).
Proof.
  induction l as [|x l IH]; [constructor|]. by apply insort_Sorted.
Qed.

Lemma sorted_StronglySorted l : StronglySorted (le_of leb) (sorted leb l).
Proof.
  apply Sorted.Sorted_StronglySorted; [|apply sorted_Sorted].
  intros x y z. apply leb_trans.
Qed.

(** Where the order identifies no two elements of the list, its ascending
    permutation is unique. *)
Lemma sorted_unique l k :
  (∀ x y, x ∈ l → y ∈ l → leb x y = true → leb y x = true → x = y) →
  k ≡ₚ l → StronglySorted (le_of leb) k → sorted leb l = k.
Proof.
  intros Hanti Hperm Hk.
  apply (StronglySorted_unique_strong (le_of leb));
    [ | apply sorted_StronglySorted | exact Hk
      | by rewrite sorted_Permutation, Hperm ].
  intros x y Hx Hy. apply Hanti.
  - by rewrite elem_of_sorted in Hx.
  - by rewrite Hperm in Hy.
Qed.

Lemma sorted_Permutation_eq l k :
  (∀ x y, x ∈ l → y ∈ l → leb x y = true → leb y x = true → x = y) →
  k ≡ₚ l → sorted leb k = sorted leb l.
Proof.
  intros Hanti Hperm. symmetry. apply sorted_unique; [done| |].
  - by rewrite sorted_Permutation.
  - apply sorted_StronglySorted.
Qed.
End sorted.

(** ** Rotations *)

Lemma length_rot {A} k (l : list A) : length (rot k l) = length l.
Proof.
  unfold rot. rewrite length_app, length_drop, length_take. lia.
Qed.

Lemma rot_0 {A} (l : list A) : rot 0 l = l.
Proof. unfold rot. by rewrite drop_0, take_0, app_nil_r. Qed.

Lemma rot_length {A} (l : list A) : rot (length l) l = l.
Proof. unfold rot. by rewrite drop_all, firstn_all. Qed.

Lemma rot_S {A} k (l : list A) x :
  l !! k = Some x → rot k l = x :: drop (S k) l ++ take k l.
Proof.
  intros H. unfold rot. by rewrite (drop_S _ _ _ H).
Qed.

Lemma rot_pred {A} k (l : list A) x :
  l !! k = Some x → rot (S k) l = drop (S k) l ++ take k l ++ [x].
Proof.
  intros H. unfold rot. by rewrite (take_S_r _ _ _ H).
Qed.

Lemma first_chr_rot k (l : str) x : l !! k = Some x → first_chr (rot k l) = x.
Proof. intros H. by rewrite (rot_S _ _ _ H). Qed.

Lemma last_chr_snoc (l : str) x : last_chr (l ++ [x]) = x.
Proof. unfold last_chr. by rewrite last_snoc. Qed.

Lemma last_chr_rot k (l : str) x :
  l !! k = Some x → last_chr (rot (S k) l) = x.
Proof.
  intros H. rewrite (rot_pred _ _ _ H), !app_assoc. apply last_chr_snoc.
Qed.

(** One step of the loop of [criarMatriz] turns the rotation from [k + 1]
    into the rotation from [k]. *)
Lemma rotate_step_rot k (sq : str) :
  (k < length sq)%nat → rotate_step (rot (S k) sq) = Ret (rot k sq).
Proof.
  intros Hk. destruct (lookup_lt_is_Some_2 sq k Hk) as [x Hx].
  unfold rotate_step. rewrite (rot_pred _ _ _ Hx), !app_assoc.
  rewrite getitem_last. simpl. rewrite slice_init, take_init_snoc.
  by rewrite (rot_S _ _ _ Hx).
Qed.

Lemma criarMatriz_loop_spec (sq : str) k j matriz :
  (k ≤ j ≤ length sq)%nat →
  criarMatriz_loop k (rot j sq) matriz =
    Ret (matriz ++ ((λ i, rot (j - i) sq) <$> seq 0 k)).
Proof.
  revert j matriz. induction k as [|k IH]; intros j matriz Hj; simpl.
  { by rewrite app_nil_r. }
  destruct j as [|j]; [lia|].
  rewrite rotate_step_rot by lia. simpl. rewrite IH by lia.
  rewrite <- app_assoc. simpl. do 3 f_equal.
  rewrite <- fmap_S_seq, <- list_fmap_compose. done.
Qed.

(** The matrix of [criarMatriz]: the sequence, then its rotations from the
    last start index down to the first. *)
Lemma criarMatriz_spec (sq : str) :
  criarMatriz sq =
    Ret ((λ i, rot (length sq - i) sq) <$> seq 0 (length sq)).
Proof.
  unfold criarMatriz. rewrite <- (rot_length sq) at 2.
  by rewrite criarMatriz_loop_spec.
Qed.

Lemma seq_rev_Permutation (n : nat) :
  (λ i, n - i)%nat <$> seq 0 n ≡ₚ seq 1 n.
Proof.
  induction n as [|n IH]; [done|].
  transitivity (S n :: seq 1 n).
  - cbn [seq fmap list_fmap]. constructor. etrans; [|exact IH].
    by rewrite <- fmap_S_seq, <- list_fmap_compose.
  - rewrite (seq_S n 1). apply Permutation_cons_append.
Qed.

Lemma criarMatriz_rotations (sq : str) :
  ∃ matriz, criarMatriz sq = Ret matriz ∧ matriz ≡ₚ rotations sq.
Proof.
  eexists. split; [apply criarMatriz_spec|].
  unfold rotations.
  rewrite (list_fmap_compose (λ i, length sq - i)%nat (λ k, rot k sq)).
  rewrite seq_rev_Permutation.
  destruct sq as [|c sq]; [done|].
  cbn [length]. rewrite seq_S. rewrite fmap_app. cbn [seq fmap list_fmap].
  rewrite <- Permutation_cons_append. rewrite rot_0.
  change (1 + length sq)%nat with (length (c :: sq)). by rewrite rot_length.
Qed.

Lemma construirBWT_loop_spec (matriz : list str) bwt :
  Forall (λ r, r ≠ []) matriz →
  construirBWT_loop matriz bwt = Ret (bwt ++ (last_chr <$> matriz)).
Proof.
  intros H. revert bwt. induction H as [|r matriz Hr _ IH]; intros bwt; simpl.
  { by rewrite app_nil_r. }
  destruct (exists_last Hr) as (r' & c & ->).
  rewrite getitem_last. simpl. rewrite IH, last_chr_snoc, <- app_assoc. done.
Qed.

Lemma construirBWT_spec (matriz : list str) :
  Forall (λ r, r ≠ []) matriz →
  construirBWT matriz = Ret (last_chr <$> matriz).
Proof. apply construirBWT_loop_spec. Qed.

Lemma rotations_nonempty (sq : str) : Forall (λ r, r ≠ []) (rotations sq).
Proof.
  apply Forall_forall. intros r Hr.
  apply list_elem_of_fmap in Hr as (k & -> & Hk).
  apply elem_of_seq in Hk. intros Hnil.
  apply (f_equal length) in Hnil. rewrite length_rot in Hnil. simpl in Hnil.
  lia.
Qed.

Lemma last_chr_rotations (sq : str) :
  last_chr <$> rotations sq ≡ₚ sq.
Proof.
  destruct (decide (sq = [])) as [->|Hne]; [done|].
  destruct (exists_last Hne) as (sq' & d & ->).
  unfold rotations. rewrite length_app, Nat.add_1_r.
  cbn [seq fmap list_fmap]. rewrite rot_0, last_chr_snoc.
  rewrite <- Permutation_cons_append. constructor.
  rewrite <- fmap_S_seq, <- !list_fmap_compose.
  apply reflexive_eq, list_eq. intros k.
  rewrite list_lookup_fmap.
  destruct (decide (k < length sq')%nat) as [Hk|Hk].
  - rewrite lookup_seq_lt by done. simpl.
    destruct (lookup_lt_is_Some_2 sq' k Hk) as [x Hx].
    rewrite Hx. f_equal. apply last_chr_rot. by rewrite lookup_app_l.
  - rewrite lookup_seq_ge by lia. by rewrite lookup_ge_None_2 by lia.
Qed.

Lemma transform_spec (sq : str) : transform sq = Ret (bwt_of sq).
Proof.
  unfold transform. destruct (criarMatriz_rotations sq) as (m & -> & Hm).
  simpl. unfold ordenarMatriz.
  rewrite (sorted_Permutation_eq _ str_leb_total str_leb_trans
             (rotations sq) m); [|intros ????|done].
  - apply construirBWT_spec.
    rewrite Forall_forall. intros r Hr. rewrite elem_of_sorted in Hr.
    revert r Hr. rewrite <- Forall_forall. apply rotations_nonempty.
  - apply str_leb_antisym.
Qed.

Lemma bwt_of_Permutation (sq : str) : bwt_of sq ≡ₚ sq.
Proof.
  unfold bwt_of. by rewrite sorted_Permutation, last_chr_rotations.
Qed.

(** ** The occurrence dictionary *)

Lemma dict_keys_set_in (d : dict) k v :
  k ∈ dict_keys d → dict_keys (dict_set d k v) = dict_keys d.
Proof.
  unfold dict_keys. induction d as [|[k' v'] d IH]; intros Hk; simpl.
  { by apply elem_of_nil in Hk. }
  destruct (decide (k' = k)) as [->|Hne]; [done|]. simpl. f_equal.
  apply IH. simpl in Hk. apply elem_of_cons in Hk as [?|?]; [congruence|done].
Qed.

Lemma dict_get_set (d : dict) k v k' :
  dict_get (dict_set d k v) k' = if decide (k = k') then Ret v else dict_get d k'.
Proof.
  induction d as [|[k0 v0] d IH]; simpl.
  - by destruct (decide (k = k')).
  - destruct (decide (k0 = k)) as [->|Hne]; simpl.
    + by destruct (decide (k = k')).
    + rewrite IH. destruct (decide (k0 = k')) as [->|?]; [|done].
      by destruct (decide (k = k')).
Qed.

Lemma dict_get_in (d : dict) k :
  k ∈ dict_keys d → ∃ v, dict_get d k = Ret v.
Proof.
  unfold dict_keys. induction d as [|[k' v'] d IH]; intros Hk; simpl.
  { by apply elem_of_nil in Hk. }
  destruct (decide (k' = k)) as [->|Hne]; [by eexists|].
  apply IH. simpl in Hk. apply elem_of_cons in Hk as [?|?]; [congruence|done].
Qed.

(** A dictionary is determined by its keys, in order, and their values. *)
Lemma dict_ext (d1 d2 : dict) :
  dict_keys d1 = dict_keys d2 → NoDup (dict_keys d1) →
  (∀ k, k ∈ dict_keys d1 → dict_get d1 k = dict_get d2 k) → d1 = d2.
Proof.
  unfold dict_keys. revert d2.
  induction d1 as [|[k1 v1] d1 IH]; intros [|[k2 v2] d2] Hk Hnd Hget;
    try done.
  simpl in *. injection Hk as -> Hk. apply NoDup_cons in Hnd as [Hk2 Hnd].
  f_equal.
  - specialize (Hget k2 (list_elem_of_here _ _)).
    rewrite !decide_True in Hget by done. congruence.
  - apply IH; [done..|]. intros k Hin.
    specialize (Hget k (list_elem_of_further _ _ _ Hin)).
    rewrite !decide_False in Hget by (intros ->; done). done.
Qed.

Lemma all_reset_get (d : dict) k :
  all_reset d → k ∈ dict_keys d → dict_get d k = Ret (-1).
Proof.
  unfold dict_keys. induction 1 as [|[k' v'] d Hv _ IH]; intros Hk; simpl.
  { by apply elem_of_nil in Hk. }
  simpl in Hv. subst. destruct (decide (k' = k)); [done|].
  apply IH. simpl in Hk. apply elem_of_cons in Hk as [?|?]; [congruence|done].
Qed.

Lemma dict_set_keys (d : dict) k v c :
  c ∈ dict_keys (dict_set d k v) ↔ c = k ∨ c ∈ dict_keys d.
Proof.
  unfold dict_keys. induction d as [|[k' v'] d IH]; simpl.
  - rewrite elem_of_cons. done.
  - destruct (decide (k' = k)) as [->|Hne]; simpl.
    + rewrite !elem_of_cons. intuition congruence.
    + rewrite !elem_of_cons, IH. intuition congruence.
Qed.

Lemma dict_set_NoDup (d : dict) k v :
  NoDup (dict_keys d) → NoDup (dict_keys (dict_set d k v)).
Proof.
  unfold dict_keys. induction d as [|[k' v'] d IH]; simpl; intros Hnd.
  - apply NoDup_singleton.
  - apply NoDup_cons in Hnd as [Hk Hnd].
    destruct (decide (k' = k)) as [->|Hne]; simpl.
    + by apply NoDup_cons.
    + apply NoDup_cons. split; [|by apply IH].
      intros Hin. apply (dict_set_keys d k v k') in Hin as [?|?]; done.
Qed.

Lemma dict_set_all_reset (d : dict) k :
  all_reset d → all_reset (dict_set d k (-1)).
Proof.
  induction 1 as [|[k' v'] d Hv Hd IH]; simpl.
  - by repeat constructor.
  - destruct (decide (k' = k)); constructor; done.
Qed.

Lemma dict_fresh_spec (bwt : str) :
  NoDup (dict_keys (dict_fresh bwt)) ∧ all_reset (dict_fresh bwt) ∧
  ∀ c, c ∈ dict_keys (dict_fresh bwt) ↔ c ∈ bwt.
Proof.
  unfold dict_fresh.
  cut (∀ d : dict, NoDup (dict_keys d) → all_reset d →
    let d' := foldl (λ d letra, dict_set d letra (-1)) d bwt in
    NoDup (dict_keys d') ∧ all_reset d' ∧
    ∀ c, c ∈ dict_keys d' ↔ c ∈ bwt ∨ c ∈ dict_keys d).
  { intros H. destruct (H [] (NoDup_nil_2) (Forall_nil_2 _)) as (?&?&Hk).
    split_and!; [done..|]. intros c. rewrite Hk. unfold dict_keys. simpl.
    rewrite elem_of_nil. tauto. }
  induction bwt as [|x bwt IH]; intros d Hnd Hd; simpl.
  { split_and!; [done..|]. intros c. rewrite elem_of_nil. tauto. }
  destruct (IH (dict_set d x (-1))) as (?&?&Hk).
  { by apply dict_set_NoDup. }
  { by apply dict_set_all_reset. }
  split_and!; [done..|]. intros c.
  rewrite Hk, dict_set_keys, elem_of_cons. tauto.
Qed.

(** Line 198-200 on a dictionary: every counter back to [-1], the keys as
    they were. *)
Lemma dict_reset_spec (d : dict) :
  NoDup (dict_keys d) →
  let d' := foldl (λ d chave, dict_set d chave (-1)) d (dict_keys d) in
  dict_keys d' = dict_keys d ∧ all_reset d'.
Proof.
  intros Hnd.
  cut (∀ ks (d0 : dict), ks ⊆ dict_keys d0 → NoDup (dict_keys d0) →
    let d' := foldl (λ d chave, dict_set d chave (-1)) d0 ks in
    dict_keys d' = dict_keys d0 ∧
    ∀ k, k ∈ dict_keys d0 →
      dict_get d' k = if decide (k ∈ ks) then Ret (-1) else dict_get d0 k).
  { intros H. destruct (H (dict_keys d) d) as [Hk Hg]; [done..|].
    simpl. split; [done|].
    apply Forall_forall. intros [k v] Hin. simpl.
    assert (k ∈ dict_keys d) as Hkd.
    { rewrite <- Hk. unfold dict_keys. apply list_elem_of_fmap.
      by exists (k, v). }
    specialize (Hg k Hkd). rewrite decide_True in Hg by done.
    set (d' := foldl _ d _) in *. clearbody d'.
    assert (NoDup (dict_keys d')) as Hnd' by by rewrite Hk.
    clear -Hin Hg Hnd'. unfold dict_keys in *.
    induction d' as [|[k' v'] d' IH]; [by apply elem_of_nil in Hin|].
    simpl in *. apply NoDup_cons in Hnd' as [Hnk Hnd'].
    apply elem_of_cons in Hin as [Heq|Hin].
    - injection Heq as -> ->. rewrite decide_True in Hg by done. congruence.
    - destruct (decide (k' = k)) as [->|Hne].
      + exfalso. apply Hnk. apply list_elem_of_fmap. by exists (k, v).
      + by apply IH. }
  clear d Hnd. induction ks as [|x ks IH]; intros d0 Hsub Hnd; cbn [foldl].
  { split; [done|]. intros k Hk. rewrite decide_False; [done|].
    apply not_elem_of_nil. }
  assert (x ∈ dict_keys d0) as Hx by (apply Hsub; left).
  destruct (IH (dict_set d0 x (-1))) as [Hk Hg].
  { rewrite dict_keys_set_in by done. intros k Hk. apply Hsub. by right. }
  { by apply dict_set_NoDup. }
  rewrite dict_keys_set_in in Hk by done. split; [done|].
  intros k Hkd. rewrite Hg by (by rewrite dict_keys_set_in).
  rewrite dict_get_set.
  destruct (decide (k ∈ ks)) as [Hin|Hnin].
  - rewrite decide_True; [done|by right].
  - destruct (decide (x = k)) as [->|Hne].
    + rewrite decide_True; [done|by left].
    + rewrite decide_False; [done|].
      intros Hin. apply elem_of_cons in Hin as [?|?]; congruence.
Qed.

(** ** Rank tags *)

Lemma count_chr_snoc c pre x :
  count_chr c (pre ++ [x]) =
    (count_chr c pre + if decide (x = c) then 1 else 0)%nat.
Proof.
  unfold count_chr. rewrite filter_app, length_app. f_equal.
  rewrite filter_cons, filter_nil. by destruct (decide (x = c)).
Qed.

Lemma length_tags_from pre col : length (tags_from pre col) = length col.
Proof.
  revert pre. induction col as [|c col IH]; intros pre; simpl; [done|].
  by rewrite IH.
Qed.

Lemma lookup_tags_from pre col j c :
  col !! j = Some c →
  tags_from pre col !! j = Some (tag c (count_chr c (pre ++ take j col))).
Proof.
  revert pre j. induction col as [|x col IH]; intros pre j H; [done|].
  destruct j as [|j]; simpl in *.
  - injection H as ->. by rewrite app_nil_r.
  - rewrite (IH _ _ H). by rewrite <- app_assoc.
Qed.

Lemma lookup_tags col j c :
  col !! j = Some c → tags col !! j = Some (tag c (count_chr c (take j col))).
Proof. apply (lookup_tags_from []). Qed.

Lemma lookup_tags_inv col j t :
  tags col !! j = Some t →
  ∃ c, col !! j = Some c ∧ t = tag c (count_chr c (take j col)).
Proof.
  intros H. destruct (col !! j) as [c|] eqn:Hc.
  - exists c. split; [done|]. rewrite (lookup_tags _ _ _ Hc) in H. congruence.
  - apply lookup_ge_None in Hc. apply lookup_lt_Some in H.
    unfold tags in H. rewrite length_tags_from in H. lia.
Qed.

(** [str] of an integer determines the integer. *)
Lemma str_of_int_inj a b : str_of_int a = str_of_int b → a = b.
Proof.
  unfold str_of_int. intros H.
  apply (f_equal string_of_list_ascii) in H.
  rewrite !string_of_list_ascii_of_string in H.
  assert (∀ z, NilZero.int_of_string (NilZero.string_of_int (Z.to_int z))
               = Some (Z.to_int z)) as Hrt.
  { intros z. apply NilZero.isi; destruct z; simpl; try done;
      intros Heq; injection Heq as Heq;
      by apply (DecimalPos.Unsigned.to_uint_nonnil p). }
  pose proof (Hrt a) as Ha. rewrite H, Hrt in Ha.
  injection Ha as Ha. apply (f_equal Z.of_int) in Ha.
  by rewrite !DecimalZ.of_to in Ha.
Qed.

Lemma tag_inj c1 k1 c2 k2 : tag c1 k1 = tag c2 k2 → c1 = c2 ∧ k1 = k2.
Proof.
  unfold tag. intros H. injection H as -> H.
  apply str_of_int_inj in H. split; [done|lia].
Qed.

Lemma count_chr_take_lt (col : str) i j c :
  (i < j)%nat → col !! i = Some c →
  (count_chr c (take i col) < count_chr c (take j col))%nat.
Proof.
  intros Hij Hi.
  rewrite <- (take_drop i (take j col)).
  rewrite take_take, Nat.min_l by lia.
  unfold count_chr. rewrite filter_app, length_app.
  assert (drop i (take j col) !! 0%nat = Some c) as H0.
  { rewrite lookup_drop, Nat.add_0_r, lookup_take_lt by done. done. }
  destruct (drop i (take j col)) as [|x l]; [done|].
  injection H0 as ->. rewrite filter_cons, decide_True by done. simpl. lia.
Qed.

(** The tags of a column are pairwise distinct. *)
Lemma NoDup_tags col : NoDup (tags col).
Proof.
  apply NoDup_alt. intros i j t Hi Hj.
  apply lookup_tags_inv in Hi as (c & Hci & ->).
  apply lookup_tags_inv in Hj as (c' & Hcj & Heq).
  apply tag_inj in Heq as [<- Hk].
  destruct (Nat.lt_trichotomy i j) as [Hlt|[?|Hlt]]; [|done|].
  - pose proof (count_chr_take_lt col i j c Hlt Hci). lia.
  - pose proof (count_chr_take_lt col j i c Hlt Hcj). lia.
Qed.

(** ** [preencherLista] *)

Lemma set_dicionario_id (self : BWT) d :
  dicionarioOcorrencias self = Some d → set_dicionario d self = self.
Proof. destruct self. simpl. by intros ->. Qed.

Lemma set_dicionario_twice d d' (self : BWT) :
  set_dicionario d' (set_dicionario d self) = set_dicionario d' self.
Proof. done. Qed.

Lemma decidirCaracter_hit (self : BWT) d c v lista :
  dicionarioOcorrencias self = Some d → dict_get d c = Ret v →
  decidirCaracter [c] c lista self =
    Ret (lista ++ [c :: str_of_int (v + 1)],
         set_dicionario (dict_set d c (v + 1)) self).
Proof.
  intros Hd Hv. unfold decidirCaracter, get_dicionario.
  rewrite decide_True by done. rewrite Hd. simpl. rewrite Hv. simpl.
  by rewrite dict_get_set, decide_True.
Qed.

Lemma decidirCaracter_miss (self : BWT) item chave lista :
  item ≠ [chave] → decidirCaracter item chave lista self = Ret (lista, self).
Proof. intros H. unfold decidirCaracter. by rewrite decide_False. Qed.

Lemma preencher_chaves_miss (self : BWT) chaves item lista :
  (∀ k, k ∈ chaves → item ≠ [k]) →
  preencher_chaves chaves item lista self = Ret (lista, self).
Proof.
  induction chaves as [|k chaves IH]; intros H; simpl; [done|].
  rewrite decidirCaracter_miss by (apply H; left). simpl.
  apply IH. intros k' Hk'. apply H. by right.
Qed.

Lemma preencher_chaves_hit (self : BWT) d chaves c v lista :
  NoDup chaves → c ∈ chaves →
  dicionarioOcorrencias self = Some d → dict_get d c = Ret v →
  preencher_chaves chaves [c] lista self =
    Ret (lista ++ [c :: str_of_int (v + 1)],
         set_dicionario (dict_set d c (v + 1)) self).
Proof.
  intros Hnd Hin Hd Hv.
  induction chaves as [|k chaves IH]; [by apply elem_of_nil in Hin|].
  apply NoDup_cons in Hnd as [Hk Hnd]. simpl.
  destruct (decide (k = c)) as [->|Hne].
  - rewrite (decidirCaracter_hit _ _ _ _ _ Hd Hv). simpl.
    apply preencher_chaves_miss. intros k Hkin Heq. congruence.
  - rewrite decidirCaracter_miss by congruence. simpl.
    apply IH; [done|]. apply elem_of_cons in Hin as [?|?]; [congruence|done].
Qed.

(** One item: either it is a key, whose counter goes up by one and whose tag
    is appended, or nothing happens. *)
Lemma preencher_chaves_cases (self : BWT) d item lista :
  NoDup (dict_keys d) → dicionarioOcorrencias self = Some d →
  (∃ c v, item = [c] ∧ c ∈ dict_keys d ∧ dict_get d c = Ret v ∧
     preencher_chaves (dict_keys d) item lista self =
       Ret (lista ++ [c :: str_of_int (v + 1)],
            set_dicionario (dict_set d c (v + 1)) self)) ∨
  ((∀ k, k ∈ dict_keys d → item ≠ [k]) ∧
   preencher_chaves (dict_keys d) item lista self = Ret (lista, self)).
Proof.
  intros Hnd Hd.
  assert ((∃ c, c ∈ dict_keys d ∧ item = [c]) ∨
          (∀ k, k ∈ dict_keys d → item ≠ [k])) as [(c & Hc & ->)|Hmiss].
  { destruct item as [|c [|c' item]]; [by right| |by right].
    destruct (decide (c ∈ dict_keys d)) as [Hc|Hc]; [left; by exists c|].
    right. intros k Hk Heq. congruence. }
  - left. destruct (dict_get_in d c Hc) as [v Hv].
    exists c, v. split_and!; [done..|].
    by apply (preencher_chaves_hit _ d).
  - right. split; [done|]. by apply preencher_chaves_miss.
Qed.

(** The loop over the column returns whatever the column holds, and keeps
    the keys. *)
Lemma preencher_itens_total (self : BWT) d itens lista :
  NoDup (dict_keys d) → dicionarioOcorrencias self = Some d →
  ∃ lista' d', preencher_itens itens lista self
                 = Ret (lista', set_dicionario d' self) ∧
               dict_keys d' = dict_keys d.
Proof.
  revert self d lista. induction itens as [|item itens IH];
    intros self d lista Hnd Hd; simpl.
  { exists lista, d. by rewrite set_dicionario_id. }
  unfold get_dicionario. rewrite Hd. simpl.
  destruct (preencher_chaves_cases self d item lista Hnd Hd)
    as [(c & v & -> & Hc & Hv & ->)|[_ ->]]; simpl.
  - destruct (IH (set_dicionario (dict_set d c (v + 1)) self)
               (dict_set d c (v + 1)) (lista ++ [c :: str_of_int (v + 1)]))
      as (lista' & d' & -> & Hk); [by apply dict_set_NoDup|done|].
    exists lista', d'. split; [done|]. by rewrite Hk, dict_keys_set_in.
  - by apply IH.
Qed.

(** From counters that hold the counts of the characters [pre], less one,
    the loop appends the tags of the column that comes after [pre]. *)
Lemma preencher_itens_tags (self : BWT) d pre col lista :
  NoDup (dict_keys d) → dicionarioOcorrencias self = Some d →
  (∀ c, c ∈ dict_keys d →
     dict_get d c = Ret (Z.of_nat (count_chr c pre) - 1)) →
  (∀ c, c ∈ col → c ∈ dict_keys d) →
  ∃ d', preencher_itens (chars col) lista self
          = Ret (lista ++ tags_from pre col, set_dicionario d' self) ∧
        dict_keys d' = dict_keys d.
Proof.
  revert self d pre lista. induction col as [|x col IH];
    intros self d pre lista Hnd Hd Hcnt Hcol; simpl.
  { exists d. by rewrite app_nil_r, set_dicionario_id. }
  unfold get_dicionario. rewrite Hd. simpl.
  assert (x ∈ dict_keys d) as Hx by (apply Hcol; left).
  rewrite (preencher_chaves_hit self d (dict_keys d) x _ lista Hnd Hx Hd
             (Hcnt x Hx)). simpl.
  replace (Z.of_nat (count_chr x pre) - 1 + 1)
    with (Z.of_nat (count_chr x pre)) by lia.
  set (d1 := dict_set d x (Z.of_nat (count_chr x pre))).
  destruct (IH (set_dicionario d1 self) d1 (pre ++ [x])
              (lista ++ [x :: str_of_int (Z.of_nat (count_chr x pre))]))
    as (d' & -> & Hk).
  - by apply dict_set_NoDup.
  - done.
  - intros c Hc. unfold d1 in *. rewrite dict_keys_set_in in Hc by done.
    rewrite dict_get_set, count_chr_snoc.
    destruct (decide (x = c)) as [->|Hne].
    + f_equal. lia.
    + rewrite Hcnt by done. f_equal. lia.
  - intros c Hc. unfold d1. rewrite dict_keys_set_in by done.
    apply Hcol. by right.
  - exists d'. split.
    + by rewrite <- app_assoc.
    + unfold d1 in Hk. by rewrite Hk, dict_keys_set_in.
Qed.

Lemma all_reset_unique (d d' : dict) :
  NoDup (dict_keys d) → dict_keys d' = dict_keys d →
  all_reset d → all_reset d' → d' = d.
Proof.
  intros Hnd Hk Hd Hd'. apply dict_ext; [done|by rewrite Hk|].
  intros k Hk'. rewrite !all_reset_get; try done. by rewrite <- Hk.
Qed.

(** Whatever the column and the counters, [preencherLista] returns, with the
    keys it found and every counter at [-1]. *)
Lemma preencherLista_total (self : BWT) d itens lista :
  NoDup (dict_keys d) → dicionarioOcorrencias self = Some d →
  ∃ lista' d', preencherLista itens lista self
                 = Ret (lista', set_dicionario d' self) ∧
               dict_keys d' = dict_keys d ∧ all_reset d'.
Proof.
  intros Hnd Hd. unfold preencherLista.
  destruct (preencher_itens_total self d itens lista Hnd Hd)
    as (lista' & d1 & -> & Hk1). simpl.
  assert (NoDup (dict_keys d1)) as Hnd1 by by rewrite Hk1.
  destruct (dict_reset_spec d1 Hnd1) as [Hk2 Hr].
  eexists lista', _. split; [done|]. split; [|done]. by rewrite Hk2.
Qed.

(** On counters at [-1] and a column over the keys: the tags of the column
    are appended and the instance is as before the call. *)
Lemma preencherLista_tags (self : BWT) d col lista :
  NoDup (dict_keys d) → dicionarioOcorrencias self = Some d →
  all_reset d → (∀ c, c ∈ col → c ∈ dict_keys d) →
  preencherLista (chars col) lista self = Ret (lista ++ tags col, self).
Proof.
  intros Hnd Hd Hr Hcol. unfold preencherLista.
  destruct (preencher_itens_tags self d [] col lista Hnd Hd)
    as (d1 & -> & Hk1); [|done|].
  { intros c Hc. by rewrite all_reset_get. }
  simpl.
  assert (NoDup (dict_keys d1)) as Hnd1 by by rewrite Hk1.
  destruct (dict_reset_spec d1 Hnd1) as [Hk2 Hr2].
  do 2 f_equal. transitivity (set_dicionario d self);
    [|by apply set_dicionario_id].
  rewrite set_dicionario_twice. f_equal.
  apply all_reset_unique; [done| |done..]. by rewrite Hk2.
Qed.

(** ** Sorting under a map *)

Lemma insort_fmap {A B} (f : A → B) (leb : A → A → bool)
    (leb' : B → B → bool) x l :
  (∀ y, y ∈ l → leb' (f x) (f y) = leb x y) →
  insort leb' (f x) (f <$> l) = f <$> insort leb x l.
Proof.
  induction l as [|y l IH]; intros H; simpl; [done|].
  rewrite (H y) by left. destruct (leb x y); [done|].
  simpl. f_equal. apply IH. intros z Hz. apply H. by right.
Qed.

Lemma sorted_cons {A} (leb : A → A → bool) x l :
  sorted leb (x :: l) = insort leb x (sorted leb l).
Proof. done. Qed.

Lemma sorted_fmap {A B} (f : A → B) (leb : A → A → bool)
    (leb' : B → B → bool) l :
  (∀ x y, x ∈ l → y ∈ l → leb' (f x) (f y) = leb x y) →
  sorted leb' (f <$> l) = f <$> sorted leb l.
Proof.
  induction l as [|x l IH]; intros H; [done|].
  rewrite fmap_cons, !sorted_cons, IH.
  - apply insort_fmap. intros y Hy. apply H; [left|right].
    by rewrite elem_of_sorted in Hy.
  - intros y z Hy Hz. apply H; by right.
Qed.

(** ** Sequences that end in a sentinel *)

Lemma sentinel_ok_elem s body c :
  sentinel_ok s body → c ∈ body → (ord s < ord c)%nat.
Proof. intros H Hc. by apply (proj1 (Forall_forall _ _) H). Qed.

Lemma sentinel_not_in s body : sentinel_ok s body → s ∉ body.
Proof. intros H Hin. pose proof (sentinel_ok_elem _ _ _ H Hin). lia. Qed.

(** Two different sentinel-free strings, each followed by the sentinel,
    compare the same whatever comes after the sentinel. *)
Lemma str_leb_sentinel s (a b x y : str) :
  sentinel_ok s a → sentinel_ok s b → a ≠ b →
  str_leb (a ++ s :: x) (b ++ s :: y) = str_leb (a ++ [s]) (b ++ [s]).
Proof.
  revert b. induction a as [|c a IH]; intros [|d b] Ha Hb Hne; try done.
  - simpl. apply Forall_cons in Hb as [H _].
    destruct (Nat.ltb_spec (ord s) (ord d)); [done|lia].
  - simpl. apply Forall_cons in Ha as [H _].
    destruct (Nat.ltb_spec (ord c) (ord s)); [lia|].
    destruct (Nat.ltb_spec (ord s) (ord c)); [done|lia].
  - simpl. destruct (Nat.ltb_spec (ord c) (ord d)); [done|].
    destruct (Nat.ltb_spec (ord d) (ord c)); [done|].
    assert (c = d) as -> by (apply ord_inj; lia).
    apply Forall_cons in Ha as [_ Ha]. apply Forall_cons in Hb as [_ Hb].
    apply IH; [done..|congruence].
Qed.

Lemma sa_nat_Permutation sq : sa_nat sq ≡ₚ seq 0 (length sq).
Proof. apply sorted_Permutation. Qed.

Lemma elem_of_sa_nat sq k : k ∈ sa_nat sq ↔ (k < length sq)%nat.
Proof. rewrite sa_nat_Permutation, elem_of_seq. lia. Qed.

Lemma length_sa_nat sq : length (sa_nat sq) = length sq.
Proof. by rewrite sa_nat_Permutation, length_seq. Qed.

Lemma NoDup_sa_nat sq : NoDup (sa_nat sq).
Proof. rewrite sa_nat_Permutation. apply NoDup_seq. Qed.

(** [suffix_array] on an instance that has not run it yet: the list is
    returned and stored in the attribute. *)
Lemma suffix_array_spec (sq : str) (self : BWT) :
  attr_suffix_array self = SA_method →
  suffix_array sq self =
    Ret (Z.of_nat <$> sa_nat sq,
         set_suffix_array (Z.of_nat <$> sa_nat sq) self).
Proof.
  intros Hm. unfold suffix_array. rewrite Hm.
  assert (sorted_key str_leb (λ i, slice sq i (len sq)) (range 0 (len sq))
          = Z.of_nat <$> sa_nat sq) as ->; [|done].
  unfold sa_nat, sorted_key, len. rewrite range_seq.
  apply sorted_fmap. intros i j _ _. fold (len sq). by rewrite !slice_from.
Qed.

Section sentinel.
Context (s : ascii) (body : str) (Hs : sentinel_ok s body).

Local Abbreviation sq := (body ++ [s]).
Local Abbreviation n := (length (body ++ [s])).

Lemma rot_sentinel k :
  (k < n)%nat → rot k sq = drop k body ++ s :: take k sq.
Proof.
  intros Hk. unfold rot.
  rewrite length_app in Hk. simpl in Hk.
  rewrite drop_app_le by lia. by rewrite <- app_assoc.
Qed.

Lemma drop_sentinel k : (k < n)%nat → drop k sq = drop k body ++ [s].
Proof.
  intros Hk. rewrite length_app in Hk. simpl in Hk.
  by rewrite drop_app_le by lia.
Qed.

Lemma sentinel_ok_drop k : sentinel_ok s (drop k body).
Proof.
  apply Forall_drop, Hs.
Qed.

(** Rotations compare as the suffixes they start with. *)
Lemma rot_leb_suffix i j :
  (i < n)%nat → (j < n)%nat →
  str_leb (rot i sq) (rot j sq) = str_leb (drop i sq) (drop j sq).
Proof.
  intros Hi Hj. destruct (decide (i = j)) as [->|Hne].
  { by rewrite !str_leb_refl. }
  rewrite !rot_sentinel, !drop_sentinel by done.
  apply str_leb_sentinel; [apply sentinel_ok_drop..|].
  intros Heq. apply (f_equal length) in Heq.
  rewrite !length_drop in Heq.
  rewrite length_app in *. simpl in *. lia.
Qed.

Lemma rot_inj i j :
  (i < n)%nat → (j < n)%nat → rot i sq = rot j sq → i = j.
Proof.
  intros Hi Hj Heq.
  assert (drop i sq = drop j sq) as Hd.
  { apply str_leb_antisym; rewrite <- rot_leb_suffix by done;
      rewrite Heq; apply str_leb_refl. }
  apply (f_equal length) in Hd. rewrite !length_drop in Hd. lia.
Qed.

(** The sorted matrix lists the rotations in the order of the suffix
    array. *)
Lemma sorted_rotations :
  sorted str_leb (rotations sq) = (λ k, rot k sq) <$> sa_nat sq.
Proof.
  unfold rotations, sa_nat, sorted_key.
  apply sorted_fmap. intros i j Hi Hj.
  apply elem_of_seq in Hi. apply elem_of_seq in Hj.
  apply rot_leb_suffix; lia.
Qed.
End sentinel.

(** ** Filtering and ranks *)

Section filter.
Context {A : Type} (P : A → Prop) `{∀ x, Decision (P x)}.

(** An element that satisfies [P] sits in [filter P l] at the number of
    elements before it that satisfy [P]. *)
Lemma filter_lookup_rank (l : list A) i x :
  l !! i = Some x → P x →
  filter P l !! length (filter P (take i l)) = Some x.
Proof.
  revert i. induction l as [|y l IH]; intros i Hi Hx; [done|].
  destruct i as [|i]; simpl in *.
  - injection Hi as ->. by rewrite filter_cons, decide_True.
  - rewrite !filter_cons. destruct (decide (P y)); simpl; by apply IH.
Qed.

Lemma filter_length_take_le (l : list A) i j :
  (i ≤ j)%nat →
  (length (filter P (take i l)) ≤ length (filter P (take j l)))%nat.
Proof.
  intros Hij. rewrite <- (take_drop i (take j l)).
  rewrite take_take, Nat.min_l by lia.
  rewrite filter_app, length_app. lia.
Qed.

Lemma filter_length_take_lt (l : list A) i j x :
  (i < j)%nat → l !! i = Some x → P x →
  (length (filter P (take i l)) < length (filter P (take j l)))%nat.
Proof.
  intros Hij Hi Hx. rewrite <- (take_drop i (take j l)).
  rewrite take_take, Nat.min_l by lia.
  rewrite filter_app, length_app.
  assert (drop i (take j l) !! 0%nat = Some x) as H0.
  { by rewrite lookup_drop, Nat.add_0_r, lookup_take_lt. }
  destruct (drop i (take j l)) as [|y l']; [done|].
  injection H0 as ->. rewrite filter_cons, decide_True by done. simpl. lia.
Qed.

(** Every rank below the number of elements that satisfy [P] is the rank
    of one of them. *)
Lemma filter_rank_exists (l : list A) k :
  (k < length (filter P l))%nat →
  ∃ i x, l !! i = Some x ∧ P x ∧ length (filter P (take i l)) = k.
Proof.
  revert k. induction l as [|y l IH]; intros k Hk; [simpl in Hk; lia|].
  rewrite filter_cons in Hk. destruct (decide (P y)) as [Hy|Hy].
  - destruct k as [|k].
    + by exists 0%nat, y.
    + simpl in Hk. destruct (IH k) as (i & x & Hi & Hx & Hr); [lia|].
      exists (S i), x. split_and!; [done..|].
      simpl. rewrite filter_cons, decide_True by done. simpl. by rewrite Hr.
  - destruct (IH k Hk) as (i & x & Hi & Hx & Hr).
    exists (S i), x. split_and!; [done..|].
    simpl. by rewrite filter_cons, decide_False.
Qed.
End filter.

Lemma filter_fmap_length {A B} (f : A → B) (P : B → Prop)
    `{∀ y, Decision (P y)} (l : list A) :
  length (filter P (f <$> l)) = length (filter (λ x, P (f x)) l).
Proof.
  induction l as [|x l IH]; [done|].
  rewrite fmap_cons, !filter_cons. destruct (decide (P (f x))); simpl; lia.
Qed.

Lemma count_chr_fmap_take {A} (f : A → ascii) c i (l : list A) :
  count_chr c (take i (f <$> l)) = length (filter (λ r, f r = c) (take i l)).
Proof.
  unfold count_chr. by rewrite <- fmap_take, filter_fmap_length.
Qed.

Lemma StronglySorted_filter {A} (R : relation A) (P : A → Prop)
    `{∀ x, Decision (P x)} (l : list A) :
  StronglySorted R l → StronglySorted R (filter P l).
Proof.
  induction 1 as [|x l Hl IH Hx]; [constructor|].
  rewrite filter_cons. destruct (decide (P x)); [|done].
  constructor; [done|]. apply Forall_forall. intros y Hy.
  apply list_elem_of_filter in Hy as [_ Hy].
  by apply (proj1 (Forall_forall _ _) Hx).
Qed.

Lemma StronglySorted_fmap_strong {A B} (f : A → B) (R1 : relation A)
    (R2 : relation B) (l : list A) :
  (∀ x y, x ∈ l → y ∈ l → R1 x y → R2 (f x) (f y)) →
  StronglySorted R1 l → StronglySorted R2 (f <$> l).
Proof.
  intros Hf Hl. induction Hl as [|x l Hl IH Hx]; [constructor|].
  rewrite fmap_cons. constructor.
  - apply IH. intros y z Hy Hz. apply Hf; by right.
  - apply Forall_fmap, Forall_forall. intros y Hy. simpl.
    apply Hf; [left|by right|]. by apply (proj1 (Forall_forall _ _) Hx).
Qed.

(** ** One-step rotations *)

Lemma rotl_cons x (w : str) : rotl (x :: w) = w ++ [x].
Proof. done. Qed.

Lemma rotr_snoc (w : str) x : rotr (w ++ [x]) = x :: w.
Proof.
  unfold rotr, rot. rewrite length_app. simpl.
  replace (length w + 1 - 1)%nat with (length w) by lia.
  by rewrite drop_app_length, take_app_length.
Qed.

Lemma rotl_rotr (r : str) : rotl (rotr r) = r.
Proof.
  destruct (decide (r = [])) as [->|Hne]; [done|].
  destruct (exists_last Hne) as (w & x & ->).
  by rewrite rotr_snoc, rotl_cons.
Qed.

Lemma rotr_rotl (r : str) : rotr (rotl r) = r.
Proof. destruct r as [|x w]; [done|]. by rewrite rotl_cons, rotr_snoc. Qed.

Lemma length_rotl r : length (rotl r) = length r.
Proof. apply length_rot. Qed.

Lemma length_rotr r : length (rotr r) = length r.
Proof. apply length_rot. Qed.

Lemma first_chr_rotr (r : str) : r ≠ [] → first_chr (rotr r) = last_chr r.
Proof.
  intros Hne. destruct (exists_last Hne) as (w & x & ->).
  by rewrite rotr_snoc, last_chr_snoc.
Qed.

Lemma rotl_rot k (sq : str) :
  (k < length sq)%nat → rotl (rot k sq) = rot (S k) sq.
Proof.
  intros Hk. destruct (lookup_lt_is_Some_2 sq k Hk) as [x Hx].
  rewrite (rot_S _ _ _ Hx), (rot_pred _ _ _ Hx), rotl_cons.
  by rewrite <- app_assoc.
Qed.

Lemma rotr_rot k (sq : str) :
  (k < length sq)%nat → rotr (rot (S k) sq) = rot k sq.
Proof. intros Hk. by rewrite <- rotl_rot, rotr_rotl. Qed.

Lemma elem_of_rotations (sq r : str) :
  r ∈ rotations sq ↔ ∃ k, (k < length sq)%nat ∧ r = rot k sq.
Proof.
  unfold rotations. rewrite list_elem_of_fmap. split.
  - intros (k & -> & Hk). apply elem_of_seq in Hk. exists k. split; [lia|done].
  - intros (k & Hk & ->). exists k. split; [done|]. apply elem_of_seq. lia.
Qed.

Lemma rotations_rotl (sq r : str) : r ∈ rotations sq → rotl r ∈ rotations sq.
Proof.
  rewrite !elem_of_rotations. intros (k & Hk & ->).
  rewrite rotl_rot by done.
  destruct (decide (S k = length sq)) as [Heq|Hne].
  - exists 0%nat. split; [lia|]. by rewrite Heq, rot_length, rot_0.
  - exists (S k). split; [lia|done].
Qed.

Lemma rotations_rotr (sq r : str) : r ∈ rotations sq → rotr r ∈ rotations sq.
Proof.
  rewrite !elem_of_rotations. intros (k & Hk & ->).
  destruct k as [|k].
  - exists (length sq - 1)%nat. split; [lia|].
    rewrite rot_0. rewrite <- (rot_length sq) at 1.
    replace (length sq) with (S (length sq - 1)) at 1 by lia.
    apply rotr_rot. lia.
  - exists k. split; [lia|]. apply rotr_rot. lia.
Qed.

(** ** The sorted matrix and the last-first correspondence *)

Lemma chr_le_ord a b : chr_le a b ↔ (ord a ≤ ord b)%nat.
Proof. unfold chr_le, chr_leb. apply Nat.leb_le. Qed.

Lemma chr_leb_total a b : chr_leb a b = false → chr_leb b a = true.
Proof.
  unfold chr_leb. intros H. apply Nat.leb_gt in H. apply Nat.leb_le. lia.
Qed.

Lemma chr_leb_trans a b c :
  chr_leb a b = true → chr_leb b c = true → chr_leb a c = true.
Proof. unfold chr_leb. rewrite !Nat.leb_le. lia. Qed.

Lemma chr_leb_antisym a b :
  chr_leb a b = true → chr_leb b a = true → a = b.
Proof. unfold chr_leb. rewrite !Nat.leb_le. intros. apply ord_inj. lia. Qed.

Lemma str_le_first_chr (x y : str) :
  x ≠ [] → y ≠ [] → str_le x y → chr_le (first_chr x) (first_chr y).
Proof.
  destruct x as [|a x], y as [|b y]; try done. intros _ _.
  rewrite chr_le_ord. unfold str_le, first_chr. simpl.
  destruct (Nat.ltb_spec (ord a) (ord b)); [lia|].
  destruct (Nat.ltb_spec (ord b) (ord a)); [done|lia].
Qed.

Lemma last_chr_rotl (r : str) : last_chr (rotl r) = first_chr r.
Proof. destruct r as [|a w]; [done|]. by rewrite rotl_cons, last_chr_snoc. Qed.

Section matrix.
Context (M : list str) (n : nat).
Hypothesis M_sorted : StronglySorted str_le M.
Hypothesis M_NoDup : NoDup M.
Hypothesis M_length : ∀ r, r ∈ M → length r = n.
Hypothesis n_pos : (0 < n)%nat.
Hypothesis M_rotl : ∀ r, r ∈ M → rotl r ∈ M.
Hypothesis M_rotr : ∀ r, r ∈ M → rotr r ∈ M.

Lemma M_nonempty r : r ∈ M → r ≠ [].
Proof.
  intros Hr ->. apply M_length in Hr. simpl in Hr. lia.
Qed.

(** Rows that end with one character keep their order when that
    character is moved to the front. *)
Lemma rotr_mono c x y :
  x ∈ M → y ∈ M → last_chr x = c → last_chr y = c →
  str_le x y → str_le (rotr x) (rotr y).
Proof.
  intros Hx Hy Hcx Hcy Hle.
  pose proof (M_length _ Hx) as Hlx. pose proof (M_length _ Hy) as Hly.
  destruct (exists_last (M_nonempty _ Hx)) as (x' & a & ->).
  destruct (exists_last (M_nonempty _ Hy)) as (y' & b & ->).
  rewrite last_chr_snoc in Hcx, Hcy. subst a b.
  rewrite !rotr_snoc. unfold str_le in *. simpl.
  rewrite Nat.ltb_irrefl. rewrite str_leb_app_r in Hle; [done|].
  rewrite !length_app in *. simpl in *. lia.
Qed.

(** The rows that start with [c], in order, are the rows that end with
    [c], in order, each moved one step right. *)
Lemma rotr_filter c :
  rotr <$> filter (λ r, last_chr r = c) M =
  filter (λ r, first_chr r = c) M.
Proof.
  apply (StronglySorted_unique_strong str_le).
  - intros x y _ _. apply str_leb_antisym.
  - apply (StronglySorted_fmap_strong _ str_le);
      [|by apply StronglySorted_filter].
    intros x y Hx Hy. apply list_elem_of_filter in Hx as [Hcx Hx].
    apply list_elem_of_filter in Hy as [Hcy Hy]. by apply (rotr_mono c).
  - by apply StronglySorted_filter.
  - apply NoDup_Permutation.
    + apply NoDup_fmap_2_strong; [|by apply NoDup_filter].
      intros x y _ _ Heq. by rewrite <- (rotl_rotr x), Heq, rotl_rotr.
    + by apply NoDup_filter.
    + intros x. rewrite list_elem_of_fmap, list_elem_of_filter. split.
      * intros (r & -> & Hr). apply list_elem_of_filter in Hr as [Hc Hr].
        split; [|by apply M_rotr].
        rewrite first_chr_rotr; [done|by apply M_nonempty].
      * intros [Hc Hx]. exists (rotl x). split; [by rewrite rotr_rotl|].
        apply list_elem_of_filter. split; [|by apply M_rotl].
        by rewrite last_chr_rotl.
Qed.

(** Last-first correspondence: a character has the same rank in the last
    column, at its row, as in the first column, at the row one step to
    the right. *)
Lemma LF_rank i j r :
  M !! i = Some r → M !! j = Some (rotr r) →
  count_chr (last_chr r) (take i (last_col M)) =
  count_chr (last_chr r) (take j (first_col M)).
Proof.
  intros Hi Hj. unfold last_col, first_col. rewrite !count_chr_fmap_take.
  set (c := last_chr r).
  assert (r ∈ M) as Hr by (by eapply list_elem_of_lookup_2).
  pose proof (filter_lookup_rank (λ r, last_chr r = c) M i r Hi eq_refl)
    as H1.
  assert (first_chr (rotr r) = c) as Hc
    by (apply first_chr_rotr; by apply M_nonempty).
  pose proof (filter_lookup_rank (λ r, first_chr r = c) M j (rotr r) Hj Hc)
    as H2.
  apply (f_equal (fmap rotr)) in H1. rewrite <- list_lookup_fmap in H1.
  rewrite rotr_filter in H1. simpl in H1.
  eapply NoDup_lookup; [|exact H1|exact H2]. by apply NoDup_filter.
Qed.

Lemma first_col_sorted : StronglySorted chr_le (first_col M).
Proof.
  unfold first_col. apply (StronglySorted_fmap_strong _ str_le); [|done].
  intros x y Hx Hy. apply str_le_first_chr; by apply M_nonempty.
Qed.

Lemma length_first_col : length (first_col M) = length M.
Proof. apply length_fmap. Qed.

Lemma length_last_col : length (last_col M) = length M.
Proof. apply length_fmap. Qed.

Lemma lookup_first_col i r : M !! i = Some r → (first_col M) !! i = Some (first_chr r).
Proof. intros H. unfold first_col. by rewrite list_lookup_fmap, H. Qed.

Lemma lookup_last_col i r : M !! i = Some r → (last_col M) !! i = Some (last_chr r).
Proof. intros H. unfold last_col. by rewrite list_lookup_fmap, H. Qed.
End matrix.

(** ** The sorted matrix of a sequence *)

Lemma bwt_of_last_col sq : bwt_of sq = last_col (matrix sq).
Proof. done. Qed.

Lemma matrix_sorted sq : StronglySorted str_le (matrix sq).
Proof.
  apply (sorted_StronglySorted str_leb);
    [apply str_leb_total|apply str_leb_trans].
Qed.

Lemma elem_of_matrix sq r : r ∈ matrix sq ↔ r ∈ rotations sq.
Proof. apply elem_of_sorted. Qed.

Lemma length_matrix sq : length (matrix sq) = length sq.
Proof.
  unfold matrix, rotations. by rewrite length_sorted, length_fmap, length_seq.
Qed.

Lemma matrix_length sq r : r ∈ matrix sq → length r = length sq.
Proof.
  rewrite elem_of_matrix, elem_of_rotations. intros (k & _ & ->).
  apply length_rot.
Qed.

Lemma matrix_rotl sq r : r ∈ matrix sq → rotl r ∈ matrix sq.
Proof. rewrite !elem_of_matrix. apply rotations_rotl. Qed.

Lemma matrix_rotr sq r : r ∈ matrix sq → rotr r ∈ matrix sq.
Proof. rewrite !elem_of_matrix. apply rotations_rotr. Qed.

Lemma first_chr_rotations (sq : str) : first_chr <$> rotations sq = sq.
Proof.
  unfold rotations. apply list_eq. intros k.
  rewrite <- list_fmap_compose, list_lookup_fmap.
  destruct (sq !! k) as [x|] eqn:Hx.
  - rewrite lookup_seq_lt by by eapply lookup_lt_Some. simpl.
    f_equal. by apply first_chr_rot.
  - apply lookup_ge_None in Hx. by rewrite lookup_seq_ge.
Qed.

Lemma first_col_Permutation sq : first_col (matrix sq) ≡ₚ sq.
Proof.
  unfold first_col, matrix.
  by rewrite sorted_Permutation, first_chr_rotations.
Qed.

Lemma last_col_Permutation sq : last_col (matrix sq) ≡ₚ sq.
Proof. apply bwt_of_Permutation. Qed.

Section sentinel_matrix.
Context (s : ascii) (body : str) (Hs : sentinel_ok s body).

Local Abbreviation sq := (body ++ [s]).
Local Abbreviation n := (length (body ++ [s])).

Lemma length_sq_pos : (0 < n)%nat.
Proof. rewrite length_app. simpl. lia. Qed.

Lemma matrix_sa : matrix sq = (λ k, rot k sq) <$> sa_nat sq.
Proof. by apply sorted_rotations. Qed.

Lemma matrix_NoDup : NoDup (matrix sq).
Proof.
  rewrite matrix_sa. apply NoDup_fmap_2_strong; [|apply NoDup_sa_nat].
  intros i j Hi Hj. apply elem_of_sa_nat in Hi, Hj. by apply (rot_inj s).
Qed.

(** The first column is the sorted transform. *)
Lemma sorted_bwt_first_col :
  sorted chr_leb (bwt_of sq) = first_col (matrix sq).
Proof.
  apply sorted_unique.
  - apply chr_leb_total.
  - apply chr_leb_trans.
  - intros x y _ _. apply chr_leb_antisym.
  - by rewrite first_col_Permutation, bwt_of_Permutation.
  - apply (first_col_sorted _ n).
    + apply matrix_sorted.
    + apply matrix_length.
    + apply length_sq_pos.
Qed.

(** The row of the matrix at rank [i] is the rotation from the [i]-th
    entry of the suffix array. *)
Lemma lookup_matrix i :
  (i < n)%nat →
  ∃ k, sa_nat sq !! i = Some k ∧ (k < n)%nat ∧
       matrix sq !! i = Some (rot k sq).
Proof.
  intros Hi.
  destruct (lookup_lt_is_Some_2 (sa_nat sq) i) as [k Hk].
  { by rewrite length_sa_nat. }
  exists k. split; [done|]. split.
  - apply elem_of_sa_nat. by eapply list_elem_of_lookup_2.
  - by rewrite matrix_sa, list_lookup_fmap, Hk.
Qed.

Lemma last_chr_rot_mod k :
  (k < n)%nat →
  sq !! Z.to_nat ((Z.of_nat k - 1 + Z.of_nat n) `mod` Z.of_nat n)
    = Some (last_chr (rot k sq)).
Proof.
  intros Hk. pose proof length_sq_pos as Hn. destruct k as [|k].
  - replace (Z.of_nat 0 - 1 + Z.of_nat n) with (Z.of_nat n - 1) by lia.
    rewrite Z.mod_small by lia. rewrite rot_0, last_chr_snoc.
    replace (Z.to_nat (Z.of_nat n - 1)) with (length body)
      by (rewrite length_app; simpl; lia).
    by rewrite lookup_app_r, Nat.sub_diag by lia.
  - replace (Z.of_nat (S k) - 1 + Z.of_nat n)
      with (Z.of_nat k + 1 * Z.of_nat n) by lia.
    rewrite Z.mod_add, Z.mod_small by lia. rewrite Nat2Z.id.
    destruct (lookup_lt_is_Some_2 sq k) as [x Hx]; [lia|].
    by rewrite Hx, (last_chr_rot _ _ _ Hx).
Qed.
End sentinel_matrix.

(** ** The walk of [obterSequenciaOriginal] *)

Lemma set_lista_id (self : BWT) l :
  listaSequenciaOriginal self = l → set_lista l self = self.
Proof. destruct self. simpl. by intros ->. Qed.

Section walk.
(** The tagged columns, and a chain of tags [t 0], [t 1], ... in which
    the row that holds [t m] in the last column holds [t (m + 1)] in the
    first; [h m] is the character of [t m]. *)
Context (Fc Lc : list str) (n : nat) (t : nat → str) (h : nat → ascii).
Hypothesis Lc_NoDup : NoDup Lc.
Hypothesis t_head : ∀ m, (m < n)%nat → ∃ w, t m = h m :: w.
Hypothesis t_step : ∀ m, (m < n)%nat →
  ∃ i, Lc !! i = Some (t m) ∧ Fc !! i = Some (t (S m)).

Lemma length_collected m : length (collected h m) = m.
Proof. unfold collected. by rewrite length_fmap, length_seq. Qed.

Lemma collected_S m : collected h (S m) = collected h m ++ [[h m]].
Proof. unfold collected. by rewrite seq_S, fmap_app. Qed.

(** One pass over the rest [itens] of the last column: the chain moves
    from [t m] to some [t m'], past [t m] if it is in [itens], and the
    pass returns exactly when [n] characters are collected. *)
Lemma obter_percorrer_spec itens pre m (self : BWT) :
  Lc = pre ++ itens → (m < n)%nat →
  listaSequenciaOriginal self = collected h m →
  ∃ m', (m ≤ m' ≤ n)%nat ∧ (t m ∈ itens → (m < m')%nat) ∧
    obter_percorrer (Z.of_nat n) Fc itens (Z.of_nat (length pre) - 1)
      (t m) self
    = Ret (if decide (m' = n) then None else Some (t m'),
           set_lista (collected h m') self).
Proof.
  revert pre m self.
  induction itens as [|item itens IH]; intros pre m self HL Hm Hself.
  { exists m. split; [lia|]. split; [by intros ?%elem_of_nil|].
    simpl. rewrite decide_False by lia. by rewrite set_lista_id. }
  cbn [obter_percorrer].
  replace (Z.of_nat (length pre) - 1 + 1) with (Z.of_nat (length pre))
    by lia.
  assert (Lc !! length pre = Some item) as Hitem.
  { rewrite HL. by rewrite lookup_app_r, Nat.sub_diag by lia. }
  assert (Lc = (pre ++ [item]) ++ itens) as HL'
    by by rewrite <- app_assoc.
  assert (Z.of_nat (length pre) = Z.of_nat (length (pre ++ [item])) - 1)
    as Hidx by (rewrite length_app; simpl; lia).
  destruct (decide (item = t m)) as [->|Hne].
  - destruct (t_head m Hm) as [w Hw].
    assert (getitem (t m) 0 = Ret (h m)) as Hg by by rewrite Hw.
    rewrite Hg. cbn [obind].
    destruct (t_step m Hm) as (i & Hi & HF).
    assert (i = length pre) as -> by by eapply NoDup_lookup.
    rewrite (getitem_nat _ _ _ HF). cbn [obind fst snd].
    cbn [listaSequenciaOriginal set_lista].
    rewrite Hself, <- collected_S.
    unfold len. rewrite length_collected.
    destruct (Z.eqb_spec (Z.of_nat (S m)) (Z.of_nat n)) as [Heq|Hneq].
    + exists n. split; [lia|]. split; [lia|].
      rewrite decide_True by done.
      replace n with (S m) by lia. done.
    + destruct (IH (pre ++ [t m]) (S m)
                  (set_lista (collected h (S m)) self))
        as (m' & Hm' & _ & Hrun); [done|lia|done|].
      exists m'. split; [lia|]. split; [lia|].
      rewrite Hidx, Hrun. done.
  - cbn [obind fst snd]. rewrite Hself. unfold len.
    rewrite length_collected.
    destruct (Z.eqb_spec (Z.of_nat m) (Z.of_nat n)) as [Heq|_]; [lia|].
    destruct (IH (pre ++ [item]) m self) as (m' & Hm' & Hin & Hrun);
      [done..|].
    exists m'. split; [done|]. split.
    + intros Hin'. apply Hin.
      apply elem_of_cons in Hin' as [?|?]; [congruence|done].
    + by rewrite Hidx, Hrun.
Qed.

(** The recursion: from [t m] with [m] characters collected, [n - m]
    nested calls are enough to collect all [n]. *)
Lemma obterSequenciaOriginal_spec fuel m (self : BWT) :
  (m < n)%nat → (n - m ≤ fuel)%nat →
  listaSequenciaOriginal self = collected h m →
  obterSequenciaOriginal fuel (t m) (Z.of_nat n) Fc Lc self
    = Ret (set_lista (collected h n) self).
Proof.
  revert m self. induction fuel as [|fuel IH]; intros m self Hm Hf Hself;
    [lia|].
  cbn [obterSequenciaOriginal].
  destruct (obter_percorrer_spec Lc [] m self eq_refl Hm Hself)
    as (m' & Hm' & Hin & Hrun).
  change (Z.of_nat (length []) - 1) with (-1) in Hrun.
  rewrite Hrun. cbn [obind fst snd].
  assert (m < m')%nat as Hlt.
  { apply Hin. destruct (t_step m Hm) as (i & Hi & _).
    by eapply list_elem_of_lookup_2. }
  destruct (decide (m' = n)) as [->|Hne]; [done|].
  rewrite IH; [done|lia|lia|done].
Qed.
End walk.

(** ** Reconstruction of a sequence from its transform *)

Lemma criarUltimaColuna_chars (bwt : str) : criarUltimaColuna bwt = chars bwt.
Proof.
  unfold criarUltimaColuna.
  cut (∀ acc, foldl (λ lista item, lista ++ [[item]]) acc bwt
              = acc ++ chars bwt).
  { intros H. by rewrite H. }
  induction bwt as [|c bwt IH]; intros acc; simpl.
  - by rewrite app_nil_r.
  - by rewrite IH, <- app_assoc.
Qed.

Lemma count_chr_not_in c (l : str) : c ∉ l → count_chr c l = 0%nat.
Proof.
  intros Hc. unfold count_chr.
  induction l as [|x l IH]; [done|].
  rewrite filter_cons, decide_False.
  - apply IH. intros ?. apply Hc. by right.
  - intros ->. apply Hc. by left.
Qed.

Lemma count_chr_Permutation c (l k : str) :
  l ≡ₚ k → count_chr c l = count_chr c k.
Proof. unfold count_chr. by intros ->. Qed.

Lemma count_chr_take_le c (l : str) i :
  (count_chr c (take i l) ≤ count_chr c l)%nat.
Proof.
  rewrite <- (take_drop i l) at 2. unfold count_chr.
  rewrite filter_app, length_app. lia.
Qed.

Section invert.
Context (s : ascii) (body : str) (Hs : sentinel_ok s body).

Local Abbreviation sq := (body ++ [s]).
Local Abbreviation n := (length (body ++ [s])).
Local Abbreviation M := (matrix (body ++ [s])).
Local Abbreviation F := (first_col (matrix (body ++ [s]))).
Local Abbreviation L := (last_col (matrix (body ++ [s]))).

Lemma lookup_row_of m : (m ≤ n)%nat → M !! row_of s body m = Some (rot m sq).
Proof.
  intros Hm. unfold row_of.
  assert (rot m sq ∈ M) as Hin.
  { apply elem_of_matrix, elem_of_rotations.
    destruct (decide (m = n)) as [->|Hne].
    - exists 0%nat. split; [apply (length_sq_pos s body)|].
      by rewrite rot_length, rot_0.
    - exists m. split; [lia|done]. }
  apply list_elem_of_lookup in Hin as [i Hi].
  destruct (list_find_elem_of (λ r, r = rot m sq) M (rot m sq))
    as [[j r] Hj]; [by eapply list_elem_of_lookup_2|done|].
  rewrite Hj. simpl. apply list_find_Some in Hj as (Hj & -> & _). done.
Qed.

Lemma walk_tag_last m :
  (m ≤ n)%nat → tags L !! row_of s body m = Some (walk_tag s body m).
Proof.
  intros Hm. apply lookup_tags.
  by apply lookup_last_col, lookup_row_of.
Qed.

Lemma walk_tag_first m :
  (m < n)%nat → tags F !! row_of s body m = Some (walk_tag s body (S m)).
Proof.
  intros Hm.
  assert (first_chr (rot m sq) = walk_chr s body (S m)) as Hc.
  { unfold walk_chr. rewrite <- (rotr_rot m sq) by done.
    apply first_chr_rotr. intros Hnil.
    apply (f_equal length) in Hnil. rewrite length_rot in Hnil.
    simpl in Hnil. lia. }
  assert (count_chr (walk_chr s body (S m)) (take (row_of s body (S m)) L)
          = count_chr (walk_chr s body (S m)) (take (row_of s body m) F)) as Hrank.
  { apply (LF_rank M n).
    - apply matrix_sorted.
    - by apply matrix_NoDup.
    - apply matrix_length.
    - apply (length_sq_pos s body).
    - apply matrix_rotl.
    - apply matrix_rotr.
    - apply lookup_row_of. lia.
    - rewrite rotr_rot by done. apply lookup_row_of. lia. }
  rewrite (lookup_tags F (row_of s body m) (walk_chr s body (S m))).
  - unfold walk_tag. by rewrite Hrank.
  - rewrite <- Hc. apply lookup_first_col, lookup_row_of. lia.
Qed.

Lemma count_chr_sentinel : count_chr s sq = 1%nat.
Proof.
  rewrite count_chr_snoc, decide_True by done.
  rewrite count_chr_not_in; [done|]. by apply sentinel_not_in.
Qed.

(** The walk starts at the tag of the sentinel, [s + '0']. *)
Lemma walk_tag_0 : walk_tag s body 0 = s :: s2l "0".
Proof.
  unfold walk_tag, walk_chr. rewrite rot_0, last_chr_snoc.
  assert (count_chr s (take (row_of s body 0) L) = 0%nat) as ->; [|done].
  assert (L !! row_of s body 0 = Some s) as Hrow.
  { erewrite lookup_last_col; [|apply lookup_row_of; lia].
    by rewrite rot_0, last_chr_snoc. }
  pose proof (count_chr_take_lt L (row_of s body 0) (S (row_of s body 0)) s
                (Nat.lt_succ_diag_r _) Hrow) as Hlt.
  pose proof (count_chr_take_le s L (S (row_of s body 0))) as Hle.
  rewrite (count_chr_Permutation s L sq) in Hle
    by apply last_col_Permutation.
  rewrite count_chr_sentinel in Hle. lia.
Qed.

Lemma walk_chr_S k x : body !! k = Some x → walk_chr s body (S k) = x.
Proof.
  intros Hk. unfold walk_chr. apply last_chr_rot.
  by apply lookup_app_l_Some.
Qed.

Lemma concat_collected :
  concat (collected (walk_chr s body) n) = s :: body.
Proof.
  unfold collected. rewrite length_app, Nat.add_1_r.
  cbn [seq fmap list_fmap concat app].
  f_equal.
  { unfold walk_chr. by rewrite rot_0, last_chr_snoc. }
  rewrite <- fmap_S_seq, <- list_fmap_compose.
  assert (∀ (f : nat → ascii) l, concat ((λ j, [f j]) <$> l) = f <$> l)
    as Hconcat.
  { intros f l. induction l as [|j l IH]; [done|]. simpl. by f_equal. }
  rewrite (Hconcat (walk_chr s body ∘ S)).
  apply list_eq. intros k. rewrite list_lookup_fmap.
  destruct (body !! k) as [x|] eqn:Hx.
  - rewrite lookup_seq_lt by by eapply lookup_lt_Some. simpl.
    f_equal. by apply walk_chr_S.
  - apply lookup_ge_None in Hx. by rewrite lookup_seq_ge.
Qed.

(** The reconstruction on the transform of the sequence gives the sequence
    back, once the recursion is allowed as many nested calls as the
    sequence has symbols. *)
Lemma invert_bwt_of (self : BWT) fuel :
  listaSequenciaOriginal self = [] → (n ≤ fuel)%nat →
  ∃ self', invert fuel (s :: s2l "0") (bwt_of sq) self = Ret (sq, self').
Proof.
  intros Hself Hfuel. unfold invert.
  destruct (dict_fresh_spec (bwt_of sq)) as (Hnd & Hr & Hk).
  set (self1 := criarDicionarioOcorrencias (bwt_of sq) self).
  assert (dicionarioOcorrencias self1 = Some (dict_fresh (bwt_of sq)))
    as Hd1 by done.
  unfold criarPrimeiraColuna.
  rewrite (sorted_bwt_first_col s body).
  fold (chars F).
  rewrite (preencherLista_tags self1 _ F [] Hnd Hd1 Hr).
  2:{ intros c Hc. apply Hk. rewrite bwt_of_Permutation.
      by rewrite first_col_Permutation in Hc. }
  cbn [obind fst snd app].
  rewrite criarUltimaColuna_chars.
  rewrite (preencherLista_tags self1 _ (bwt_of sq) [] Hnd Hd1 Hr).
  2:{ intros c Hc. by apply Hk. }
  cbn [obind fst snd app].
  rewrite bwt_of_last_col.
  assert (len (tags L) = Z.of_nat n) as ->.
  { unfold len, tags. rewrite length_tags_from, length_last_col.
    by rewrite length_matrix. }
  rewrite <- walk_tag_0.
  rewrite (obterSequenciaOriginal_spec (tags F) (tags L) n (walk_tag s body)
             (walk_chr s body)).
  - cbn [obind]. unfold SequenciaOriginalEmString.
    cbn [listaSequenciaOriginal set_lista].
    rewrite concat_collected, getitem_0. cbn [obind].
    eexists. do 2 f_equal.
    change 1 with (Z.of_nat 1). rewrite slice_from. done.
  - apply NoDup_tags.
  - intros m Hm. by eexists.
  - intros m Hm. exists (row_of s body m). split.
    + apply walk_tag_last. lia.
    + by apply walk_tag_first.
  - apply (length_sq_pos s body).
  - lia.
  - done.
Qed.
End invert.

(** ** The count table *)

Lemma setitem_nat {A} (l : list A) (i : nat) x :
  (i < length l)%nat → setitem l (Z.of_nat i) x = Ret (<[i := x]> l).
Proof.
  intros Hi. unfold setitem, len.
  assert ((Z.of_nat i <? 0) = false) as H0 by (apply Z.ltb_ge; lia).
  assert ((Z.of_nat (length l) <=? Z.of_nat i) = false) as H1
    by (apply Z.leb_gt; lia).
  rewrite H0. cbv iota. rewrite H0, H1. cbn [orb]. by rewrite Nat2Z.id.
Qed.

Lemma length_count_row bwt c k : length (count_row bwt c k) = S (length bwt).
Proof. unfold count_row. by rewrite length_fmap, length_seq. Qed.

Lemma lookup_count_row bwt c k j :
  (j ≤ length bwt)%nat →
  count_row bwt c k !! j =
    Some (if decide (j ≤ k)%nat then Z.of_nat (count_chr c (take j bwt))
          else 0).
Proof.
  intros Hj. unfold count_row. rewrite list_lookup_fmap.
  by rewrite lookup_seq_lt by lia.
Qed.

Lemma count_init_spec bwt : count_spec bwt 0 (count_init bwt).
Proof.
  intros c. unfold count_init.
  set (row := replicate _ _).
  assert (row = count_row bwt c 0) as Hrow.
  { unfold row, count_row, len.
    replace (Z.to_nat (Z.of_nat (length bwt) + 1)) with (S (length bwt))
      by lia.
    apply list_eq. intros j. rewrite list_lookup_fmap.
    destruct (decide (j < S (length bwt))%nat) as [Hj|Hj].
    - rewrite lookup_replicate_2, lookup_seq_lt by done. simpl.
      destruct (decide (j ≤ 0)%nat) as [Hj0|]; [|done].
      by replace j with 0%nat by lia.
    - rewrite lookup_seq_ge by lia.
      apply lookup_replicate_None. lia. }
  rewrite <- Hrow. clearbody row. clear Hrow.
  induction bwt as [|x bwt IH]; cbn [foldr].
  { rewrite lookup_empty, decide_False; [done|apply not_elem_of_nil]. }
  rewrite lookup_insert. destruct (decide (x = c)) as [->|Hne].
  - rewrite decide_True; [done|by left].
  - rewrite IH. destruct (decide (c ∈ bwt)) as [Hin|Hnin].
    + rewrite decide_True; [done|by right].
    + rewrite decide_False; [done|].
      intros Hin. apply elem_of_cons in Hin as [?|?]; congruence.
Qed.

Lemma count_copy_spec (i : nat) (count : gmap ascii (list Z)) :
  (0 < i)%nat →
  (∀ c row, count !! c = Some row → (i < length row)%nat) →
  count_copy (Z.of_nat i) count =
    Ret ((λ row, <[i := default 0 (row !! (i - 1)%nat)]> row) <$> count).
Proof.
  intros Hi. unfold count_copy.
  apply (map_fold_weak_ind (λ r m,
    (∀ c row, m !! c = Some row → (i < length row)%nat) →
    r = Ret ((λ row, <[i := default 0 (row !! (i - 1)%nat)]> row) <$> m))).
  { intros _. by rewrite fmap_empty. }
  intros c row m r Hc IH Hlen.
  rewrite IH.
  2:{ intros c' row' Hc'. apply (Hlen c'). rewrite lookup_insert_ne; [done|].
      intros ->. congruence. }
  cbn [obind].
  assert (i < length row)%nat as Hrow.
  { apply (Hlen c). by rewrite lookup_insert_eq. }
  destruct (lookup_lt_is_Some_2 row (i - 1)%nat) as [v Hv]; [lia|].
  replace (Z.of_nat i - 1) with (Z.of_nat (i - 1)) by lia.
  rewrite (getitem_nat _ _ _ Hv). cbn [obind].
  rewrite setitem_nat by done. cbn [obind].
  by rewrite fmap_insert, Hv.
Qed.

Lemma count_bump_spec (bwt : str) (i : nat) x row
    (count : gmap ascii (list Z)) :
  (0 < i)%nat → bwt !! (i - 1)%nat = Some x → count !! x = Some row →
  (i < length row)%nat →
  count_bump bwt (Z.of_nat i) count =
    Ret (<[x := <[i := default 0 (row !! i) + 1]> row]> count).
Proof.
  intros Hi Hx Hrow Hlen. unfold count_bump.
  replace (Z.of_nat i - 1) with (Z.of_nat (i - 1)) by lia.
  rewrite (getitem_nat _ _ _ Hx). cbn [obind].
  unfold lookup_key. rewrite Hrow. cbn [obind].
  destruct (lookup_lt_is_Some_2 row i Hlen) as [v Hv].
  rewrite (getitem_nat _ _ _ Hv). cbn [obind].
  rewrite setitem_nat by done. cbn [obind]. by rewrite Hv.
Qed.

Lemma count_chr_take_S (bwt : str) c k x :
  bwt !! k = Some x →
  count_chr c (take (S k) bwt) =
    (count_chr c (take k bwt) + if decide (x = c) then 1 else 0)%nat.
Proof.
  intros Hx. by rewrite (take_S_r _ _ _ Hx), count_chr_snoc.
Qed.

(** One iteration of the loop, [i = k + 1]. *)
Lemma count_step_spec (bwt : str) (k : nat) (count : gmap ascii (list Z)) :
  (k < length bwt)%nat → count_spec bwt k count →
  ∃ count', (count ⇐ count_copy (Z.of_nat (S k)) count ;;
             count_bump bwt (Z.of_nat (S k)) count) = Ret count' ∧
            count_spec bwt (S k) count'.
Proof.
  intros Hk Hcount.
  destruct (lookup_lt_is_Some_2 bwt k Hk) as [x Hx].
  assert (x ∈ bwt) as Hxin by by eapply list_elem_of_lookup_2.
  rewrite count_copy_spec; [|lia|].
  2:{ intros c row Hc. rewrite Hcount in Hc.
      destruct (decide (c ∈ bwt)); [|done]. injection Hc as <-.
      rewrite length_count_row. lia. }
  cbn [obind].
  set (copy := λ row : list Z, <[S k := default 0 (row !! (S k - 1)%nat)]> row).
  erewrite (count_bump_spec bwt (S k) x (copy (count_row bwt x k))).
  - eexists. split; [done|]. intros c.
    assert (∀ c, copy (count_row bwt c k) !! S k
                 = Some (Z.of_nat (count_chr c (take k bwt)))) as Hcopy.
    { intros c'. unfold copy.
      rewrite list_lookup_insert_eq by (rewrite length_count_row; lia).
      rewrite lookup_count_row by lia.
      replace (S k - 1)%nat with k by lia.
      by rewrite decide_True by lia. }
    assert (∀ c v, <[S k := v]> (copy (count_row bwt c k))
                   = <[S k := v]> (count_row bwt c k)) as Hcopy2.
    { intros c' v. unfold copy. by rewrite list_insert_insert_eq. }
    assert (∀ c v, v = Z.of_nat (count_chr c (take (S k) bwt)) →
              <[S k := v]> (count_row bwt c k) = count_row bwt c (S k))
      as Hrow.
    { intros c' v ->. apply list_eq. intros j.
      destruct (decide (j ≤ length bwt)%nat) as [Hj|Hj].
      - rewrite lookup_count_row by done.
        destruct (decide (j = S k)) as [->|Hne].
        + rewrite list_lookup_insert_eq by (rewrite length_count_row; lia).
          by rewrite decide_True by lia.
        + rewrite list_lookup_insert_ne by done.
          rewrite lookup_count_row by done.
          destruct (decide (j ≤ k)%nat), (decide (j ≤ S k)%nat);
            try done; lia.
      - rewrite !lookup_ge_None_2;
          rewrite ?length_insert, ?length_count_row; [done|lia..]. }
    rewrite lookup_insert. destruct (decide (x = c)) as [->|Hne].
    + rewrite decide_True by done. f_equal.
      rewrite Hcopy. cbn [from_option id]. rewrite Hcopy2. apply Hrow.
      rewrite (count_chr_take_S _ _ _ _ Hx), decide_True by done. lia.
    + rewrite lookup_fmap, Hcount.
      destruct (decide (c ∈ bwt)); [|done]. cbn [fmap option_fmap option_map].
      f_equal.
      unfold copy. rewrite lookup_count_row by lia.
      replace (S k - 1)%nat with k by lia.
      rewrite decide_True by lia. cbn [from_option id]. apply Hrow.
      rewrite (count_chr_take_S _ _ _ _ Hx), decide_False by done. lia.
  - lia.
  - by replace (S k - 1)%nat with k by lia.
  - rewrite lookup_fmap, Hcount, decide_True by done. done.
  - unfold copy. rewrite length_insert, length_count_row. lia.
Qed.

Lemma count_loop_spec (bwt : str) (k m : nat) (count : gmap ascii (list Z)) :
  (k + m = length bwt)%nat → count_spec bwt k count →
  ∃ count', count_loop bwt ((λ j, Z.of_nat (S j)) <$> seq k m) count
              = Ret count' ∧
            count_spec bwt (length bwt) count'.
Proof.
  revert k count. induction m as [|m IH]; intros k count Hkm Hcount.
  { exists count. split; [done|]. by replace (length bwt) with k by lia. }
  cbn [seq fmap list_fmap count_loop].
  destruct (count_step_spec bwt k count) as (count1 & Hstep & Hcount1);
    [lia|done|].
  destruct (count_copy (Z.of_nat (S k)) count) as [c1| |]; try done.
  cbn [obind] in *. rewrite Hstep. cbn [obind].
  apply IH; [lia|done].
Qed.

(** The table [count] of [procuraPadraoBWT]: for each character of [bwt],
    its number of occurrences in every prefix of [bwt]. *)
Lemma count_table_spec (bwt : str) :
  ∃ count, count_table bwt = Ret count ∧
           count_spec bwt (length bwt) count.
Proof.
  unfold count_table.
  assert (range 1 (len bwt + 1)
          = (λ j, Z.of_nat (S j)) <$> seq 0 (length bwt)) as ->.
  { unfold range, len.
    replace (Z.to_nat (Z.of_nat (length bwt) + 1 - 1)) with (length bwt)
      by lia.
    apply list_fmap_ext. intros _ j _. lia. }
  apply count_loop_spec; [done|apply count_init_spec].
Qed.

(** ** The first-occurrence table *)

Lemma first_occurrence_loop_spec (l : str) (i : Z) (fo : gmap ascii Z) c :
  first_occurrence_loop l i fo !! c =
    match fo !! c with
    | Some v => Some v
    | None => (λ p, i + Z.of_nat p.1) <$> list_find (λ x, x = c) l
    end.
Proof.
  revert i fo. induction l as [|x l IH]; intros i fo; cbn [first_occurrence_loop].
  { by destruct (fo !! c). }
  rewrite IH. cbn [list_find].
  destruct (fo !! x) as [v|] eqn:Hx.
  - destruct (fo !! c) as [w|] eqn:Hc; [done|].
    rewrite decide_False by congruence.
    destruct (list_find _ l) as [[j y]|]; [|done]. simpl. f_equal. lia.
  - rewrite lookup_insert. destruct (decide (x = c)) as [->|Hne].
    + rewrite Hx. simpl. f_equal. lia.
    + destruct (fo !! c) as [w|]; [done|].
      destruct (list_find _ l) as [[j y]|]; [|done]. simpl. f_equal. lia.
Qed.

(** [first_occurrence[c]] is the first index of [c] in the sorted
    transform. *)
Lemma first_occurrence_table_spec (l : str) c :
  first_occurrence_table l !! c =
    (λ p, Z.of_nat p.1) <$> list_find (λ x, x = c) l.
Proof.
  unfold first_occurrence_table. rewrite first_occurrence_loop_spec.
  rewrite lookup_empty. by destruct (list_find _ l) as [[j y]|].
Qed.

Lemma StronglySorted_lookup {A} (R : relation A) (l : list A) i j x y :
  StronglySorted R l → (i < j)%nat →
  l !! i = Some x → l !! j = Some y → R x y.
Proof.
  intros Hl. revert i j. induction Hl as [|z l Hl IH Hz]; intros i j Hij Hi Hj;
    [done|].
  destruct j as [|j]; [lia|]. simpl in Hj. destruct i as [|i]; simpl in Hi.
  - injection Hi as ->. apply (proj1 (Forall_forall _ _) Hz).
    by eapply list_elem_of_lookup_2.
  - apply (IH i j); [lia|done..].
Qed.

Lemma count_chr_all c (l : str) :
  Forall (λ x, x = c) l → count_chr c l = length l.
Proof.
  unfold count_chr. induction 1 as [|x l Hx _ IH]; [done|].
  rewrite filter_cons, decide_True by done. simpl. by rewrite IH.
Qed.

Lemma count_chr_none c (l : str) :
  Forall (λ x, x ≠ c) l → count_chr c l = 0%nat.
Proof.
  unfold count_chr. induction 1 as [|x l Hx _ IH]; [done|].
  by rewrite filter_cons, decide_False.
Qed.

Lemma count_chr_app c (l k : str) :
  count_chr c (l ++ k) = (count_chr c l + count_chr c k)%nat.
Proof. unfold count_chr. by rewrite filter_app, length_app. Qed.

(** In an ascending column, a character sits at its first occurrence plus
    its rank. *)
Lemma sorted_position (col : str) j c :
  StronglySorted chr_le col → col !! j = Some c →
  ∃ i0, first_occurrence_table col !! c = Some (Z.of_nat i0) ∧
        j = (i0 + count_chr c (take j col))%nat.
Proof.
  intros Hsorted Hj.
  destruct (list_find_elem_of (λ x, x = c) col c) as [[i0 y] Hfind];
    [by eapply list_elem_of_lookup_2|done|].
  exists i0. rewrite first_occurrence_table_spec, Hfind. split; [done|].
  apply list_find_Some in Hfind as (Hi0 & -> & Hmin).
  assert (i0 ≤ j)%nat as Hle.
  { destruct (decide (i0 ≤ j)%nat) as [|Hgt]; [done|].
    exfalso. apply (Hmin j c Hj); [lia|done]. }
  rewrite <- (take_drop i0 (take j col)), count_chr_app.
  rewrite take_take, Nat.min_l by lia.
  rewrite count_chr_none, count_chr_all.
  - rewrite length_drop, length_take.
    apply lookup_lt_Some in Hj. lia.
  - apply Forall_forall. intros x Hx.
    apply list_elem_of_lookup in Hx as [k Hk].
    rewrite lookup_drop in Hk.
    apply lookup_take_Some in Hk as [Hk Hlt].
    destruct (decide (k = 0)%nat) as [->|Hk0].
    { rewrite Nat.add_0_r in Hk. congruence. }
    apply chr_leb_antisym.
    + apply (StronglySorted_lookup chr_le col (i0 + k) j x c); [done|lia|done..].
    + apply (StronglySorted_lookup chr_le col i0 (i0 + k) c x); [done|lia|done..].
  - apply Forall_forall. intros x Hx.
    apply list_elem_of_lookup in Hx as [k Hk].
    apply lookup_take_Some in Hk as [Hk Hlt].
    by apply (Hmin k x).
Qed.

(** ** Backward search: one narrowing step *)

Lemma prefix_rotl (a : ascii) (q r : str) :
  a :: q `prefix_of` r → q `prefix_of` rotl r.
Proof.
  intros [w ->]. simpl. rewrite rotl_cons. exists (w ++ [a]).
  by rewrite <- app_assoc.
Qed.

Lemma prefix_rotr (q r : str) :
  q `prefix_of` r → (length q < length r)%nat →
  last_chr r :: q `prefix_of` rotr r.
Proof.
  intros [w ->] Hlen. destruct (decide (w = [])) as [->|Hne].
  { rewrite app_nil_r in Hlen. lia. }
  destruct (exists_last Hne) as (w' & x & ->).
  rewrite app_assoc, last_chr_snoc, rotr_snoc. by exists w'.
Qed.

Section narrowing.
Context (M : list str) (n : nat).
Hypothesis M_sorted : StronglySorted str_le M.
Hypothesis M_NoDup : NoDup M.
Hypothesis M_length : ∀ r, r ∈ M → length r = n.
Hypothesis n_pos : (0 < n)%nat.
Hypothesis M_rotl : ∀ r, r ∈ M → rotl r ∈ M.
Hypothesis M_rotr : ∀ r, r ∈ M → rotr r ∈ M.
Hypothesis M_rows : length M = n.

Local Abbreviation F := (first_col M).
Local Abbreviation L := (last_col M).

(** The row one step right of row [i] is at the first occurrence of its
    first character plus the rank of that character at [i] in the last
    column: the LF mapping. *)
Lemma LF_map i r c i0 :
  M !! i = Some r → last_chr r = c →
  first_occurrence_table F !! c = Some (Z.of_nat i0) →
  M !! (i0 + count_chr c (take i L))%nat = Some (rotr r).
Proof.
  intros Hi Hc Hfo.
  assert (r ∈ M) as Hr by by eapply list_elem_of_lookup_2.
  destruct (proj1 (list_elem_of_lookup _ _) (M_rotr r Hr)) as [j Hj].
  assert (F !! j = Some c) as HFj.
  { rewrite (lookup_first_col M j _ Hj). f_equal. rewrite <- Hc.
    apply first_chr_rotr. by apply (M_nonempty M n). }
  destruct (sorted_position F j c) as (i0' & Hfo' & Hpos);
    [by apply (first_col_sorted M n)|done|].
  rewrite Hfo in Hfo'. injection Hfo' as Heq. apply Nat2Z.inj in Heq.
  subst i0'. subst c.
  rewrite (LF_rank M n M_sorted M_NoDup M_length n_pos M_rotl M_rotr
             i j r Hi Hj).
  by rewrite <- Hpos.
Qed.

Lemma narrow q a b c i0 :
  rows_from M q a b → (b ≤ n)%nat → (length q < n)%nat →
  first_occurrence_table F !! c = Some (Z.of_nat i0) →
  rows_from M (c :: q) (i0 + count_chr c (take a L))
                     (i0 + count_chr c (take b L)).
Proof.
  intros Hrows Hb Hq Hfo j r Hj. split.
  - intros Hpre.
    assert (r ∈ M) as Hr by by eapply list_elem_of_lookup_2.
    destruct (proj1 (list_elem_of_lookup _ _) (M_rotl r Hr)) as [i Hi].
    assert (a ≤ i < b)%nat as Hrange.
    { apply (Hrows i (rotl r) Hi). by apply (prefix_rotl c). }
    assert (last_chr (rotl r) = c) as Hc.
    { rewrite last_chr_rotl. destruct Hpre as [w ->]. done. }
    pose proof (LF_map i (rotl r) c i0 Hi Hc Hfo) as Hj'.
    rewrite rotr_rotl in Hj'.
    assert (j = (i0 + count_chr c (take i L))%nat) as ->
      by by eapply NoDup_lookup.
    assert (L !! i = Some c) as HLi.
    { rewrite (lookup_last_col M i _ Hi). by rewrite Hc. }
    pose proof (filter_length_take_le (λ x, x = c) L a i
                  ltac:(lia)) as Hlo.
    pose proof (count_chr_take_lt L i b c ltac:(lia) HLi) as Hhi.
    unfold count_chr in *. lia.
  - intros Hrange.
    set (rk := (j - i0)%nat).
    assert (rk < count_chr c L)%nat as Hrk.
    { pose proof (count_chr_take_le c L b). unfold rk. lia. }
    destruct (filter_rank_exists (λ x, x = c) L rk Hrk)
      as (i & x & HLi & -> & Hrank).
    fold (count_chr c (take i L)) in Hrank.
    assert (a ≤ i < b)%nat as Hi.
    { split.
      - destruct (decide (a ≤ i)%nat) as [|Hlt]; [done|].
        pose proof (count_chr_take_lt L i a c ltac:(lia) HLi).
        unfold rk in *. lia.
      - destruct (decide (i < b)%nat) as [|Hge]; [done|].
        pose proof (filter_length_take_le (λ y, y = c) L b i ltac:(lia)).
        unfold count_chr, rk in *. lia. }
    destruct (lookup_lt_is_Some_2 M i) as [r' Hr'].
    { apply lookup_lt_Some in HLi. by rewrite length_last_col in HLi. }
    assert (last_chr r' = c) as Hc.
    { rewrite (lookup_last_col M i _ Hr') in HLi. congruence. }
    pose proof (LF_map i r' c i0 Hr' Hc Hfo) as Hj'.
    rewrite Hrank in Hj'. replace (i0 + rk)%nat with j in Hj'
      by (unfold rk; lia).
    assert (r = rotr r') as -> by congruence.
    rewrite <- Hc. apply prefix_rotr.
    + by apply (Hrows i r' Hr').
    + rewrite (M_length r'); [done|]. by eapply list_elem_of_lookup_2.
Qed.

(** A narrowing step that leaves a nonempty range stays in the matrix. *)
Lemma narrow_bound q a b c i0 :
  rows_from M q a b → (b ≤ n)%nat →
  first_occurrence_table F !! c = Some (Z.of_nat i0) →
  (count_chr c (take a L) < count_chr c (take b L))%nat →
  (i0 + count_chr c (take b L) ≤ n)%nat.
Proof.
  intros Hrows Hb Hfo Hlt.
  set (rk := (count_chr c (take b L) - 1)%nat).
  assert (rk < count_chr c L)%nat as Hrk.
  { pose proof (count_chr_take_le c L b). unfold rk. lia. }
  destruct (filter_rank_exists (λ x, x = c) L rk Hrk)
    as (i & x & HLi & -> & Hrank).
  fold (count_chr c (take i L)) in Hrank.
  destruct (lookup_lt_is_Some_2 M i) as [r' Hr'].
  { apply lookup_lt_Some in HLi. by rewrite length_last_col in HLi. }
  assert (last_chr r' = c) as Hc.
  { rewrite (lookup_last_col M i _ Hr') in HLi. congruence. }
  pose proof (LF_map i r' c i0 Hr' Hc Hfo) as Hj'.
  apply lookup_lt_Some in Hj'. rewrite Hrank in Hj'. unfold rk in *. lia.
Qed.

(** Rows that start with a pattern witness rows that start with each of
    its suffixes. *)
Lemma prefix_suffix_row (p q r : str) :
  r ∈ M → p ++ q `prefix_of` r → ∃ r', r' ∈ M ∧ q `prefix_of` r'.
Proof.
  revert r. induction p as [|x p IH]; intros r Hr Hpre.
  - by exists r.
  - apply (IH (rotl r)); [by apply M_rotl|].
    by apply (prefix_rotl x).
Qed.
End narrowing.

(** ** Backward search: the loop *)

Lemma comprehension_getitem {A} (l : list A) (m a : nat) :
  (a + m ≤ length l)%nat →
  comprehension (getitem l)
    ((λ k, Z.of_nat a + Z.of_nat k) <$> seq 0 m)
  = Ret (take m (drop a l)).
Proof.
  revert a. induction m as [|m IH]; intros a Ha; [done|].
  cbn [seq fmap list_fmap comprehension].
  destruct (lookup_lt_is_Some_2 l a) as [x Hx]; [lia|].
  replace (Z.of_nat a + Z.of_nat 0) with (Z.of_nat a) by lia.
  rewrite (getitem_nat _ _ _ Hx). cbn [obind].
  rewrite <- fmap_S_seq, <- list_fmap_compose.
  rewrite (list_fmap_ext _ (λ k, Z.of_nat (S a) + Z.of_nat k) (seq 0 m));
    [|intros; simpl; lia].
  rewrite IH by lia. cbn [obind].
  by rewrite (drop_S _ _ _ Hx).
Qed.

Lemma elem_of_take_drop {A} (l : list A) (a b : nat) x :
  x ∈ take (b - a) (drop a l) ↔ ∃ i, (a ≤ i < b)%nat ∧ l !! i = Some x.
Proof.
  rewrite elem_of_take. split.
  - intros (i & Hi & Hlt). rewrite lookup_drop in Hi.
    exists (a + i)%nat. split; [lia|done].
  - intros (i & Hi & Hx). exists (i - a)%nat.
    rewrite lookup_drop. replace (a + (i - a))%nat with i by lia.
    split; [done|lia].
Qed.

Section fm.
Context (s : ascii) (body : str) (Hs : sentinel_ok s body).

Local Abbreviation sq := (body ++ [s]).
Local Abbreviation n := (length (body ++ [s])).
Local Abbreviation M := (matrix (body ++ [s])).
Local Abbreviation F := (first_col (matrix (body ++ [s]))).
Local Abbreviation L := (last_col (matrix (body ++ [s]))).

Context (count : gmap ascii (list Z)).
Hypothesis Hcount : count_spec L n count.

Local Abbreviation fo := (first_occurrence_table F).
Local Abbreviation sa := (SA_list (Z.of_nat <$> sa_nat (body ++ [s]))).

Lemma lookup_matrix_rot i k :
  sa_nat sq !! i = Some k → M !! i = Some (rot k sq).
Proof.
  intros Hk. rewrite (matrix_sa s body Hs), list_lookup_fmap. by rewrite Hk.
Qed.

Lemma length_L : length L = n.
Proof. by rewrite length_last_col, length_matrix. Qed.

Lemma elem_of_L c : c ∈ L ↔ c ∈ sq.
Proof. by rewrite last_col_Permutation. Qed.

Lemma elem_of_F c : c ∈ F ↔ c ∈ sq.
Proof. by rewrite first_col_Permutation. Qed.

Lemma fo_lookup c : c ∈ sq → ∃ i0 : nat, fo !! c = Some (Z.of_nat i0).
Proof.
  intros Hc. apply elem_of_F in Hc.
  destruct (list_find_elem_of (λ x, x = c) F c Hc eq_refl) as [[i0 y] Hf].
  exists i0. by rewrite first_occurrence_table_spec, Hf.
Qed.

Lemma count_lookup c (j : nat) :
  c ∈ sq → (j ≤ n)%nat →
  ∃ row, count !! c = Some row ∧
         getitem row (Z.of_nat j) = Ret (Z.of_nat (count_chr c (take j L))).
Proof.
  intros Hc Hj. exists (count_row L c n).
  rewrite Hcount, decide_True by by apply elem_of_L.
  split; [done|]. apply getitem_nat.
  rewrite lookup_count_row by (rewrite length_L; lia).
  by rewrite decide_True.
Qed.

Lemma starts_range q a b :
  rows_from M q a b → (b ≤ n)%nat →
  starts s body q (Z.of_nat <$> take (b - a) (drop a (sa_nat sq))).
Proof.
  intros Hrows Hb. split.
  - apply NoDup_fmap_2; [apply Nat2Z.inj'|].
    eapply sublist_NoDup; [apply NoDup_sa_nat|].
    etrans; [apply sublist_take|apply sublist_drop].
  - intros x. rewrite list_elem_of_fmap. split.
    + intros (k & -> & Hk). apply elem_of_take_drop in Hk as (i & Hi & Hk).
      exists k. split; [|split; [done|]].
      * apply elem_of_sa_nat. by eapply list_elem_of_lookup_2.
      * apply (Hrows i); [by apply lookup_matrix_rot|done].
    + intros (k & Hk & -> & Hpre). exists k. split; [done|].
      apply elem_of_take_drop.
      assert (rot k sq ∈ M) as Hin.
      { apply elem_of_matrix, elem_of_rotations. by exists k. }
      apply list_elem_of_lookup in Hin as [i Hi].
      exists i. split; [by apply (Hrows i (rot k sq))|].
      destruct (lookup_lt_is_Some_2 (sa_nat sq) i) as [k' Hk'].
      { apply lookup_lt_Some in Hi.
        by rewrite length_matrix, <- length_sa_nat in Hi. }
      pose proof (lookup_matrix_rot i k' Hk') as Hi'.
      rewrite Hi in Hi'. injection Hi' as Heq.
      apply (rot_inj s body Hs) in Heq; [by subst| done|].
      apply elem_of_sa_nat. by eapply list_elem_of_lookup_2.
Qed.

Lemma fm_loop_spec fuel (p q : str) (a b : nat) :
  rows_from M q a b → (a < b ≤ n)%nat →
  (length p < fuel)%nat → (length (p ++ q) ≤ n)%nat →
  (∀ c, c ∈ p → c ∈ sq) →
  ∃ l, fm_loop fuel count fo sa (Z.of_nat a) (Z.of_nat b - 1) p
         = Ret (sorted Z.leb l) ∧
       starts s body (p ++ q) l.
Proof.
  revert p q a b.
  induction fuel as [|fuel IH]; intros p q a b Hrows Hab Hfuel Hlen Hp;
    [lia|].
  cbn [fm_loop].
  assert ((Z.of_nat a <=? Z.of_nat b - 1) = true) as ->
    by (apply Z.leb_le; lia).
  destruct (decide (p = [])) as [->|Hne].
  - cbn [negb len length Z.eqb Z.of_nat].
    unfold range.
    replace (Z.to_nat (Z.of_nat b - 1 + 1 - Z.of_nat a)) with (b - a)%nat
      by lia.
    change (sa_getitem (SA_list ?l)) with (getitem l).
    rewrite comprehension_getitem
      by (rewrite length_fmap, length_sa_nat; lia).
    cbn [obind]. eexists. split; [done|].
    rewrite <- fmap_drop, <- fmap_take. apply starts_range; [done|lia].
  - destruct (exists_last Hne) as (p' & c & ->).
    assert ((len (p' ++ [c]) =? 0) = false) as ->.
    { apply Z.eqb_neq. rewrite len_app. unfold len. simpl. lia. }
    cbn [negb]. rewrite getitem_last. cbn [obind].
    rewrite slice_init_neg, take_init_snoc.
    assert (c ∈ sq) as Hc by (apply Hp, elem_of_app; right; by left).
    rewrite length_app in Hfuel. simpl in Hfuel.
    assert (length p' + 1 + length q ≤ n)%nat as Hlen'.
    { rewrite (length_app (p' ++ [c])), (length_app p') in Hlen.
      exact Hlen. }
    assert (length q < n)%nat as Hq by lia.
    destruct (count_lookup c b Hc ltac:(lia)) as (row & Hrow & Hhi).
    destruct (count_lookup c a Hc ltac:(lia)) as (row' & Hrow' & Hlo).
    rewrite Hrow in Hrow'. injection Hrow' as <-.
    destruct (fo_lookup c Hc) as [i0 Hfo].
    unfold lookup_key. rewrite Hrow. cbn [obind].
    replace (Z.of_nat b - 1 + 1) with (Z.of_nat b) by lia.
    rewrite Hhi, Hlo. cbn [obind].
    pose proof (narrow M n (matrix_sorted sq) (matrix_NoDup s body Hs)
                  (matrix_length sq) (length_sq_pos s body) (matrix_rotl sq)
                  (matrix_rotr sq) (length_matrix sq) q a b c i0 Hrows
                  ltac:(lia) Hq Hfo) as Hnarrow.
    destruct (Z.gtb_spec (Z.of_nat (count_chr c (take b L)))
                (Z.of_nat (count_chr c (take a L)))) as [Hgt|Hle].
    + rewrite Hfo. cbn [obind].
      pose proof (narrow_bound M n (matrix_sorted sq)
                    (matrix_NoDup s body Hs) (matrix_length sq)
                    (length_sq_pos s body) (matrix_rotl sq) (matrix_rotr sq)
                    (length_matrix sq) q a b c i0 Hrows ltac:(lia) Hfo
                    ltac:(lia)) as Hbound.
      destruct (IH p' (c :: q) (i0 + count_chr c (take a L))%nat
                  (i0 + count_chr c (take b L))%nat)
        as (l & Hrun & Hl); [done| | |..].
      { apply Nat2Z.inj_lt in Hgt. split; [|exact Hbound].
        apply Nat.add_lt_mono_l. exact Hgt. }
      { lia. }
      { rewrite (length_app p'). cbn [length]. lia. }
      { intros d Hd. apply Hp, elem_of_app. by left. }
      exists l. rewrite <- app_assoc. split; [|done].
      rewrite <- Hrun. f_equal; lia.
    + exists []. split; [done|]. split; [constructor|].
      intros x. split; [by intros ?%elem_of_nil|].
      intros (k & Hk & -> & Hpre). exfalso.
      rewrite <- app_assoc in Hpre.
      destruct (prefix_suffix_row M (matrix_rotl sq) p' (c :: q)
                  (rot k sq)) as (r' & Hr' & Hpre'); [|done|].
      { apply elem_of_matrix, elem_of_rotations. by exists k. }
      apply list_elem_of_lookup in Hr' as [j Hj].
      apply (Hnarrow j r' Hj) in Hpre'. lia.
Qed.
End fm.

(** ** [procuraPadraoBWT] against a scan of the sequence *)

Lemma slice_nat {A} (l : list A) (a m : nat) :
  (a ≤ length l)%nat →
  slice l (Z.of_nat a) (Z.of_nat a + Z.of_nat m) = take m (drop a l).
Proof.
  intros Ha. unfold slice, slice_bound, len.
  assert ((Z.of_nat a <? 0) = false) as -> by (apply Z.ltb_ge; lia).
  assert ((Z.of_nat a + Z.of_nat m <? 0) = false) as ->
    by (apply Z.ltb_ge; lia).
  rewrite (Z.min_l (Z.of_nat a)) by lia. rewrite Nat2Z.id.
  destruct (Z.le_gt_cases (Z.of_nat a + Z.of_nat m) (Z.of_nat (length l))).
  - rewrite Z.min_l by lia. f_equal. lia.
  - rewrite Z.min_r by lia.
    rewrite !take_ge; [done|rewrite length_drop; lia..].
Qed.

Lemma StronglySorted_range lo hi : StronglySorted (le_of Z.leb) (range lo hi).
Proof.
  unfold range. generalize (Z.to_nat (hi - lo)). intros m.
  apply (StronglySorted_fmap_strong _ (λ i j, i ≤ j)%nat).
  - intros x y _ _ Hxy. unfold le_of. apply Z.leb_le. lia.
  - apply Sorted.Sorted_StronglySorted; [intros ???; lia|].
    generalize 0%nat. induction m as [|m IH]; intros k; simpl;
      [constructor|].
    constructor; [apply IH|]. destruct m; constructor. lia.
Qed.

Lemma StronglySorted_range_filter (P : Z → Prop) `{∀ x, Decision (P x)} lo hi :
  StronglySorted (le_of Z.leb) (filter P (range lo hi)).
Proof. apply StronglySorted_filter, StronglySorted_range. Qed.

Lemma Z_leb_total x y : Z.leb x y = false → Z.leb y x = true.
Proof. rewrite Z.leb_gt, Z.leb_le. lia. Qed.

Lemma Z_leb_trans x y z : Z.leb x y = true → Z.leb y z = true → Z.leb x z = true.
Proof. rewrite !Z.leb_le. lia. Qed.

Lemma Z_leb_antisym x y : Z.leb x y = true → Z.leb y x = true → x = y.
Proof. rewrite !Z.leb_le. lia. Qed.

Lemma elem_of_range lo hi x : x ∈ range lo hi ↔ lo ≤ x < hi.
Proof.
  unfold range. rewrite list_elem_of_fmap. split.
  - intros (k & -> & Hk). apply elem_of_seq in Hk. lia.
  - intros Hx. exists (Z.to_nat (x - lo)). split; [lia|].
    apply elem_of_seq. lia.
Qed.

Lemma NoDup_range lo hi : NoDup (range lo hi).
Proof.
  unfold range. apply NoDup_fmap_2; [|apply NoDup_seq].
  intros x y Hxy. lia.
Qed.

Section search.
Context (s : ascii) (body : str) (Hs : sentinel_ok s body).

Local Abbreviation sq := (body ++ [s]).
Local Abbreviation n := (length (body ++ [s])).
Local Abbreviation M := (matrix (body ++ [s])).

(** A pattern that keeps the sentinel to its last place starts a rotation
    exactly where it occurs in the sequence. *)
Lemma prefix_rot_occurrence (p : str) k :
  (k < n)%nat → s ∉ take (length p - 1) p →
  p `prefix_of` rot k sq ↔ take (length p) (drop k sq) = p.
Proof.
  intros Hk Hp. split.
  - intros [w Hw].
    rewrite (rot_sentinel s body) in Hw by done.
    rewrite (drop_sentinel s body) by done.
    destruct (decide (length p ≤ length (drop k body) + 1)%nat)
      as [Hle|Hgt].
    + apply (f_equal (take (length p))) in Hw.
      rewrite take_app_length in Hw. rewrite <- Hw at 2.
      rewrite (cons_middle s (drop k body) (take k sq)), app_assoc.
      by rewrite (take_app_le (drop k body ++ [s]))
        by (rewrite length_app; simpl; lia).
    + exfalso. apply Hp. apply elem_of_take.
      exists (length (drop k body)). split; [|lia].
      apply (f_equal (λ l, l !! length (drop k body))) in Hw.
      rewrite list_lookup_middle in Hw by done.
      by rewrite lookup_app_l in Hw by lia.
  - intros <-. unfold rot. apply prefix_app_r, prefix_take.
Qed.

Lemma starts_brute_force (p : str) (l : list Z) :
  s ∉ take (length p - 1) p → starts s body p l →
  sorted Z.leb l = brute_force sq p.
Proof.
  intros Hp [Hnd Hl].
  apply sorted_unique.
  - apply Z_leb_total.
  - apply Z_leb_trans.
  - intros x y _ _. apply Z_leb_antisym.
  - apply NoDup_Permutation; [by apply NoDup_filter, NoDup_range|done|].
    intros x. unfold brute_force.
    rewrite list_elem_of_filter, elem_of_range, Hl. unfold len. split.
    + intros [Hx Hr]. exists (Z.to_nat x).
      split; [lia|]. split; [lia|].
      apply prefix_rot_occurrence; [lia|done|].
      rewrite <- (slice_nat sq (Z.to_nat x) (length p)) by lia.
      by rewrite Z2Nat.id by lia.
    + intros (k & Hk & -> & Hpre). split; [|lia].
      apply prefix_rot_occurrence in Hpre; [|done..].
      by rewrite slice_nat by lia.
  - apply StronglySorted_range_filter.
Qed.

Lemma rows_from_all : rows_from M [] 0 n.
Proof.
  intros i r Hi. split.
  - intros _. apply lookup_lt_Some in Hi. rewrite length_matrix in Hi. lia.
  - intros _. apply prefix_nil.
Qed.

(** [procuraPadraoBWT] on an instance for the sequence whose attribute
    holds the suffix array of the sequence. *)
Lemma procuraPadraoBWT_starts (self : BWT) (p : str) :
  seqOriginal self = sq →
  attr_suffix_array self = SA_list (Z.of_nat <$> sa_nat sq) →
  (length p ≤ n)%nat → (∀ c, c ∈ p → c ∈ sq) →
  ∃ l, procuraPadraoBWT p self = Ret (sorted Z.leb l) ∧ starts s body p l.
Proof.
  intros Hseq Hattr Hlen Hp. unfold procuraPadraoBWT.
  rewrite Hseq, Hattr.
  pose proof (transform_spec sq) as Ht. unfold transform in Ht.
  destruct (criarMatriz sq) as [m| |]; try done. cbn [obind] in *.
  rewrite Ht. cbn [obind].
  destruct (count_table_spec (bwt_of sq)) as (count & -> & Hcount).
  cbn [obind]. rewrite (sorted_bwt_first_col s body).
  rewrite bwt_of_last_col in *.
  assert (length (last_col M) = n) as HL
    by by rewrite length_last_col, length_matrix.
  rewrite HL in Hcount.
  destruct (fm_loop_spec s body Hs count Hcount (S (length p)) p [] 0 n)
    as (l & Hrun & Hl).
  - apply rows_from_all.
  - pose proof (length_sq_pos s body). lia.
  - lia.
  - by rewrite app_nil_r.
  - done.
  - exists l. rewrite app_nil_r in Hl. split; [|done].
    rewrite <- Hrun. f_equal. unfold len. rewrite HL. lia.
Qed.
End search.

(** ** The attribute [suffix_array] and the search *)

Lemma getitem_cases {A} (l : list A) i :
  (∃ x, getitem l i = Ret x) ∨ getitem l i = Raise IndexError.
Proof.
  unfold getitem. destruct (_ <? 0); [by right|].
  destruct (l !! _); [left; by eexists|by right].
Qed.

Lemma comprehension_getitem_cases {A} (l : list A) (xs : list Z) :
  (∃ ys, comprehension (getitem l) xs = Ret ys ∧ length ys = length xs) ∨
  comprehension (getitem l) xs = Raise IndexError.
Proof.
  induction xs as [|x xs IH]; [left; by exists []|].
  cbn [comprehension].
  destruct (getitem_cases l x) as [[y ->]| ->]; [|by right]. cbn [obind].
  destruct IH as [(ys & -> & Hlen)| ->]; [|by right]. cbn [obind].
  left. exists (y :: ys). split; [done|]. simpl. by rewrite Hlen.
Qed.

Lemma range_cons lo hi :
  lo < hi → range lo hi = lo :: range (lo + 1) hi.
Proof.
  intros Hlt. unfold range.
  replace (Z.to_nat (hi - lo)) with (S (Z.to_nat (hi - (lo + 1)))) by lia.
  cbn [seq fmap list_fmap]. f_equal; [lia|].
  rewrite <- fmap_S_seq, <- list_fmap_compose.
  apply list_fmap_ext. intros _ k _. simpl. lia.
Qed.

(** The loop on a fresh instance and on one whose attribute holds a list:
    either line 320 is reached, where the fresh instance raises [TypeError],
    or the two runs agree and do not return any offset. *)
Lemma fm_loop_attr fuel count fo sa top bottom p :
  (fm_loop fuel count fo SA_method top bottom p = Raise TypeError ∧
   ((∃ x l, fm_loop fuel count fo (SA_list sa) top bottom p = Ret (x :: l)) ∨
    fm_loop fuel count fo (SA_list sa) top bottom p = Raise IndexError)) ∨
  (fm_loop fuel count fo SA_method top bottom p
     = fm_loop fuel count fo (SA_list sa) top bottom p ∧
   ∀ x l, fm_loop fuel count fo SA_method top bottom p ≠ Ret (x :: l)).
Proof.
  revert top bottom p. induction fuel as [|fuel IH]; intros top bottom p.
  { right. by split. }
  cbn [fm_loop].
  destruct (Z.leb_spec top bottom) as [Hle|_]; [|right; by split].
  destruct (negb (len p =? 0)).
  - destruct (getitem p (-1)) as [symbol| |]; cbn [obind];
      [|right; by split..].
    destruct (lookup_key count symbol) as [row| |]; cbn [obind];
      [|right; by split..].
    destruct (getitem row (bottom + 1)) as [hi| |]; cbn [obind];
      [|right; by split..].
    destruct (getitem row top) as [lo| |]; cbn [obind];
      [|right; by split..].
    destruct (hi >? lo); [|right; by split].
    destruct (lookup_key fo symbol) as [i0| |]; cbn [obind];
      [|right; by split..].
    apply IH.
  - left. split.
    { rewrite (range_cons top (bottom + 1)) by lia. done. }
    change (sa_getitem (SA_list sa)) with (getitem sa).
    destruct (comprehension_getitem_cases sa (range top (bottom + 1)))
      as [(ys & -> & Hlen)| ->]; cbn [obind]; [|by right].
    left. rewrite length_range in Hlen.
    pose proof (length_sorted Z.leb ys) as Hs.
    destruct (sorted Z.leb ys) as [|x l]; [simpl in Hs; lia|].
    by exists x, l.
Qed.

(** The same for [procuraPadraoBWT], which reads the attribute only at line
    320. *)
Lemma procuraPadraoBWT_attr (self : BWT) sa p :
  attr_suffix_array self = SA_method →
  (procuraPadraoBWT p self = Raise TypeError ∧
   ((∃ x l, procuraPadraoBWT p (set_suffix_array sa self) = Ret (x :: l)) ∨
    procuraPadraoBWT p (set_suffix_array sa self) = Raise IndexError)) ∨
  (procuraPadraoBWT p self = procuraPadraoBWT p (set_suffix_array sa self) ∧
   ∀ x l, procuraPadraoBWT p self ≠ Ret (x :: l)).
Proof.
  intros Hattr. unfold procuraPadraoBWT.
  cbn [seqOriginal attr_suffix_array set_suffix_array]. rewrite Hattr.
  destruct (criarMatriz (seqOriginal self)) as [m| |]; cbn [obind];
    [|right; by split..].
  destruct (construirBWT (ordenarMatriz m)) as [bwt| |]; cbn [obind];
    [|right; by split..].
  destruct (count_table bwt) as [count| |]; cbn [obind];
    [|right; by split..].
  apply fm_loop_attr.
Qed.

(** ** The reconstruction on an arbitrary string *)

Lemma elem_of_tags (col : str) t :
  t ∈ tags col ↔ ∃ c k, t = tag c k ∧ (k < count_chr c col)%nat.
Proof.
  split.
  - intros Ht. apply list_elem_of_lookup in Ht as [j Hj].
    apply lookup_tags_inv in Hj as (c & Hc & ->).
    exists c, (count_chr c (take j col)). split; [done|].
    pose proof (count_chr_take_lt col j (S j) c (Nat.lt_succ_diag_r _) Hc).
    pose proof (count_chr_take_le c col (S j)). lia.
  - intros (c & k & -> & Hk).
    destruct (filter_rank_exists (λ x, x = c) col k Hk)
      as (i & x & Hi & -> & Hrank).
    apply list_elem_of_lookup. exists i.
    rewrite (lookup_tags _ _ _ Hi). unfold count_chr. by rewrite Hrank.
Qed.

Lemma elem_of_tags_Permutation (col col' : str) t :
  col ≡ₚ col' → t ∈ tags col ↔ t ∈ tags col'.
Proof.
  intros Hp. rewrite !elem_of_tags.
  split; intros (c & k & -> & Hk); exists c, k; split; try done.
  - by rewrite <- (count_chr_Permutation c col col').
  - by rewrite (count_chr_Permutation c col col').
Qed.

Lemma length_tags col : length (tags col) = length col.
Proof. apply length_tags_from. Qed.

(** The steps of the driver before the walk: both columns are tagged, and
    the instance is left with the dictionary of the string. *)
Lemma invert_unfold fuel letra (bwt : str) (self : BWT) :
  invert fuel letra bwt self =
    (self' ⇐ obterSequenciaOriginal fuel letra (len bwt)
               (tags (sorted chr_leb bwt)) (tags bwt)
               (criarDicionarioOcorrencias bwt self) ;;
     sq ⇐ SequenciaOriginalEmString self' ;;
     Ret (sq, self')).
Proof.
  unfold invert.
  destruct (dict_fresh_spec bwt) as (Hnd & Hr & Hk).
  set (self1 := criarDicionarioOcorrencias bwt self).
  assert (dicionarioOcorrencias self1 = Some (dict_fresh bwt)) as Hd1 by done.
  unfold criarPrimeiraColuna. fold (chars (sorted chr_leb bwt)).
  rewrite (preencherLista_tags self1 _ (sorted chr_leb bwt) [] Hnd Hd1 Hr).
  2:{ intros c Hc. apply Hk. by rewrite elem_of_sorted in Hc. }
  cbn [obind fst snd app]. rewrite criarUltimaColuna_chars.
  rewrite (preencherLista_tags self1 _ bwt [] Hnd Hd1 Hr).
  2:{ intros c Hc. by apply Hk. }
  cbn [obind fst snd app]. unfold len. by rewrite length_tags.
Qed.

(** A pass that meets no tag equal to [letra] changes nothing. *)
Lemma obter_percorrer_no_match n Fc itens indice letra (self : BWT) :
  letra ∉ itens → len (listaSequenciaOriginal self) ≠ n →
  obter_percorrer n Fc itens indice letra self = Ret (Some letra, self).
Proof.
  revert indice. induction itens as [|item itens IH]; intros indice Hin Hlen;
    [done|].
  cbn [obter_percorrer]. rewrite decide_False.
  2:{ intros ->. apply Hin. by left. }
  cbn [obind fst snd].
  destruct (Z.eqb_spec (len (listaSequenciaOriginal self)) n); [done|].
  apply IH; [|done]. intros ?. apply Hin. by right.
Qed.

(** Without the tag in the last column the recursion never returns. *)
Lemma obterSequenciaOriginal_no_match fuel n Fc Lc letra (self : BWT) :
  letra ∉ Lc → (Lc = [] ∨ len (listaSequenciaOriginal self) ≠ n) →
  obterSequenciaOriginal fuel letra n Fc Lc self = NoFuel.
Proof.
  intros Hin Hlen. induction fuel as [|fuel IH]; [done|].
  cbn [obterSequenciaOriginal].
  assert (obter_percorrer n Fc Lc (-1) letra self = Ret (Some letra, self))
    as ->.
  { destruct Hlen as [->|Hlen]; [done|].
    by apply obter_percorrer_no_match. }
  cbn [obind fst snd]. apply IH.
Qed.

Lemma concat_collected_chars (h : nat → ascii) m :
  concat (collected h m) = h <$> seq 0 m.
Proof.
  unfold collected. induction (seq 0 m) as [|j l IH]; [done|].
  simpl. by f_equal.
Qed.

Section walk_any.
Context (s : ascii) (bwt : str) (Hs : s ∈ bwt).

Local Abbreviation Fc := (tags (sorted chr_leb bwt)).
Local Abbreviation Lc := (tags bwt).

Lemma chain_in m : chain s bwt m ∈ Lc.
Proof.
  induction m as [|m IH].
  - apply elem_of_tags. exists s, 0%nat. split; [done|].
    unfold count_chr.
    destruct (filter (λ x, x = s) bwt) as [|] eqn:Hf; [|simpl; lia].
    exfalso. by eapply (filter_nil_not_elem_of (λ x, x = s)).
  - cbn [chain].
    destruct (list_find_elem_of (λ t, t = chain s bwt m) Lc (chain s bwt m) IH eq_refl)
      as [[i t] Hfind].
    rewrite Hfind. cbn [fmap option_fmap option_map mbind option_bind fst].
    apply list_find_Some in Hfind as (Hi & _ & _).
    destruct (lookup_lt_is_Some_2 Fc i) as [t' Ht'].
    { apply lookup_lt_Some in Hi.
      by rewrite length_tags, length_sorted, <- length_tags. }
    rewrite Ht'. cbn [default from_option id].
    apply (elem_of_tags_Permutation (sorted chr_leb bwt) bwt);
      [apply sorted_Permutation|].
    by eapply list_elem_of_lookup_2.
Qed.

Lemma chain_step m :
  ∃ i, Lc !! i = Some (chain s bwt m) ∧ Fc !! i = Some (chain s bwt (S m)).
Proof.
  cbn [chain].
  destruct (list_find_elem_of (λ t, t = chain s bwt m) Lc (chain s bwt m)
              (chain_in m) eq_refl) as [[i t] Hfind].
  rewrite Hfind. cbn [fmap option_fmap option_map mbind option_bind fst].
  apply list_find_Some in Hfind as (Hi & -> & _).
  destruct (lookup_lt_is_Some_2 Fc i) as [t' Ht'].
  { apply lookup_lt_Some in Hi.
    by rewrite length_tags, length_sorted, <- length_tags. }
  exists i. by rewrite Ht'.
Qed.

Lemma chain_head m : ∃ w, chain s bwt m = chain_chr s bwt m :: w.
Proof.
  pose proof (chain_in m) as Hin.
  apply elem_of_tags in Hin as (c & k & Heq & _).
  unfold chain_chr. rewrite Heq. by eexists.
Qed.

(** With the sentinel in the string, the walk returns after collecting as
    many characters as the string has. *)
Lemma invert_returns fuel (self : BWT) :
  listaSequenciaOriginal self = [] → (length bwt ≤ fuel)%nat →
  ∃ sq self', invert fuel (s :: s2l "0") bwt self = Ret (sq, self') ∧
              length sq = length bwt.
Proof.
  intros Hself Hfuel. rewrite invert_unfold.
  assert (0 < length bwt)%nat as Hpos.
  { destruct bwt; [by apply elem_of_nil in Hs|simpl; lia]. }
  change (s :: s2l "0") with (chain s bwt 0).
  rewrite (obterSequenciaOriginal_spec Fc Lc (length bwt) (chain s bwt)
             (chain_chr s bwt)).
  - cbn [obind]. unfold SequenciaOriginalEmString.
    cbn [listaSequenciaOriginal set_lista].
    set (col := concat (collected (chain_chr s bwt) (length bwt))).
    assert (length col = length bwt) as Hcol.
    { unfold col. by rewrite concat_collected_chars, length_fmap, length_seq. }
    destruct col as [|c col']; [simpl in Hcol; lia|].
    rewrite getitem_0. cbn [obind]. eexists _, _. split; [done|].
    change 1 with (Z.of_nat 1). rewrite slice_from.
    rewrite length_app, length_drop. cbn [length] in *. lia.
  - apply NoDup_tags.
  - intros m _. apply chain_head.
  - intros m _. apply chain_step.
  - done.
  - lia.
  - done.
Qed.
End walk_any.

(** * The claims *)

(** C1, as the code has it. Round trip: for every sequence whose last
    symbol is its sentinel, a symbol below every other one of the sequence
    (so it occurs once), the reconstruction run on the transform of the
    sequence from the tag of the sentinel's occurrence 0 (the walk over the
    tagged first and last columns, then the rotation left by one) returns
    the sequence, as soon as the recursion is allowed as many nested calls
    as the sequence has symbols. *)
Theorem invert_transform_roundtrip (s : ascii) (body : str) (self : BWT)
    (fuel : nat) :
  sentinel_ok s body →
  listaSequenciaOriginal self = [] →
  (length (body ++ [s]) ≤ fuel)%nat →
  ∃ bwt self',
    transform (body ++ [s]) = Ret bwt ∧
    invert fuel (s :: s2l "0") bwt self = Ret (body ++ [s], self').
Proof.
  intros Hs Hself Hfuel.
  destruct (invert_bwt_of s body Hs self fuel Hself Hfuel) as [self' Hrun].
  exists (bwt_of (body ++ [s])), self'. split; [apply transform_spec|done].
Qed.

Lemma invert_transform_roundtrip_witness :
  ∃ bwt self',
    transform (s2l "TAGACAGAGA$") = Ret bwt ∧
    invert 11 (s2l "$0") bwt (BWT_init (s2l "TAGACAGAGA$"))
      = Ret (s2l "TAGACAGAGA$", self').
Proof.
  apply (invert_transform_roundtrip "$" (s2l "TAGACAGAGA")
           (BWT_init (s2l "TAGACAGAGA$")) 11).
  - apply (bool_decide_unpack _). vm_compute. exact I.
  - reflexivity.
  - vm_compute. lia.
Defined.

(** C1 as stated fails: ['A$B'] holds the sentinel once, and it is below
    its other symbols, but the reconstruction run on its transform returns
    ['BA$'], the rotation that ends with the sentinel. *)
Lemma roundtrip_counterexample :
  count_chr "$" (s2l "A$B") = 1%nat ∧
  Forall (λ c, c = "$"%char ∨ (ord "$" < ord c)%nat) (s2l "A$B") ∧
  transform (s2l "A$B") = Ret (s2l "AB$") ∧
  (∃ self', invert 3 (s2l "$0") (s2l "AB$") (BWT_init (s2l "A$B"))
              = Ret (s2l "BA$", self')) ∧
  s2l "BA$" ≠ s2l "A$B".
Proof.
  split_and!; [by vm_compute| |by vm_compute|eexists; by vm_compute|done].
  apply (bool_decide_unpack _). vm_compute. exact I.
Qed.

(** C7, as the code has it. Linkage of the transform and the suffix array:
    for every sequence whose last symbol is its sentinel, a symbol below
    every other one of the sequence, the transform built from the sorted
    rotations and the suffix array built by sorting the suffix start indices
    satisfy [bwt[i] == sequence[(SA[i] - 1 + n) mod n]] at every index. *)
Theorem bwt_suffix_array_linkage (s : ascii) (body : str) (self : BWT) :
  sentinel_ok s body →
  attr_suffix_array self = SA_method →
  ∃ bwt sa self',
    transform (body ++ [s]) = Ret bwt ∧
    suffix_array (body ++ [s]) self = Ret (sa, self') ∧
    ∀ i, 0 ≤ i < len (body ++ [s]) →
      ∃ k c,
        getitem sa i = Ret k ∧
        getitem bwt i = Ret c ∧
        getitem (body ++ [s])
          ((k - 1 + len (body ++ [s])) `mod` len (body ++ [s])) = Ret c.
Proof.
  intros Hs Hattr.
  exists (bwt_of (body ++ [s])), (Z.of_nat <$> sa_nat (body ++ [s])).
  eexists. split; [apply transform_spec|].
  split; [by apply suffix_array_spec|].
  intros i Hi. unfold len in Hi.
  destruct (lookup_matrix s body Hs (Z.to_nat i)) as (k & Hk & Hkn & Hrow);
    [lia|].
  exists (Z.of_nat k), (last_chr (rot k (body ++ [s]))). split_and!.
  - apply getitem_Z; [lia|]. by rewrite list_lookup_fmap, Hk.
  - apply getitem_Z; [lia|].
    rewrite bwt_of_last_col. by apply lookup_last_col.
  - unfold len. apply getitem_Z.
    + apply Z.mod_pos_bound. lia.
    + by apply last_chr_rot_mod.
Qed.

Lemma bwt_suffix_array_linkage_witness :
  ∃ bwt sa self',
    transform (s2l "TAGACAGAGA$") = Ret bwt ∧
    suffix_array (s2l "TAGACAGAGA$") (BWT_init (s2l "TAGACAGAGA$"))
      = Ret (sa, self') ∧
    ∀ i, 0 ≤ i < 11 →
      ∃ k c,
        getitem sa i = Ret k ∧
        getitem bwt i = Ret c ∧
        getitem (s2l "TAGACAGAGA$") ((k - 1 + 11) `mod` 11) = Ret c.
Proof.
  apply (bwt_suffix_array_linkage "$" (s2l "TAGACAGAGA")
           (BWT_init (s2l "TAGACAGAGA$"))).
  - apply (bool_decide_unpack _). vm_compute. exact I.
  - reflexivity.
Defined.

(** C7 as stated fails: ['BA$A'] holds the sentinel once, and it is below
    its other symbols, but at index 1 the transform holds ['B'] where the
    suffix array points at offset 3, whose predecessor is the sentinel. *)
Lemma linkage_counterexample :
  count_chr "$" (s2l "BA$A") = 1%nat ∧
  Forall (λ c, c = "$"%char ∨ (ord "$" < ord c)%nat) (s2l "BA$A") ∧
  transform (s2l "BA$A") = Ret (s2l "AB$A") ∧
  suffix_array (s2l "BA$A") (BWT_init (s2l "BA$A"))
    = Ret ([2; 3; 1; 0],
           set_suffix_array [2; 3; 1; 0] (BWT_init (s2l "BA$A"))) ∧
  getitem [2; 3; 1; 0] 1 = Ret 3 ∧
  getitem (s2l "AB$A") 1 = Ret "B"%char ∧
  getitem (s2l "BA$A") ((3 - 1 + len (s2l "BA$A")) `mod` len (s2l "BA$A"))
    = Ret "$"%char ∧
  "B"%char ≠ "$"%char.
Proof.
  split_and!; try by vm_compute.
  apply (bool_decide_unpack _). vm_compute. exact I.
Qed.

(** C8. Permutation invariant: for every sequence, with or without a
    sentinel, the transform is returned, and it is a permutation of the
    sequence: the same symbols with the same multiplicities, and the same
    length. *)
Theorem transform_permutation (sq : str) :
  ∃ bwt, transform sq = Ret bwt ∧ bwt ≡ₚ sq ∧ length bwt = length sq.
Proof.
  exists (bwt_of sq). split; [apply transform_spec|].
  pose proof (bwt_of_Permutation sq) as Hp. split; [done|]. by rewrite Hp.
Qed.

(** The offsets of the whole suffix array, sorted: every offset of the
    sequence in ascending order. *)
Lemma sorted_sa_nat (sq : str) :
  sorted Z.leb (Z.of_nat <$> sa_nat sq) = range 0 (len sq).
Proof.
  apply sorted_unique.
  - apply Z_leb_total.
  - apply Z_leb_trans.
  - intros x y _ _. apply Z_leb_antisym.
  - unfold len. by rewrite range_seq, sa_nat_Permutation.
  - apply StronglySorted_range.
Qed.

Lemma procuraPadraoBWT_empty (sq : str) (self : BWT) :
  seqOriginal self = sq →
  attr_suffix_array self = SA_list (Z.of_nat <$> sa_nat sq) →
  procuraPadraoBWT [] self = Ret (range 0 (len sq)).
Proof.
  intros Hseq Hattr. unfold procuraPadraoBWT. rewrite Hseq, Hattr.
  pose proof (transform_spec sq) as Ht. unfold transform in Ht.
  destruct (criarMatriz sq) as [m| |]; try done. cbn [obind] in *.
  rewrite Ht. cbn [obind].
  destruct (count_table_spec (bwt_of sq)) as (count & -> & _).
  cbn [obind length fm_loop].
  assert (len (bwt_of sq) = len sq) as ->.
  { unfold len. by rewrite (bwt_of_Permutation sq). }
  destruct (Z.leb_spec 0 (len sq - 1)) as [Hle|Hgt].
  - cbn [len length Z.of_nat Z.eqb negb].
    change (sa_getitem (SA_list ?l)) with (getitem l).
    replace (len sq - 1 + 1) with (Z.of_nat (length sq)) by (unfold len; lia).
    rewrite range_seq.
    rewrite (list_fmap_ext Z.of_nat (λ k, Z.of_nat 0 + Z.of_nat k) (seq 0 (length sq)))
      by (intros; lia).
    rewrite comprehension_getitem
      by (rewrite length_fmap, length_sa_nat; lia).
    cbn [obind]. rewrite drop_0, take_ge
      by (rewrite length_fmap, length_sa_nat; lia).
    by rewrite sorted_sa_nat.
  - unfold len in *. destruct sq; [done|simpl in Hgt; lia].
Qed.

(** C6. Empty pattern: entered with a range [top <= bottom] and the empty
    pattern, the loop narrows nothing and returns the offsets of the rows
    [top] to [bottom] it was entered with; so, for every sequence of length
    [n], on an instance for the sequence on which [suffix_array] has been
    called with that sequence, the search for the empty pattern returns the
    [n] offsets [0, ..., n - 1] in ascending order. *)
Theorem search_empty_pattern (sq : str) (self : BWT) :
  seqOriginal self = sq →
  attr_suffix_array self = SA_method →
  (∀ fuel count fo sa top bottom,
     top ≤ bottom →
     fm_loop (S fuel) count fo sa top bottom [] =
       (l ⇐ comprehension (sa_getitem sa) (range top (bottom + 1)) ;;
        Ret (sorted Z.leb l))) ∧
  ∃ sa self',
    suffix_array sq self = Ret (sa, self') ∧
    procuraPadraoBWT [] self' = Ret (range 0 (len sq)).
Proof.
  intros Hseq Hattr. split.
  - intros fuel count fo sa top bottom Hle. cbn [fm_loop].
    by rewrite (proj2 (Z.leb_le top bottom) Hle).
  - eexists _, _. split; [by apply suffix_array_spec|].
    by apply procuraPadraoBWT_empty.
Qed.

Lemma search_empty_pattern_witness :
  ∃ sa self',
    suffix_array (s2l "TAGACAGAGA$") (BWT_init (s2l "TAGACAGAGA$"))
      = Ret (sa, self') ∧
    procuraPadraoBWT [] self' = Ret [0; 1; 2; 3; 4; 5; 6; 7; 8; 9; 10].
Proof.
  apply (search_empty_pattern (s2l "TAGACAGAGA$")
           (BWT_init (s2l "TAGACAGAGA$"))); reflexivity.
Defined.

(** C2, as the code has it. For every sequence terminated by its sentinel,
    on an instance for the sequence on which [suffix_array] has been called
    with that sequence, and every pattern no longer than the sequence, whose
    symbols all occur in the sequence and which has the sentinel at most as
    its last symbol, the search returns the ascending list of the indices
    [i] with [sequence[i : i + len(pattern)] == pattern]. *)
Theorem search_finds_occurrences (s : ascii) (body : str) (self : BWT)
    (p : str) :
  sentinel_ok s body →
  seqOriginal self = body ++ [s] →
  attr_suffix_array self = SA_method →
  (length p ≤ length (body ++ [s]))%nat →
  Forall (λ c, c ∈ body ++ [s]) p →
  s ∉ take (length p - 1) p →
  ∃ sa self',
    suffix_array (body ++ [s]) self = Ret (sa, self') ∧
    procuraPadraoBWT p self' = Ret (brute_force (body ++ [s]) p).
Proof.
  intros Hs Hseq Hattr Hlen Hp Hsent.
  eexists _, _. split; [by apply suffix_array_spec|].
  destruct (procuraPadraoBWT_starts s body Hs
              (set_suffix_array (Z.of_nat <$> sa_nat (body ++ [s])) self) p)
    as (l & -> & Hl); [done|done|done| |].
  - intros c Hc. by apply (proj1 (Forall_forall _ _) Hp).
  - f_equal. by apply (starts_brute_force s body).
Qed.

Lemma search_finds_occurrences_witness :
  ∃ sa self',
    suffix_array (s2l "TAGACAGAGA$") (BWT_init (s2l "TAGACAGAGA$"))
      = Ret (sa, self') ∧
    procuraPadraoBWT (s2l "AGA") self' = Ret [1; 5; 7].
Proof.
  apply (search_finds_occurrences "$" (s2l "TAGACAGAGA")
           (BWT_init (s2l "TAGACAGAGA$")) (s2l "AGA")).
  - apply (bool_decide_unpack _). vm_compute. exact I.
  - reflexivity.
  - reflexivity.
  - vm_compute. lia.
  - apply (bool_decide_unpack _). vm_compute. exact I.
  - apply (bool_decide_unpack _). vm_compute. exact I.
Defined.

(** C2 as stated fails: the pattern ['$T'] is no longer than the sequence
    and occurs nowhere in ['TAGACAGAGA$'], but the search returns offset 10,
    where the pattern matches the sequence read cyclically. *)
Lemma search_oracle_counterexample :
  ∃ sa self',
    suffix_array (s2l "TAGACAGAGA$") (BWT_init (s2l "TAGACAGAGA$"))
      = Ret (sa, self') ∧
    (len (s2l "$T") ≤ len (s2l "TAGACAGAGA$")) ∧
    procuraPadraoBWT (s2l "$T") self' = Ret [10] ∧
    brute_force (s2l "TAGACAGAGA$") (s2l "$T") = [].
Proof.
  eexists _, _. split; [reflexivity|].
  split; [by vm_compute|]. split; by vm_compute.
Qed.

(** C3, what the code does instead: on a nonempty sequence, a pattern whose
    last symbol does not occur in the sequence makes line 314 look up a
    missing key of [count], and the search raises [KeyError]. *)
Theorem search_unknown_symbol_raises (sq p : str) (c : ascii) (self : BWT) :
  seqOriginal self = sq → sq ≠ [] → c ∉ sq →
  procuraPadraoBWT (p ++ [c]) self = Raise KeyError.
Proof.
  intros Hseq Hne Hc. unfold procuraPadraoBWT. rewrite Hseq.
  pose proof (transform_spec sq) as Ht. unfold transform in Ht.
  destruct (criarMatriz sq) as [m| |]; try done. cbn [obind] in *.
  rewrite Ht. cbn [obind].
  destruct (count_table_spec (bwt_of sq)) as (count & -> & Hcount).
  cbn [obind fm_loop].
  assert (len (bwt_of sq) = len sq) as ->.
  { unfold len. by rewrite (bwt_of_Permutation sq). }
  assert ((0 <=? len sq - 1) = true) as ->.
  { apply Z.leb_le. unfold len. destruct sq; [done|simpl; lia]. }
  assert ((len (p ++ [c]) =? 0) = false) as ->.
  { apply Z.eqb_neq. rewrite len_app. unfold len. simpl. lia. }
  cbn [negb]. rewrite getitem_last. cbn [obind].
  unfold lookup_key. rewrite Hcount, decide_False; [done|].
  by rewrite (bwt_of_Permutation sq).
Qed.

Lemma search_unknown_symbol_raises_witness :
  ∃ sa self',
    suffix_array (s2l "TAGACAGAGA$") (BWT_init (s2l "TAGACAGAGA$"))
      = Ret (sa, self') ∧
    procuraPadraoBWT (s2l "XYZ") self' = Raise KeyError.
Proof.
  eexists _, _. split; [reflexivity|].
  apply (search_unknown_symbol_raises (s2l "TAGACAGAGA$") (s2l "XY") "Z").
  - reflexivity.
  - discriminate.
  - apply (bool_decide_unpack _). vm_compute. exact I.
Defined.

(** C4, as the code has it. [criarMatriz], the transform and [suffix_array]
    validate nothing: for every sequence, whatever sentinels it holds,
    [criarMatriz] returns one rotation per symbol, the transform is
    returned, and the first call of [suffix_array] on an instance returns a
    permutation of the indices of the sequence. *)
Theorem no_sentinel_validation (sq : str) (self : BWT) :
  attr_suffix_array self = SA_method →
  (∃ matriz, criarMatriz sq = Ret matriz ∧ length matriz = length sq) ∧
  (∃ bwt, transform sq = Ret bwt) ∧
  (∃ sa self', suffix_array sq self = Ret (sa, self') ∧
               sa ≡ₚ range 0 (len sq)).
Proof.
  intros Hattr. split_and!.
  - eexists. split; [apply criarMatriz_spec|].
    by rewrite length_fmap, length_seq.
  - eexists. apply transform_spec.
  - eexists _, _. split; [by apply suffix_array_spec|].
    unfold len. by rewrite range_seq, sa_nat_Permutation.
Qed.

Lemma no_sentinel_validation_witness :
  (∃ matriz, criarMatriz (s2l "AB") = Ret matriz ∧ length matriz = 2%nat) ∧
  (∃ bwt, transform (s2l "AB") = Ret bwt) ∧
  (∃ sa self', suffix_array (s2l "AB") (BWT_init (s2l "AB")) = Ret (sa, self') ∧
               sa ≡ₚ [0; 1]).
Proof.
  apply (no_sentinel_validation (s2l "AB") (BWT_init (s2l "AB"))).
  reflexivity.
Defined.

(** C4 as stated fails: a sequence with no sentinel and one with two are
    taken by [criarMatriz] and by [suffix_array], which return. *)
Lemma sentinel_validation_counterexample :
  criarMatriz (s2l "AB") = Ret [s2l "AB"; s2l "BA"] ∧
  criarMatriz (s2l "AB") ≠ Raise InvalidSequenceError ∧
  suffix_array (s2l "AB") (BWT_init (s2l "AB"))
    = Ret ([0; 1], set_suffix_array [0; 1] (BWT_init (s2l "AB"))) ∧
  suffix_array (s2l "AB") (BWT_init (s2l "AB")) ≠ Raise InvalidSequenceError ∧
  criarMatriz (s2l "$A$")
    = Ret [s2l "$A$"; s2l "$$A"; s2l "A$$"] ∧
  criarMatriz (s2l "$A$") ≠ Raise InvalidSequenceError ∧
  suffix_array (s2l "$A$") (BWT_init (s2l "$A$"))
    = Ret ([2; 0; 1], set_suffix_array [2; 0; 1] (BWT_init (s2l "$A$"))) ∧
  suffix_array (s2l "$A$") (BWT_init (s2l "$A$")) ≠ Raise InvalidSequenceError.
Proof. split_and!; by vm_compute. Qed.

(** C5, as the code has it. The reconstruction has no failure path. On a
    string that holds the sentinel at least once, be it twice or more, the
    walk collects as many symbols as the string has and a string of that
    length is returned, once the recursion is allowed that many nested
    calls; on a string without the sentinel no pass ever finds the tag and
    the recursion does not return, whatever depth it is allowed. *)
Theorem invert_returns_or_recurses (s : ascii) (bwt : str) (self : BWT) :
  listaSequenciaOriginal self = [] →
  (s ∈ bwt →
   ∀ fuel, (length bwt ≤ fuel)%nat →
     ∃ sq self', invert fuel (s :: s2l "0") bwt self = Ret (sq, self') ∧
                 length sq = length bwt) ∧
  (s ∉ bwt → ∀ fuel, invert fuel (s :: s2l "0") bwt self = NoFuel).
Proof.
  intros Hself. split.
  - intros Hs fuel Hfuel. by apply invert_returns.
  - intros Hs fuel. rewrite invert_unfold.
    rewrite obterSequenciaOriginal_no_match; [done| |].
    + intros Hin. apply elem_of_tags in Hin as (c & k & Heq & Hk).
      apply (tag_inj s 0 c k) in Heq as [-> _].
      rewrite count_chr_not_in in Hk by done. lia.
    + destruct bwt as [|c bwt']; [by left|right].
      cbn [criarDicionarioOcorrencias listaSequenciaOriginal set_dicionario].
      rewrite Hself. unfold len. simpl. lia.
Qed.

Lemma invert_returns_or_recurses_witness :
  (∃ sq self', invert 3 (s2l "$0") (s2l "A$$") (BWT_init (s2l "A$$"))
                 = Ret (sq, self') ∧ length sq = 3%nat) ∧
  (∀ fuel, invert fuel (s2l "$0") (s2l "AB") (BWT_init (s2l "AB")) = NoFuel).
Proof.
  split.
  - apply (invert_returns_or_recurses "$" (s2l "A$$") (BWT_init (s2l "A$$")));
      [reflexivity| |vm_compute; lia].
    apply (bool_decide_unpack _). vm_compute. exact I.
  - apply (invert_returns_or_recurses "$" (s2l "AB") (BWT_init (s2l "AB")));
      [reflexivity|].
    apply (bool_decide_unpack _). vm_compute. exact I.
Defined.

(** C5 as stated fails: on ['A$$'], with two sentinels, the reconstruction
    returns a string, and on ['AB'], with none, it raises nothing. *)
Lemma reconstruction_error_counterexample :
  (∃ self', invert 3 (s2l "$0") (s2l "A$$") (BWT_init (s2l "A$$"))
              = Ret (s2l "$A$", self')) ∧
  (∀ fuel, invert fuel (s2l "$0") (s2l "AB") (BWT_init (s2l "AB"))
             ≠ Raise ReconstructionError).
Proof.
  split.
  - eexists. by vm_compute.
  - intros fuel. rewrite invert_unfold.
    rewrite obterSequenciaOriginal_no_match; [done| |].
    + intros Hin. apply elem_of_tags in Hin as (c & k & Heq & Hk).
      apply (tag_inj "$" 0 c k) in Heq as [<- _].
      vm_compute in Hk. lia.
    + right. by vm_compute.
Qed.

(** C9. The attribute [suffix_array]: on an instance on which
    [suffix_array] has not been called, the call returns the list and binds
    the attribute to it, after which a further call raises [TypeError]; and
    on such an instance no search returns an offset: a search that with a
    list in the attribute would return offsets raises [TypeError] at line
    320, where it subscripts the method. *)
Theorem suffix_array_rebinds_attribute (self : BWT) :
  attr_suffix_array self = SA_method →
  (∀ sq, ∃ sa, suffix_array sq self = Ret (sa, set_suffix_array sa self) ∧
               attr_suffix_array (set_suffix_array sa self) = SA_list sa) ∧
  (∀ sa sq, suffix_array sq (set_suffix_array sa self) = Raise TypeError) ∧
  (∀ p x l, procuraPadraoBWT p self ≠ Ret (x :: l)) ∧
  (∀ p sa x l,
     procuraPadraoBWT p (set_suffix_array sa self) = Ret (x :: l) →
     procuraPadraoBWT p self = Raise TypeError).
Proof.
  intros Hattr. split_and!.
  - intros sq. eexists. split; [by apply suffix_array_spec|done].
  - done.
  - intros p x l.
    destruct (procuraPadraoBWT_attr self [] p Hattr) as [[-> _]|[_ H]];
      [done|apply H].
  - intros p sa x l Hrun.
    destruct (procuraPadraoBWT_attr self sa p Hattr) as [[H _]|[Heq H]];
      [done|].
    rewrite <- Heq in Hrun. by apply H in Hrun.
Qed.

Lemma suffix_array_rebinds_attribute_witness :
  procuraPadraoBWT (s2l "AGA") (BWT_init (s2l "TAGACAGAGA$"))
    = Raise TypeError.
Proof.
  apply (suffix_array_rebinds_attribute (BWT_init (s2l "TAGACAGAGA$"))
           eq_refl)
    with (sa := [10; 9; 3; 7; 1; 5; 4; 8; 2; 6; 0]) (x := 1) (l := [5; 7]).
  by vm_compute.
Defined.

(** C10. The shared counters: on an instance whose dictionary exists, every
    call of [preencherLista] returns and leaves the keys as they were and
    every counter at [-1]; so, from counters at [-1], a call on a column of
    symbols that are keys appends the tag of each position, its symbol
    followed by the number of earlier occurrences of the symbol in that
    column, and leaves the instance as it was: the tags are as many as the
    column has positions, no two are equal, and a further call on the same
    column gives the same tags. *)
Theorem preencherLista_resets_counters (self : BWT) (d : dict) :
  dicionarioOcorrencias self = Some d →
  NoDup (dict_keys d) →
  (∀ itens lista,
     ∃ lista' d',
       preencherLista itens lista self = Ret (lista', set_dicionario d' self) ∧
       dict_keys d' = dict_keys d ∧ all_reset d') ∧
  (all_reset d →
   ∀ col lista,
     Forall (λ c, c ∈ dict_keys d) col →
     preencherLista (chars col) lista self = Ret (lista ++ tags col, self) ∧
     (∀ j c, col !! j = Some c →
             tags col !! j
               = Some (c :: str_of_int (Z.of_nat (count_chr c (take j col))))) ∧
     length (tags col) = length col ∧
     NoDup (tags col)).
Proof.
  intros Hd Hnd. split.
  - intros itens lista. by apply preencherLista_total.
  - intros Hr col lista Hcol. split_and!.
    + apply (preencherLista_tags self d); [done..|].
      intros c Hc. by apply (proj1 (Forall_forall _ _) Hcol).
    + intros j c Hj. by apply lookup_tags.
    + apply length_tags.
    + apply NoDup_tags.
Qed.

Lemma preencherLista_resets_counters_witness :
  let self := criarDicionarioOcorrencias (s2l "AGGGTCAAAA$")
                (BWT_init (s2l "TAGACAGAGA$")) in
  preencherLista (chars (s2l "AGGGTCAAAA$")) [] self
    = Ret ([s2l "A0"; s2l "G0"; s2l "G1"; s2l "G2"; s2l "T0"; s2l "C0";
            s2l "A1"; s2l "A2"; s2l "A3"; s2l "A4"; s2l "$0"], self).
Proof.
  intros self.
  refine (proj1 (proj2 (preencherLista_resets_counters self
            [("A", -1); ("G", -1); ("T", -1); ("C", -1); ("$", -1)]%char
            eq_refl _) _ (s2l "AGGGTCAAAA$") [] _)).
  - apply (bool_decide_unpack _). vm_compute. exact I.
  - apply (bool_decide_unpack _). vm_compute. exact I.
  - apply (bool_decide_unpack _). vm_compute. exact I.
Defined.

(** * Further properties of the methods *)

(** ** The rotation matrix and the transform *)

Lemma slice_to {A} (l : list A) (m : nat) :
  slice l 0 (Z.of_nat m) = take m l.
Proof.
  rewrite <- (drop_0 l) at 2. rewrite <- (slice_nat l 0 m) by lia. done.
Qed.

(** X1. [criarMatriz] never raises: it returns one row per symbol, and row
    [k] is the sequence rotated right [k] times,
    [seq[n - k:] + seq[:n - k]]. *)
Theorem criarMatriz_rows (seq : str) :
  ∃ matriz,
    criarMatriz seq = Ret matriz ∧
    length matriz = length seq ∧
    ∀ k, 0 ≤ k < len seq →
      getitem matriz k
        = Ret (slice seq (len seq - k) (len seq) ++ slice seq 0 (len seq - k)).
Proof.
  eexists. split; [apply criarMatriz_spec|].
  split; [by rewrite length_fmap, length_seq|].
  intros k Hk. unfold len in *. apply getitem_Z; [lia|].
  rewrite list_lookup_fmap, lookup_seq_lt by lia. simpl. f_equal.
  replace (Z.of_nat (length seq) - k)
    with (Z.of_nat (length seq - Z.to_nat k)) by lia.
  fold (len seq). by rewrite slice_from, slice_to.
Qed.

Lemma criarMatriz_rows_witness :
  ∃ matriz,
    criarMatriz (s2l "TAG$") = Ret matriz ∧
    getitem matriz 1 = Ret (s2l "$TAG").
Proof.
  destruct (criarMatriz_rows (s2l "TAG$")) as (matriz & Hm & _ & Hrows).
  exists matriz. split; [done|]. apply (Hrows 1). by vm_compute.
Defined.

(** X2. [ordenarMatriz] returns the rows in ascending order: a permutation
    of the rows it is given, each row at most the rows after it, and the
    same list for any two arrangements of the same rows. *)
Theorem ordenarMatriz_ascending (matriz : list str) :
  ordenarMatriz matriz ≡ₚ matriz ∧
  StronglySorted str_le (ordenarMatriz matriz) ∧
  ∀ matriz', matriz' ≡ₚ matriz → ordenarMatriz matriz' = ordenarMatriz matriz.
Proof.
  unfold ordenarMatriz. split_and!.
  - apply sorted_Permutation.
  - apply (sorted_StronglySorted str_leb);
      [apply str_leb_total|apply str_leb_trans].
  - intros matriz' Hp.
    apply (sorted_Permutation_eq str_leb str_leb_total str_leb_trans);
      [|done].
    intros x y _ _. apply str_leb_antisym.
Qed.

Lemma ordenarMatriz_ascending_witness :
  ordenarMatriz [s2l "AG$T"; s2l "TAG$"; s2l "$TAG"; s2l "G$TA"]
    = ordenarMatriz [s2l "TAG$"; s2l "$TAG"; s2l "G$TA"; s2l "AG$T"].
Proof.
  apply (proj2 (proj2 (ordenarMatriz_ascending
                         [s2l "TAG$"; s2l "$TAG"; s2l "G$TA"; s2l "AG$T"]))).
  apply Permutation_cons_append.
Defined.

Lemma rot_rotl (sq : str) (k : nat) :
  (k < length sq)%nat → rot k (rotl sq) = rot (S k) sq.
Proof.
  destruct sq as [|c sq]; intros Hk; [simpl in Hk; lia|].
  simpl in Hk. rewrite rotl_cons. unfold rot. cbn [drop take].
  rewrite drop_app_le, take_app_le by lia. by rewrite <- app_assoc.
Qed.

Lemma rotations_rotl_Permutation (sq : str) :
  rotations (rotl sq) ≡ₚ rotations sq.
Proof.
  destruct sq as [|c sq]; [done|].
  unfold rotations. rewrite length_rotl.
  rewrite (list_fmap_ext (λ k, rot k (rotl (c :: sq)))
             (λ k, rot (S k) (c :: sq)) (seq 0 (length (c :: sq)))).
  2:{ intros i k Hk. apply lookup_seq in Hk as [Heq Hk].
      apply rot_rotl. lia. }
  rewrite (list_fmap_compose S (λ k, rot k (c :: sq))), fmap_S_seq.
  cbn [length]. rewrite (seq_S (length sq) 1).
  cbn [seq fmap list_fmap]. rewrite fmap_app. cbn [fmap list_fmap].
  change (1 + length sq)%nat with (length (c :: sq)).
  rewrite rot_length, rot_0. symmetry. apply Permutation_cons_append.
Qed.

Lemma bwt_of_rot (sq : str) (j : nat) :
  (j ≤ length sq)%nat → bwt_of (rot j sq) = bwt_of sq.
Proof.
  induction j as [|j IH]; intros Hj; [by rewrite rot_0|].
  rewrite <- rotl_rot by lia. rewrite <- IH by lia.
  unfold bwt_of. f_equal.
  apply (sorted_Permutation_eq str_leb str_leb_total str_leb_trans).
  - intros x y _ _. apply str_leb_antisym.
  - apply rotations_rotl_Permutation.
Qed.

Lemma slice_rot {A} (l : list A) (k : Z) :
  slice l k (len l) ++ slice l 0 k
    = rot (Z.to_nat (slice_bound (len l) k)) l.
Proof.
  unfold slice, rot. pose proof (len_nonneg l) as Hn.
  assert (slice_bound (len l) (len l) = len l) as ->.
  { unfold slice_bound. destruct (Z.ltb_spec (len l) 0); lia. }
  assert (slice_bound (len l) 0 = 0) as ->.
  { unfold slice_bound. simpl. lia. }
  assert (0 ≤ slice_bound (len l) k ≤ len l) as Hb.
  { unfold slice_bound. destruct (Z.ltb_spec k 0); lia. }
  rewrite drop_0, Z.sub_0_r. f_equal.
  apply take_ge. rewrite length_drop. unfold len in *. lia.
Qed.

(** X3. The transform does not depend on where the circular sequence is
    cut: [seq[k:] + seq[:k]] has the transform of [seq], for every integer
    [k]. *)
Theorem transform_rotation_invariant (seq : str) (k : Z) :
  transform (slice seq k (len seq) ++ slice seq 0 k) = transform seq.
Proof.
  rewrite slice_rot, !transform_spec. f_equal. apply bwt_of_rot.
  pose proof (len_nonneg seq).
  unfold slice_bound, len in *. destruct (Z.ltb_spec k 0); lia.
Qed.

Lemma construirBWT_loop_empty_row (matriz : list str) (bwt : str) :
  [] ∈ matriz → construirBWT_loop matriz bwt = Raise IndexError.
Proof.
  revert bwt. induction matriz as [|r matriz IH]; intros bwt Hin.
  { by apply elem_of_nil in Hin. }
  cbn [construirBWT_loop].
  destruct (decide (r = [])) as [->|Hne].
  - by rewrite getitem_nil.
  - destruct (exists_last Hne) as (r' & c & ->).
    rewrite getitem_last. cbn [obind]. apply IH.
    apply elem_of_cons in Hin as [Heq|Hin]; [|done].
    by destruct r'.
Qed.

(** X4. [construirBWT] takes the last symbol of each row, in order, and
    raises [IndexError] exactly when some row is the empty string. *)
Theorem construirBWT_last_symbols (matriz : list str) :
  ([] ∈ matriz → construirBWT matriz = Raise IndexError) ∧
  ([] ∉ matriz →
   ∃ bwt, construirBWT matriz = Ret bwt ∧
          length bwt = length matriz ∧
          ∀ i linha, 0 ≤ i < len matriz → getitem matriz i = Ret linha →
                     getitem bwt i = getitem linha (-1)).
Proof.
  split; [apply construirBWT_loop_empty_row|].
  intros Hne.
  assert (Forall (λ r, r ≠ []) matriz) as Hall.
  { apply Forall_forall. intros r Hr ->. done. }
  exists (last_chr <$> matriz). split; [by apply construirBWT_spec|].
  split; [apply length_fmap|].
  intros i linha Hi Hrow. unfold len in Hi.
  destruct (lookup_lt_is_Some_2 matriz (Z.to_nat i)) as [r Hr]; [lia|].
  rewrite (getitem_Z _ _ _ (proj1 Hi) Hr) in Hrow. injection Hrow as <-.
  assert (r ≠ []) as Hrne.
  { apply (proj1 (Forall_forall _ _) Hall). by eapply list_elem_of_lookup_2. }
  destruct (exists_last Hrne) as (r' & c & ->).
  rewrite getitem_last. apply getitem_Z; [lia|].
  rewrite list_lookup_fmap, Hr. simpl. by rewrite last_chr_snoc.
Qed.

Lemma construirBWT_last_symbols_witness :
  construirBWT [s2l "$TAG"; []; s2l "TAG$"] = Raise IndexError.
Proof.
  apply (proj1 (construirBWT_last_symbols [s2l "$TAG"; []; s2l "TAG$"])).
  apply (bool_decide_unpack _). vm_compute. exact I.
Defined.

(** ** The columns and their tags *)

Lemma ordenarMatriz_criarMatriz (sq : str) :
  ∃ matriz, criarMatriz sq = Ret matriz ∧ ordenarMatriz matriz = matrix sq.
Proof.
  destruct (criarMatriz_rotations sq) as (m & Hm & Hp).
  exists m. split; [done|]. unfold ordenarMatriz, matrix.
  apply (sorted_Permutation_eq str_leb str_leb_total str_leb_trans); [|done].
  intros x y _ _. apply str_leb_antisym.
Qed.

Lemma sorted_bwt_first_col_any (sq : str) :
  sorted chr_leb (bwt_of sq) = first_col (matrix sq).
Proof.
  destruct (decide (sq = [])) as [->|Hne]; [done|].
  apply sorted_unique.
  - apply chr_leb_total.
  - apply chr_leb_trans.
  - intros x y _ _. apply chr_leb_antisym.
  - by rewrite first_col_Permutation, bwt_of_Permutation.
  - apply (first_col_sorted _ (length sq)).
    + apply matrix_sorted.
    + apply matrix_length.
    + destruct sq; [done|simpl; lia].
Qed.

(** X5. For every sequence, the columns the reconstruction works on are
    columns of the sorted matrix: at every row, [criarPrimeiraColuna] of the
    transform holds the first symbol of the row and [criarUltimaColuna] its
    last symbol. *)
Theorem columns_of_sorted_matrix (seq : str) :
  ∃ matriz bwt,
    criarMatriz seq = Ret matriz ∧
    construirBWT (ordenarMatriz matriz) = Ret bwt ∧
    ∀ i linha, 0 ≤ i < len seq →
      getitem (ordenarMatriz matriz) i = Ret linha →
      ∃ a z, getitem linha 0 = Ret a ∧ getitem linha (-1) = Ret z ∧
             getitem (criarPrimeiraColuna bwt) i = Ret [a] ∧
             getitem (criarUltimaColuna bwt) i = Ret [z].
Proof.
  destruct (ordenarMatriz_criarMatriz seq) as (m & Hm & Hsort).
  pose proof (transform_spec seq) as Ht. unfold transform in Ht.
  rewrite Hm in Ht. cbn [obind] in Ht.
  exists m, (bwt_of seq). split_and!; [done..|].
  intros i linha Hi Hrow. rewrite Hsort in Hrow. unfold len in Hi.
  destruct (lookup_lt_is_Some_2 (matrix seq) (Z.to_nat i)) as [r Hr].
  { rewrite length_matrix. lia. }
  rewrite (getitem_Z _ _ _ (proj1 Hi) Hr) in Hrow. injection Hrow as <-.
  assert (length r = length seq) as Hlen.
  { apply matrix_length. by eapply list_elem_of_lookup_2. }
  assert (r ≠ []) as Hne.
  { intros ->. simpl in Hlen. lia. }
  destruct (exists_last Hne) as (w & z & Hw).
  exists (first_chr r), z. split_and!.
  - destruct r; done.
  - rewrite Hw. apply getitem_last.
  - apply getitem_Z; [lia|]. unfold criarPrimeiraColuna.
    rewrite sorted_bwt_first_col_any, list_lookup_fmap.
    by rewrite (lookup_first_col _ _ _ Hr).
  - apply getitem_Z; [lia|]. rewrite criarUltimaColuna_chars.
    unfold chars. rewrite list_lookup_fmap, bwt_of_last_col.
    rewrite (lookup_last_col _ _ _ Hr). simpl.
    by rewrite Hw, last_chr_snoc.
Qed.

Lemma columns_of_sorted_matrix_witness :
  ∃ matriz bwt,
    criarMatriz (s2l "BANANA") = Ret matriz ∧
    construirBWT (ordenarMatriz matriz) = Ret bwt ∧
    ∃ a z, getitem (s2l "ANABAN") 0 = Ret a ∧
           getitem (s2l "ANABAN") (-1) = Ret z ∧
           getitem (criarPrimeiraColuna bwt) 1 = Ret [a] ∧
           getitem (criarUltimaColuna bwt) 1 = Ret [z].
Proof.
  destruct (columns_of_sorted_matrix (s2l "BANANA"))
    as (matriz & bwt & Hm & Hb & Hrows).
  exists matriz, bwt. split; [done|]. split; [done|].
  apply (Hrows 1 (s2l "ANABAN")); [by vm_compute|].
  vm_compute in Hm. injection Hm as <-. by vm_compute.
Defined.

(** X6. [criarDicionarioOcorrencias] leaves a dictionary whose keys are the
    symbols of the string, once each, every counter at [-1]; a symbol that
    is not in the string is no key; the dictionary the instance had before
    is discarded and the other attributes are kept. *)
Theorem criarDicionarioOcorrencias_keys (bwt : str) (self : BWT) :
  ∃ d,
    dicionarioOcorrencias (criarDicionarioOcorrencias bwt self) = Some d ∧
    NoDup (dict_keys d) ∧
    (∀ c, c ∈ dict_keys d ↔ c ∈ bwt) ∧
    (∀ c, dict_get d c = if decide (c ∈ bwt) then Ret (-1) else Raise KeyError) ∧
    (∀ d0, criarDicionarioOcorrencias bwt (set_dicionario d0 self)
           = criarDicionarioOcorrencias bwt self) ∧
    seqOriginal (criarDicionarioOcorrencias bwt self) = seqOriginal self ∧
    listaSequenciaOriginal (criarDicionarioOcorrencias bwt self)
      = listaSequenciaOriginal self ∧
    attr_suffix_array (criarDicionarioOcorrencias bwt self)
      = attr_suffix_array self.
Proof.
  destruct (dict_fresh_spec bwt) as (Hnd & Hr & Hk).
  exists (dict_fresh bwt). split_and!; try done.
  intros c. destruct (decide (c ∈ bwt)) as [Hc|Hc].
  - apply all_reset_get; [done|]. by apply Hk.
  - assert (c ∉ dict_keys (dict_fresh bwt)) as Hnk by by rewrite Hk.
    revert Hnk. generalize (dict_fresh bwt). unfold dict_keys.
    intros d. induction d as [|[k v] d IH]; intros Hnk; [done|].
    simpl in *. rewrite decide_False.
    + apply IH. intros ?. apply Hnk. by right.
    + intros ->. apply Hnk. by left.
Qed.

Lemma preencher_itens_filter (self : BWT) d pre col lista :
  NoDup (dict_keys d) → dicionarioOcorrencias self = Some d →
  (∀ c, c ∈ dict_keys d →
     dict_get d c = Ret (Z.of_nat (count_chr c pre) - 1)) →
  ∃ d', preencher_itens (chars col) lista self
          = Ret (lista ++ tags_from pre (filter (λ c, c ∈ dict_keys d) col),
                 set_dicionario d' self) ∧
        dict_keys d' = dict_keys d.
Proof.
  revert self d pre lista. induction col as [|x col IH];
    intros self d pre lista Hnd Hd Hcnt; simpl.
  { exists d. by rewrite app_nil_r, set_dicionario_id. }
  unfold get_dicionario. rewrite Hd. simpl.
  destruct (decide (x ∈ dict_keys d)) as [Hx|Hx].
  - rewrite filter_cons_True by done. cbn [tags_from].
    rewrite (preencher_chaves_hit self d (dict_keys d) x _ lista Hnd Hx Hd
               (Hcnt x Hx)). simpl.
    replace (Z.of_nat (count_chr x pre) - 1 + 1)
      with (Z.of_nat (count_chr x pre)) by lia.
    set (d1 := dict_set d x (Z.of_nat (count_chr x pre))).
    assert (dict_keys d1 = dict_keys d) as Hk1
      by (unfold d1; by rewrite dict_keys_set_in).
    destruct (IH (set_dicionario d1 self) d1 (pre ++ [x])
                (lista ++ [x :: str_of_int (Z.of_nat (count_chr x pre))]))
      as (d' & -> & Hk).
    + by rewrite Hk1.
    + done.
    + intros c Hc. rewrite Hk1 in Hc. unfold d1.
      rewrite dict_get_set, count_chr_snoc.
      destruct (decide (x = c)) as [->|Hne].
      * f_equal. lia.
      * rewrite Hcnt by done. f_equal. lia.
    + exists d'. rewrite Hk1, <- app_assoc. split; [done|]. by rewrite Hk.
  - rewrite filter_cons_False by done.
    rewrite preencher_chaves_miss.
    2:{ intros k Hk Heq. injection Heq as ->. done. }
    simpl. by apply IH.
Qed.

(** X7. On counters at [-1], [preencherLista] tags the symbols of the
    column that are keys of the dictionary and passes over the others
    without a word: what it appends are the tags of the column with those
    symbols left out, and the instance is as before the call. *)
Theorem preencherLista_skips_non_keys (self : BWT) (d : dict) (col : str)
    (lista : list str) :
  dicionarioOcorrencias self = Some d →
  NoDup (dict_keys d) →
  all_reset d →
  preencherLista (chars col) lista self
    = Ret (lista ++ tags (filter (λ c, c ∈ dict_keys d) col), self).
Proof.
  intros Hd Hnd Hr. unfold preencherLista.
  destruct (preencher_itens_filter self d [] col lista Hnd Hd)
    as (d1 & -> & Hk1).
  { intros c Hc. by rewrite all_reset_get. }
  simpl.
  assert (NoDup (dict_keys d1)) as Hnd1 by by rewrite Hk1.
  destruct (dict_reset_spec d1 Hnd1) as [Hk2 Hr2].
  do 2 f_equal. transitivity (set_dicionario d self);
    [|by apply set_dicionario_id].
  rewrite set_dicionario_twice. f_equal.
  apply all_reset_unique; [done| |done..]. by rewrite Hk2.
Qed.

Lemma preencherLista_skips_non_keys_witness :
  let self := criarDicionarioOcorrencias (s2l "GA")
                (BWT_init (s2l "TAGACAGAGA$")) in
  preencherLista (chars (s2l "TAGACAGAGA$")) [] self
    = Ret ([s2l "A0"; s2l "G0"; s2l "A1"; s2l "A2"; s2l "G1"; s2l "A3";
            s2l "G2"; s2l "A4"], self).
Proof.
  intros self.
  apply (preencherLista_skips_non_keys self [("G", -1); ("A", -1)]%char
           (s2l "TAGACAGAGA$") []).
  - reflexivity.
  - apply (bool_decide_unpack _). vm_compute. exact I.
  - apply (bool_decide_unpack _). vm_compute. exact I.
Defined.

(** X8. The methods that read what an earlier call leaves on the instance
    raise when that call has not been made: without the dictionary of
    [criarDicionarioOcorrencias], [preencherLista] raises [AttributeError]
    whatever it is given, the empty column included, and so does
    [decidirCaracter] on an item equal to the key; with nothing collected,
    [SequenciaOriginalEmString] raises [IndexError]. *)
Theorem calls_before_setup (self : BWT) :
  (dicionarioOcorrencias self = None →
   (∀ itens lista, preencherLista itens lista self = Raise AttributeError) ∧
   (∀ c lista, decidirCaracter [c] c lista self = Raise AttributeError)) ∧
  (concat (listaSequenciaOriginal self) = [] →
   SequenciaOriginalEmString self = Raise IndexError).
Proof.
  split.
  - intros Hd. split.
    + intros itens lista. unfold preencherLista.
      destruct itens as [|item itens]; cbn [preencher_itens obind fst snd];
        unfold get_dicionario; by rewrite Hd.
    + intros c lista. unfold decidirCaracter, get_dicionario.
      by rewrite decide_True, Hd.
  - unfold SequenciaOriginalEmString. by intros ->.
Qed.

Lemma calls_before_setup_witness :
  (∀ itens lista,
     preencherLista itens lista (BWT_init (s2l "TAGACAGAGA$"))
       = Raise AttributeError) ∧
  SequenciaOriginalEmString (BWT_init (s2l "TAGACAGAGA$")) = Raise IndexError.
Proof.
  split.
  - apply (proj1 (calls_before_setup (BWT_init (s2l "TAGACAGAGA$")))).
    reflexivity.
  - apply (proj2 (calls_before_setup (BWT_init (s2l "TAGACAGAGA$")))).
    reflexivity.
Defined.

(** X9. For every string, the two tagged columns the driver builds hold the
    same tags: each tag of the last column occurs once in it and once in
    the first column, so every tag the walk looks for in the last column is
    at one row only. *)
Theorem tagged_columns_match (bwt : str) (self : BWT) :
  ∃ primeira ultima,
    preencherLista (criarPrimeiraColuna bwt) []
        (criarDicionarioOcorrencias bwt self)
      = Ret (primeira, criarDicionarioOcorrencias bwt self) ∧
    preencherLista (criarUltimaColuna bwt) []
        (criarDicionarioOcorrencias bwt self)
      = Ret (ultima, criarDicionarioOcorrencias bwt self) ∧
    primeira ≡ₚ ultima ∧
    NoDup primeira ∧ NoDup ultima ∧
    length ultima = length bwt.
Proof.
  destruct (dict_fresh_spec bwt) as (Hnd & Hr & Hk).
  set (self1 := criarDicionarioOcorrencias bwt self).
  assert (dicionarioOcorrencias self1 = Some (dict_fresh bwt)) as Hd1 by done.
  exists (tags (sorted chr_leb bwt)), (tags bwt). split_and!.
  - unfold criarPrimeiraColuna. fold (chars (sorted chr_leb bwt)).
    rewrite (preencherLista_tags self1 _ (sorted chr_leb bwt) [] Hnd Hd1 Hr);
      [done|].
    intros c Hc. apply Hk. by rewrite elem_of_sorted in Hc.
  - rewrite criarUltimaColuna_chars.
    rewrite (preencherLista_tags self1 _ bwt [] Hnd Hd1 Hr); [done|].
    intros c Hc. by apply Hk.
  - apply NoDup_Permutation; [apply NoDup_tags..|].
    intros t. apply elem_of_tags_Permutation, sorted_Permutation.
  - apply NoDup_tags.
  - apply NoDup_tags.
  - apply length_tags.
Qed.

(** ** The reconstruction and the state of the instance *)

(** A pass that returns has stopped at line 231, where the collected list
    has the length asked for. *)
Lemma obter_percorrer_returns n Fc itens indice letra (self self' : BWT) :
  obter_percorrer n Fc itens indice letra self = Ret (None, self') →
  len (listaSequenciaOriginal self') = n.
Proof.
  revert indice letra self.
  induction itens as [|item itens IH]; intros indice letra self; [done|].
  cbn [obter_percorrer].
  destruct (decide (item = letra)) as [_|_].
  - destruct (getitem letra 0) as [c| |]; cbn [obind]; try done.
    destruct (getitem Fc (indice + 1)) as [letra'| |]; cbn [obind fst snd];
      try done.
    destruct (Z.eqb_spec
                (len (listaSequenciaOriginal
                        (set_lista (listaSequenciaOriginal self ++ [[c]]) self)))
                n) as [Heq|_].
    + intros [= <-]. done.
    + apply IH.
  - cbn [obind fst snd].
    destruct (Z.eqb_spec (len (listaSequenciaOriginal self)) n) as [Heq|_].
    + intros [= <-]. done.
    + apply IH.
Qed.

Lemma obterSequenciaOriginal_returns fuel n Fc Lc letra (self self' : BWT) :
  obterSequenciaOriginal fuel letra n Fc Lc self = Ret self' →
  len (listaSequenciaOriginal self') = n.
Proof.
  revert letra self. induction fuel as [|fuel IH]; intros letra self; [done|].
  cbn [obterSequenciaOriginal].
  destruct (obter_percorrer n Fc Lc (-1) letra self) as [[[letra'|] self1]| |]
    eqn:Hpass; cbn [obind fst snd]; try done.
  - apply IH.
  - intros [= <-]. by eapply obter_percorrer_returns.
Qed.

(** A call on an instance whose list already has the length asked for
    returns at the first row, unless that row holds the tag. *)
Lemma obterSequenciaOriginal_full fuel n Fc item Lc letra (self : BWT) :
  item ≠ letra → len (listaSequenciaOriginal self) = n →
  obterSequenciaOriginal (S fuel) letra n Fc (item :: Lc) self = Ret self.
Proof.
  intros Hne Hlen. cbn [obterSequenciaOriginal obter_percorrer].
  rewrite decide_False by done. cbn [obind fst snd].
  by rewrite (proj2 (Z.eqb_eq _ _) Hlen).
Qed.

(** X10. The collected list is never emptied: once a reconstruction has
    returned a sequence on an instance, a further reconstruction on that
    instance, run on any string of the same length whose first symbol is
    not the start symbol, collects nothing and returns the first sequence
    again. *)
Theorem invert_twice_repeats (fuel fuel' : nat) (letra bwt sq : str)
    (self self' : BWT) (s c : ascii) (rest : str) :
  invert fuel letra bwt self = Ret (sq, self') →
  c ≠ s →
  length (c :: rest) = length bwt →
  invert (S fuel') (s :: s2l "0") (c :: rest) self'
    = Ret (sq, criarDicionarioOcorrencias (c :: rest) self').
Proof.
  intros Hrun Hc Hlen. rewrite invert_unfold in Hrun.
  destruct (obterSequenciaOriginal fuel letra (len bwt) _ _ _)
    as [self1| |] eqn:Hwalk; cbn [obind] in Hrun; try done.
  destruct (SequenciaOriginalEmString self1) as [sq1| |] eqn:Hstr;
    cbn [obind] in Hrun; try done.
  injection Hrun as -> ->.
  apply obterSequenciaOriginal_returns in Hwalk.
  rewrite invert_unfold.
  change (tags (c :: rest)) with (tag c 0 :: tags_from [c] rest).
  rewrite obterSequenciaOriginal_full.
  - cbn [obind]. unfold SequenciaOriginalEmString in *.
    cbn [criarDicionarioOcorrencias set_dicionario listaSequenciaOriginal].
    by rewrite Hstr.
  - intros [= ->]. done.
  - cbn [criarDicionarioOcorrencias set_dicionario listaSequenciaOriginal].
    rewrite Hwalk. unfold len. by rewrite Hlen.
Qed.

Lemma invert_twice_repeats_witness :
  ∃ self',
    invert 11 (s2l "$0") (s2l "AGGGTCAAAA$") (BWT_init (s2l "TAGACAGAGA$"))
      = Ret (s2l "TAGACAGAGA$", self') ∧
    invert 1 (s2l "$0") (s2l "CCCCCCCCCC$") self'
      = Ret (s2l "TAGACAGAGA$",
             criarDicionarioOcorrencias (s2l "CCCCCCCCCC$") self').
Proof.
  eexists. split; [by vm_compute|].
  apply (invert_twice_repeats 11 0 (s2l "$0") (s2l "AGGGTCAAAA$")
           (s2l "TAGACAGAGA$") (BWT_init (s2l "TAGACAGAGA$")) _ "$" "C"
           (s2l "CCCCCCCCC$")).
  - by vm_compute.
  - discriminate.
  - reflexivity.
Defined.

(** A pass on an instance whose list is already longer than asked for: it
    cannot stop at line 231, and runs to the end of the column. *)
Lemma obter_percorrer_longer n Fc itens indice letra (self : BWT) :
  Forall (λ t : str, t ≠ []) itens →
  0 ≤ indice + 1 → indice + 1 + len itens ≤ len Fc →
  n < len (listaSequenciaOriginal self) →
  ∃ letra' self',
    obter_percorrer n Fc itens indice letra self = Ret (Some letra', self') ∧
    n < len (listaSequenciaOriginal self').
Proof.
  revert indice letra self.
  induction itens as [|item itens IH]; intros indice letra self Hne Hlo Hhi Hn.
  { by exists letra, self. }
  apply Forall_cons in Hne as [Hitem Hne].
  assert (len (item :: itens) = 1 + len itens) as Hcons
    by (unfold len; simpl; lia).
  rewrite Hcons in Hhi. pose proof (len_nonneg itens) as Hpos.
  cbn [obter_percorrer].
  destruct (decide (item = letra)) as [<-|_].
  - destruct item as [|c w]; [done|]. rewrite getitem_0. cbn [obind].
    destruct (lookup_lt_is_Some_2 Fc (Z.to_nat (indice + 1))) as [t Ht].
    { unfold len in *. lia. }
    rewrite (getitem_Z _ _ _ Hlo Ht). cbn [obind fst snd].
    cbn [listaSequenciaOriginal set_lista].
    assert (n < len (listaSequenciaOriginal self ++ [[c]])) as Hn'.
    { rewrite len_app. unfold len in *. simpl. lia. }
    destruct (Z.eqb_spec (len (listaSequenciaOriginal self ++ [[c]])) n);
      [lia|].
    apply IH; [done|lia|lia|done].
  - cbn [obind fst snd].
    destruct (Z.eqb_spec (len (listaSequenciaOriginal self)) n); [lia|].
    apply IH; [done|lia|lia|done].
Qed.

Lemma obterSequenciaOriginal_longer fuel n Fc Lc letra (self : BWT) :
  Forall (λ t : str, t ≠ []) Lc → len Lc ≤ len Fc →
  n < len (listaSequenciaOriginal self) →
  obterSequenciaOriginal fuel letra n Fc Lc self = NoFuel.
Proof.
  intros Hne Hlen. revert letra self.
  induction fuel as [|fuel IH]; intros letra self Hn; [done|].
  cbn [obterSequenciaOriginal].
  destruct (obter_percorrer_longer n Fc Lc (-1) letra self Hne)
    as (letra' & self' & -> & Hn'); [lia|lia|done|].
  cbn [obind fst snd]. by apply IH.
Qed.

(** X11. On an instance whose collected list holds more symbols than the
    string has, the reconstruction never returns: no pass finds the list
    at the length asked for, and line 235 calls again, whatever the string
    and the start tag. *)
Theorem invert_longer_list_never_returns (bwt letra : str) (self : BWT)
    (fuel : nat) :
  (length bwt < length (listaSequenciaOriginal self))%nat →
  invert fuel letra bwt self = NoFuel.
Proof.
  intros Hlen. rewrite invert_unfold.
  rewrite obterSequenciaOriginal_longer; [done| | |].
  - apply Forall_forall. intros t Ht.
    apply elem_of_tags in Ht as (c & k & -> & _). done.
  - unfold len. by rewrite !length_tags, length_sorted.
  - cbn [criarDicionarioOcorrencias set_dicionario listaSequenciaOriginal].
    unfold len. lia.
Qed.

Lemma invert_longer_list_never_returns_witness :
  invert 100 (s2l "$0") (s2l "A$")
    (set_lista [s2l "$"; s2l "T"; s2l "A"] (BWT_init (s2l "TA$")))
  = NoFuel.
Proof.
  apply (invert_longer_list_never_returns (s2l "A$") (s2l "$0")
           (set_lista [s2l "$"; s2l "T"; s2l "A"] (BWT_init (s2l "TA$")))
           100).
  vm_compute. lia.
Defined.

(** ** The transform is one-to-one *)

Lemma sentinel_unique (s1 s2 : ascii) (body1 body2 : str) :
  sentinel_ok s1 body1 → sentinel_ok s2 body2 →
  body1 ++ [s1] ≡ₚ body2 ++ [s2] → s1 = s2.
Proof.
  intros H1 H2 Hp.
  assert (s1 ∈ body2 ++ [s2]) as Hin1.
  { rewrite <- Hp. apply elem_of_app. right. by left. }
  assert (s2 ∈ body1 ++ [s1]) as Hin2.
  { rewrite Hp. apply elem_of_app. right. by left. }
  apply elem_of_app in Hin1 as [Hin1|Hin1];
    [|apply list_elem_of_singleton in Hin1; done].
  apply elem_of_app in Hin2 as [Hin2|Hin2];
    [|apply list_elem_of_singleton in Hin2; done].
  pose proof (sentinel_ok_elem _ _ _ H2 Hin1).
  pose proof (sentinel_ok_elem _ _ _ H1 Hin2). lia.
Qed.

(** X12. On sequences that end with their sentinel the transform is
    one-to-one: two such sequences with the same transform are the same
    sequence. *)
Theorem transform_injective (s1 s2 : ascii) (body1 body2 : str) :
  sentinel_ok s1 body1 → sentinel_ok s2 body2 →
  transform (body1 ++ [s1]) = transform (body2 ++ [s2]) →
  body1 ++ [s1] = body2 ++ [s2].
Proof.
  intros H1 H2 Heq. rewrite !transform_spec in Heq. injection Heq as Heq.
  assert (s1 = s2) as <-.
  { apply (sentinel_unique s1 s2 body1 body2); [done..|].
    by rewrite <- (bwt_of_Permutation (body1 ++ [s1])), Heq,
      bwt_of_Permutation. }
  set (fuel := (length (body1 ++ [s1]) + length (body2 ++ [s1]))%nat).
  destruct (invert_bwt_of s1 body1 H1 (BWT_init []) fuel eq_refl)
    as [self1 Hr1]; [unfold fuel; lia|].
  destruct (invert_bwt_of s1 body2 H2 (BWT_init []) fuel eq_refl)
    as [self2 Hr2]; [unfold fuel; lia|].
  rewrite Heq in Hr1. rewrite Hr1 in Hr2. by injection Hr2.
Qed.

Lemma transform_injective_witness :
  s2l "TAGACAGAGA" ++ ["$"%char] = s2l "TAGACAGAGA" ++ ["$"%char].
Proof.
  apply (transform_injective "$" "$" (s2l "TAGACAGAGA") (s2l "TAGACAGAGA")).
  - apply (bool_decide_unpack _). vm_compute. exact I.
  - apply (bool_decide_unpack _). vm_compute. exact I.
  - reflexivity.
Defined.

(** ** The suffix array *)

(** X13. The first call of [suffix_array] on an instance returns, for every
    sequence, the start indices of the suffixes in strictly ascending order
    of the suffixes: a permutation of [0, ..., n - 1] in which an earlier
    entry starts a smaller suffix than a later one. *)
Theorem suffix_array_ascending (seq : str) (self : BWT) :
  attr_suffix_array self = SA_method →
  ∃ sa self',
    suffix_array seq self = Ret (sa, self') ∧
    sa ≡ₚ range 0 (len seq) ∧
    ∀ i j a b, 0 ≤ i → i < j → j < len seq →
      getitem sa i = Ret a → getitem sa j = Ret b →
      str_le (slice seq a (len seq)) (slice seq b (len seq)) ∧
      slice seq a (len seq) ≠ slice seq b (len seq).
Proof.
  intros Hattr. eexists _, _. split; [by apply suffix_array_spec|].
  split; [unfold len; by rewrite range_seq, sa_nat_Permutation|].
  intros i j a b Hi Hij Hj Ha Hb. unfold len in Hj.
  destruct (lookup_lt_is_Some_2 (sa_nat seq) (Z.to_nat i)) as [x Hx].
  { rewrite length_sa_nat. lia. }
  destruct (lookup_lt_is_Some_2 (sa_nat seq) (Z.to_nat j)) as [y Hy].
  { rewrite length_sa_nat. lia. }
  rewrite (getitem_Z _ i (Z.of_nat x)) in Ha;
    [|lia|by rewrite list_lookup_fmap, Hx].
  rewrite (getitem_Z _ j (Z.of_nat y)) in Hb;
    [|lia|by rewrite list_lookup_fmap, Hy].
  injection Ha as <-. injection Hb as <-.
  rewrite !slice_from.
  assert (x < length seq)%nat as Hxn
    by (apply elem_of_sa_nat; by eapply list_elem_of_lookup_2).
  assert (y < length seq)%nat as Hyn
    by (apply elem_of_sa_nat; by eapply list_elem_of_lookup_2).
  split.
  - apply (StronglySorted_lookup
             (le_of (λ x y, str_leb (drop x seq) (drop y seq)))
             (sa_nat seq) (Z.to_nat i) (Z.to_nat j) x y); [|lia|done..].
    apply sorted_StronglySorted.
    + intros u v. apply str_leb_total.
    + intros u v w. apply str_leb_trans.
  - intros Heq. apply (f_equal length) in Heq. rewrite !length_drop in Heq.
    assert (x = y) as -> by lia.
    pose proof (NoDup_lookup _ _ _ _ (NoDup_sa_nat seq) Hx Hy). lia.
Qed.

Lemma suffix_array_ascending_witness :
  ∃ sa self',
    suffix_array (s2l "BANANA") (BWT_init (s2l "BANANA")) = Ret (sa, self') ∧
    sa ≡ₚ range 0 (len (s2l "BANANA")) ∧
    ∀ i j a b, 0 ≤ i → i < j → j < len (s2l "BANANA") →
      getitem sa i = Ret a → getitem sa j = Ret b →
      str_le (slice (s2l "BANANA") a (len (s2l "BANANA")))
             (slice (s2l "BANANA") b (len (s2l "BANANA"))) ∧
      slice (s2l "BANANA") a (len (s2l "BANANA"))
        ≠ slice (s2l "BANANA") b (len (s2l "BANANA")).
Proof.
  apply (suffix_array_ascending (s2l "BANANA") (BWT_init (s2l "BANANA"))).
  reflexivity.
Defined.

(** ** The search on an arbitrary instance *)

Lemma getitem_out {A} (l : list A) (i : Z) :
  len l ≤ i → getitem l i = Raise IndexError.
Proof.
  intros Hi. unfold getitem. pose proof (len_nonneg l).
  destruct (Z.ltb_spec i 0); [lia|].
  destruct (Z.ltb_spec i 0); [lia|].
  rewrite lookup_ge_None_2; [done|]. unfold len in *. lia.
Qed.

Lemma comprehension_getitem_out {A} (l : list A) (xs : list Z) x :
  x ∈ xs → len l ≤ x → comprehension (getitem l) xs = Raise IndexError.
Proof.
  induction xs as [|y xs IH]; intros Hin Hx; [by apply elem_of_nil in Hin|].
  cbn [comprehension].
  destruct (getitem_cases l y) as [[v Hv]|Hv]; rewrite Hv; cbn [obind];
    [|done].
  apply elem_of_cons in Hin as [->|Hin].
  - by rewrite getitem_out in Hv.
  - by rewrite IH.
Qed.

Lemma count_chr_pos c (l : str) : c ∈ l → (0 < count_chr c l)%nat.
Proof.
  intros Hc. apply list_elem_of_lookup in Hc as [i Hi].
  pose proof (count_chr_take_lt l i (S i) c (Nat.lt_succ_diag_r _) Hi).
  pose proof (count_chr_take_le c l (S i)). lia.
Qed.

(** In the sorted string the occurrences of a symbol start at its first
    occurrence and end within the string. *)
Lemma first_occurrence_bound (bwt : str) c :
  c ∈ bwt →
  ∃ i0 : nat,
    first_occurrence_table (sorted chr_leb bwt) !! c = Some (Z.of_nat i0) ∧
    (i0 + count_chr c bwt ≤ length bwt)%nat.
Proof.
  intros Hc. set (col := sorted chr_leb bwt).
  assert (StronglySorted chr_le col) as Hsorted.
  { apply (sorted_StronglySorted chr_leb);
      [apply chr_leb_total|apply chr_leb_trans]. }
  assert (count_chr c col = count_chr c bwt) as Hcnt
    by apply count_chr_Permutation, sorted_Permutation.
  pose proof (count_chr_pos c bwt Hc) as Hpos.
  destruct (filter_rank_exists (λ x, x = c) col (count_chr c bwt - 1))
    as (i & x & Hi & -> & Hrank).
  { fold (count_chr c col). lia. }
  fold (count_chr c (take i col)) in Hrank.
  destruct (sorted_position col i c Hsorted Hi) as (i0 & Hfo & Hi0).
  exists i0. split; [done|].
  apply lookup_lt_Some in Hi. unfold col in Hi.
  rewrite length_sorted in Hi. lia.
Qed.

Section search_any.
Context (bwt : str) (count : gmap ascii (list Z)).
Hypothesis Hcount : count_spec bwt (length bwt) count.

Lemma count_lookup_any c (j : nat) :
  c ∈ bwt → (j ≤ length bwt)%nat →
  ∃ row, count !! c = Some row ∧
         getitem row (Z.of_nat j) = Ret (Z.of_nat (count_chr c (take j bwt))).
Proof.
  intros Hc Hj. exists (count_row bwt c (length bwt)).
  rewrite Hcount, decide_True by done.
  split; [done|]. apply getitem_nat.
  rewrite lookup_count_row by done. by rewrite decide_True.
Qed.

(** The loop from a range within the string: it returns no offset, or it
    meets a symbol that is not in the string, or it consumes the pattern
    and reads the attribute. *)
Lemma fm_loop_cases fuel sa (a b : nat) (p : str) r :
  (a < b ≤ length bwt)%nat → (length p < fuel)%nat →
  fm_loop fuel count (first_occurrence_table (sorted chr_leb bwt)) sa
    (Z.of_nat a) (Z.of_nat b - 1) p = r →
  r = Ret [] ∨
  (r = Raise KeyError ∧ ∃ c, c ∈ p ∧ c ∉ bwt) ∨
  (Forall (λ c, c ∈ bwt) p ∧
   ((sa = SA_method ∧ r = Raise TypeError) ∨
    ∃ l, sa = SA_list l ∧
      ((r = Raise IndexError ∧ (length l < length bwt)%nat) ∨
       ∃ x ys, r = Ret (x :: ys) ∧ ∀ y, y ∈ x :: ys → y ∈ l))).
Proof.
  revert a b p r.
  induction fuel as [|fuel IH]; intros a b p r Hab Hfuel Hr; [lia|].
  cbn [fm_loop] in Hr.
  assert ((Z.of_nat a <=? Z.of_nat b - 1) = true) as Hle
    by (apply Z.leb_le; lia).
  rewrite Hle in Hr.
  destruct (decide (p = [])) as [->|Hne].
  - cbn [negb len length Z.eqb Z.of_nat] in Hr.
    right. right. split; [constructor|].
    destruct sa as [|l].
    + left. split; [done|]. rewrite <- Hr.
      rewrite (range_cons (Z.of_nat a)) by lia. done.
    + right. exists l. split; [done|].
      change (sa_getitem (SA_list l)) with (getitem l) in Hr.
      destruct (decide (b ≤ length l)%nat) as [Hbl|Hbl].
      * right. unfold range in Hr.
        replace (Z.to_nat (Z.of_nat b - 1 + 1 - Z.of_nat a))
          with (b - a)%nat in Hr by lia.
        rewrite comprehension_getitem in Hr by lia. cbn [obind] in Hr.
        pose proof (length_sorted Z.leb (take (b - a) (drop a l))) as Hlen.
        rewrite length_take, length_drop in Hlen.
        destruct (sorted Z.leb (take (b - a) (drop a l))) as [|x ys] eqn:Hs;
          [simpl in Hlen; lia|].
        exists x, ys. split; [done|]. intros y Hy.
        rewrite <- Hs in Hy. apply elem_of_sorted in Hy.
        apply elem_of_take_drop in Hy as (i & _ & Hi).
        by eapply list_elem_of_lookup_2.
      * left. split; [|lia]. rewrite <- Hr.
        rewrite (comprehension_getitem_out l _ (Z.of_nat b - 1)); [done| |].
        -- apply elem_of_range. lia.
        -- unfold len. lia.
  - destruct (exists_last Hne) as (p' & c & ->).
    assert ((len (p' ++ [c]) =? 0) = false) as Hlen.
    { apply Z.eqb_neq. rewrite len_app. unfold len. simpl. lia. }
    rewrite Hlen in Hr. cbn [negb] in Hr.
    rewrite getitem_last in Hr. cbn [obind] in Hr.
    rewrite slice_init_neg, take_init_snoc in Hr.
    rewrite length_app in Hfuel. simpl in Hfuel.
    unfold lookup_key in Hr.
    destruct (decide (c ∈ bwt)) as [Hc|Hc].
    + destruct (count_lookup_any c b Hc ltac:(lia)) as (row & Hrow & Hhi).
      destruct (count_lookup_any c a Hc ltac:(lia)) as (row' & Hrow' & Hlo).
      rewrite Hrow in Hrow'. injection Hrow' as <-.
      rewrite Hrow in Hr. cbn [obind] in Hr.
      replace (Z.of_nat b - 1 + 1) with (Z.of_nat b) in Hr by lia.
      rewrite Hhi, Hlo in Hr. cbn [obind] in Hr.
      destruct (Z.gtb_spec (Z.of_nat (count_chr c (take b bwt)))
                  (Z.of_nat (count_chr c (take a bwt)))) as [Hgt|_];
        [|by left].
      destruct (first_occurrence_bound bwt c Hc) as (i0 & Hfo & Hbound).
      rewrite Hfo in Hr. cbn [obind] in Hr.
      pose proof (count_chr_take_le c bwt b) as Hcb.
      destruct (IH (i0 + count_chr c (take a bwt))%nat
                  (i0 + count_chr c (take b bwt))%nat p' r)
        as [H|[(H & c' & Hc' & Hn)|(Hall & H)]].
      * lia.
      * lia.
      * rewrite <- Hr. f_equal; lia.
      * by left.
      * right. left. split; [done|]. exists c'. split; [|done].
        apply elem_of_app. by left.
      * right. right. split; [|done].
        apply Forall_app. split; [done|]. by constructor.
    + rewrite Hcount, decide_False in Hr by done. cbn [obind] in Hr.
      right. left. split; [done|]. exists c. split; [|done].
      apply elem_of_app. right. by left.
Qed.
End search_any.

(** [procuraPadraoBWT] is the loop on the tables of the transform of
    [seqOriginal]. *)
Lemma procuraPadraoBWT_fm (p : str) (self : BWT) :
  ∃ count,
    count_spec (bwt_of (seqOriginal self))
      (length (bwt_of (seqOriginal self))) count ∧
    procuraPadraoBWT p self =
      fm_loop (S (length p)) count
        (first_occurrence_table (sorted chr_leb (bwt_of (seqOriginal self))))
        (attr_suffix_array self) 0 (len (seqOriginal self) - 1) p.
Proof.
  unfold procuraPadraoBWT.
  pose proof (transform_spec (seqOriginal self)) as Ht. unfold transform in Ht.
  destruct (criarMatriz (seqOriginal self)) as [m| |]; try done.
  cbn [obind] in *. rewrite Ht. cbn [obind].
  destruct (count_table_spec (bwt_of (seqOriginal self)))
    as (count & -> & Hcount).
  cbn [obind]. exists count. split; [done|].
  do 2 f_equal. unfold len. by rewrite (bwt_of_Permutation (seqOriginal self)).
Qed.

Lemma procuraPadraoBWT_cases (p : str) (self : BWT) r :
  procuraPadraoBWT p self = r →
  r = Ret [] ∨
  (r = Raise KeyError ∧ ∃ c, c ∈ p ∧ c ∉ seqOriginal self) ∨
  (Forall (λ c, c ∈ seqOriginal self) p ∧
   ((attr_suffix_array self = SA_method ∧ r = Raise TypeError) ∨
    ∃ sa, attr_suffix_array self = SA_list sa ∧
      ((r = Raise IndexError ∧ (length sa < length (seqOriginal self))%nat) ∨
       ∃ x l, r = Ret (x :: l) ∧ ∀ y, y ∈ x :: l → y ∈ sa))).
Proof.
  destruct (procuraPadraoBWT_fm p self) as (count & Hcount & ->).
  set (sq := seqOriginal self) in *.
  pose proof (bwt_of_Permutation sq) as Hperm.
  assert (length (bwt_of sq) = length sq) as Hlen by by rewrite Hperm.
  destruct (decide (sq = [])) as [Hnil|Hne].
  { rewrite Hnil. intros <-. by left. }
  intros Hr.
  assert (0 < length sq)%nat as Hpos by (destruct sq; [done|simpl; lia]).
  replace (len sq - 1) with (Z.of_nat (length sq) - 1) in Hr by done.
  change 0 with (Z.of_nat 0) in Hr.
  destruct (fm_loop_cases (bwt_of sq) count Hcount (S (length p))
              (attr_suffix_array self) 0 (length sq) p r)
    as [H|[(H & c & Hc & Hn)|(Hall & H)]]; [lia|lia|done|..].
  - by left.
  - right. left. split; [done|]. exists c. split; [done|].
    by rewrite <- Hperm.
  - right. right. split.
    + eapply Forall_impl; [exact Hall|]. intros c Hc. by rewrite <- Hperm.
    + rewrite Hlen in H. exact H.
Qed.

(** X14. What a search can do, on any instance and any pattern. It comes
    to an end, and: it returns the empty list; or it raises [KeyError], and
    then a symbol of the pattern is not in the sequence; or every symbol of
    the pattern is in the sequence and line 320 is reached, where it raises
    [TypeError] if [suffix_array] was never called on the instance, raises
    [IndexError] if the stored list is shorter than the sequence, or
    returns a nonempty list of entries of the stored list. *)
Theorem search_outcomes (pattern : str) (self : BWT) :
  procuraPadraoBWT pattern self = Ret [] ∨
  (procuraPadraoBWT pattern self = Raise KeyError ∧
   ∃ c, c ∈ pattern ∧ c ∉ seqOriginal self) ∨
  (Forall (λ c, c ∈ seqOriginal self) pattern ∧
   ((attr_suffix_array self = SA_method ∧
     procuraPadraoBWT pattern self = Raise TypeError) ∨
    ∃ sa, attr_suffix_array self = SA_list sa ∧
      ((procuraPadraoBWT pattern self = Raise IndexError ∧
        (length sa < length (seqOriginal self))%nat) ∨
       ∃ x l, procuraPadraoBWT pattern self = Ret (x :: l) ∧
              ∀ y, y ∈ x :: l → y ∈ sa))).
Proof. by apply procuraPadraoBWT_cases. Qed.

(** X15. A pattern that holds a symbol the sequence does not have is never
    found, wherever the symbol is in the pattern: the search returns the
    empty list or raises [KeyError], whatever the attribute holds. *)
Theorem search_absent_symbol (pattern : str) (c : ascii) (self : BWT) :
  c ∈ pattern → c ∉ seqOriginal self →
  procuraPadraoBWT pattern self = Ret [] ∨
  procuraPadraoBWT pattern self = Raise KeyError.
Proof.
  intros Hc Hn.
  destruct (procuraPadraoBWT_cases pattern self _ eq_refl)
    as [H|[[H _]|[Hall _]]]; [by left|by right|].
  exfalso. apply Hn. by apply (proj1 (Forall_forall _ _) Hall).
Qed.

Lemma search_absent_symbol_witness :
  procuraPadraoBWT (s2l "XTT") (BWT_init (s2l "TAGACAGAGA$")) = Ret [] ∨
  procuraPadraoBWT (s2l "XTT") (BWT_init (s2l "TAGACAGAGA$")) = Raise KeyError.
Proof.
  apply (search_absent_symbol (s2l "XTT") "X" (BWT_init (s2l "TAGACAGAGA$"))).
  - apply (bool_decide_unpack _). vm_compute. exact I.
  - apply (bool_decide_unpack _). vm_compute. exact I.
Defined.

(** ** Patterns longer than the sequence *)

Lemma count_chr_take_eq (col : str) (c : ascii) (a b : nat) :
  (a ≤ b)%nat →
  (∀ i, (a ≤ i < b)%nat → col !! i ≠ Some c) →
  count_chr c (take b col) = count_chr c (take a col).
Proof.
  intros Hab Hno. induction b as [|b IH].
  { by replace a with 0%nat by lia. }
  destruct (decide (a = S b)) as [->|Hne]; [done|].
  rewrite <- IH; [|lia|intros i Hi; apply Hno; lia].
  destruct (col !! b) as [x|] eqn:Hb.
  - rewrite (count_chr_take_S _ _ _ _ Hb), decide_False; [lia|].
    intros ->. apply (Hno b); [lia|done].
  - apply lookup_ge_None in Hb. by rewrite !take_ge by lia.
Qed.

Section long_pattern.
Context (s : ascii) (body : str) (Hs : sentinel_ok s body).
Context (count : gmap ascii (list Z)).
Hypothesis Hcount :
  count_spec (last_col (matrix (body ++ [s]))) (length (body ++ [s])) count.
Context (sa : suffix_array_attr).

Local Abbreviation sq := (body ++ [s]).
Local Abbreviation n := (length (body ++ [s])).
Local Abbreviation M := (matrix (body ++ [s])).
Local Abbreviation F := (first_col (matrix (body ++ [s]))).
Local Abbreviation L := (last_col (matrix (body ++ [s]))).
Local Abbreviation fo := (first_occurrence_table (first_col (matrix (body ++ [s])))).

(** The loop over the last symbols [p2] of a pattern, while what has been
    read is shorter than the sequence: no offset, or the rows that start
    with what has been read. *)
Lemma fm_loop_suffix fuel (p1 p2 q : str) (a b : nat) :
  rows_from M q a b → (a < b ≤ n)%nat →
  (length (p2 ++ q) ≤ n)%nat →
  (∀ c, c ∈ p2 → c ∈ sq) →
  fm_loop (length p2 + fuel) count fo sa (Z.of_nat a) (Z.of_nat b - 1)
    (p1 ++ p2) = Ret [] ∨
  ∃ a' b', rows_from M (p2 ++ q) a' b' ∧ (a' < b' ≤ n)%nat ∧
    fm_loop (length p2 + fuel) count fo sa (Z.of_nat a) (Z.of_nat b - 1)
      (p1 ++ p2)
    = fm_loop fuel count fo sa (Z.of_nat a') (Z.of_nat b' - 1) p1.
Proof.
  revert q a b. induction p2 as [|c p2' IH] using rev_ind;
    intros q a b Hrows Hab Hlen Hp.
  { right. exists a, b. rewrite app_nil_r. split; [done|]. by split. }
  rewrite length_app, Nat.add_1_r. cbn [Nat.add fm_loop].
  assert ((Z.of_nat a <=? Z.of_nat b - 1) = true) as ->
    by (apply Z.leb_le; lia).
  assert ((len (p1 ++ p2' ++ [c]) =? 0) = false) as ->.
  { apply Z.eqb_neq. rewrite !len_app. unfold len. simpl. lia. }
  cbn [negb]. rewrite (app_assoc p1), getitem_last. cbn [obind].
  rewrite slice_init_neg, take_init_snoc.
  assert (c ∈ sq) as Hc by (apply Hp, elem_of_app; right; by left).
  assert (length p2' + 1 + length q ≤ n)%nat as Hlen'.
  { rewrite (length_app (p2' ++ [c])), (length_app p2') in Hlen.
    exact Hlen. }
  assert (length q < n)%nat as Hq by lia.
  destruct (count_lookup s body count Hcount c b Hc ltac:(lia))
    as (row & Hrow & Hhi).
  destruct (count_lookup s body count Hcount c a Hc ltac:(lia))
    as (row' & Hrow' & Hlo).
  rewrite Hrow in Hrow'. injection Hrow' as <-.
  destruct (fo_lookup s body c Hc) as [i0 Hfo].
  unfold lookup_key. rewrite Hrow. cbn [obind].
  replace (Z.of_nat b - 1 + 1) with (Z.of_nat b) by lia.
  rewrite Hhi, Hlo. cbn [obind].
  destruct (Z.gtb_spec (Z.of_nat (count_chr c (take b L)))
              (Z.of_nat (count_chr c (take a L)))) as [Hgt|_]; [|by left].
  rewrite Hfo. cbn [obind].
  pose proof (narrow M n (matrix_sorted sq) (matrix_NoDup s body Hs)
                (matrix_length sq) (length_sq_pos s body) (matrix_rotl sq)
                (matrix_rotr sq) (length_matrix sq) q a b c i0 Hrows
                ltac:(lia) Hq Hfo) as Hnarrow.
  pose proof (narrow_bound M n (matrix_sorted sq)
                (matrix_NoDup s body Hs) (matrix_length sq)
                (length_sq_pos s body) (matrix_rotl sq) (matrix_rotr sq)
                (length_matrix sq) q a b c i0 Hrows ltac:(lia) Hfo
                ltac:(lia)) as Hbound.
  assert (length (p2' ++ c :: q) ≤ n)%nat as Hlen2.
  { rewrite length_app. cbn [length]. lia. }
  assert (∀ d, d ∈ p2' → d ∈ sq) as Hp2.
  { intros d Hd. apply Hp, elem_of_app. by left. }
  assert (i0 + count_chr c (take a L) < i0 + count_chr c (take b L) ≤ n)%nat
    as Hab2 by lia.
  destruct (IH (c :: q) (i0 + count_chr c (take a L))%nat
              (i0 + count_chr c (take b L))%nat Hnarrow Hab2 Hlen2 Hp2)
    as [Hnil|(a' & b' & H1 & H2 & H3)].
  - left. rewrite <- Hnil. f_equal; lia.
  - right. exists a', b'. rewrite <- app_assoc. split; [done|].
    split; [done|]. rewrite <- H3. f_equal; lia.
Qed.

(** Once a whole row has been read, a further symbol that is not the
    sentinel ends the search: the only row that ends where the sentinel is
    read last is the sequence, and it is preceded by its sentinel. *)
Lemma fm_loop_full_row fuel (p1 : str) (c : ascii) (q : str) (a b : nat) :
  rows_from M q a b → (a < b ≤ n)%nat →
  length q = n → s ∉ take (length q - 1) q → c ≠ s → c ∈ sq →
  fm_loop (S fuel) count fo sa (Z.of_nat a) (Z.of_nat b - 1) (p1 ++ [c])
    = Ret [].
Proof.
  intros Hrows Hab Hlen Hq Hc Hin. cbn [fm_loop].
  assert ((Z.of_nat a <=? Z.of_nat b - 1) = true) as ->
    by (apply Z.leb_le; lia).
  assert ((len (p1 ++ [c]) =? 0) = false) as ->.
  { apply Z.eqb_neq. rewrite !len_app. unfold len. simpl. lia. }
  cbn [negb]. rewrite getitem_last. cbn [obind].
  destruct (count_lookup s body count Hcount c b Hin ltac:(lia))
    as (row & Hrow & Hhi).
  destruct (count_lookup s body count Hcount c a Hin ltac:(lia))
    as (row' & Hrow' & Hlo).
  rewrite Hrow in Hrow'. injection Hrow' as <-.
  unfold lookup_key. rewrite Hrow. cbn [obind].
  replace (Z.of_nat b - 1 + 1) with (Z.of_nat b) by lia.
  rewrite Hhi, Hlo. cbn [obind].
  rewrite (count_chr_take_eq L c a b); [|lia|].
  { destruct (Z.gtb_spec (Z.of_nat (count_chr c (take a L)))
                (Z.of_nat (count_chr c (take a L)))); [lia|done]. }
  intros i Hi HLi.
  destruct (lookup_lt_is_Some_2 M i) as [r Hr].
  { rewrite length_matrix. lia. }
  rewrite (lookup_last_col M i r Hr) in HLi. injection HLi as HLi.
  assert (q `prefix_of` r) as [w Hw] by by apply (Hrows i r Hr).
  assert (length r = n) as Hrn.
  { apply matrix_length. by eapply list_elem_of_lookup_2. }
  assert (w = []) as ->.
  { apply (f_equal length) in Hw. rewrite length_app in Hw.
    destruct w; [done|simpl in Hw; lia]. }
  rewrite app_nil_r in Hw. subst r.
  assert (s ∈ q) as Hsq.
  { assert (q ∈ rotations sq) as Hrot.
    { apply elem_of_matrix. by eapply list_elem_of_lookup_2. }
    apply elem_of_rotations in Hrot as (k & Hk & ->).
    unfold rot. rewrite elem_of_app.
    rewrite <- elem_of_app, Permutation_app_comm, take_drop.
    apply elem_of_app. right. by left. }
  assert (q ≠ []) as Hqne by (intros ->; by apply elem_of_nil in Hsq).
  destruct (exists_last Hqne) as (q' & z & ->).
  rewrite take_init_snoc in Hq. rewrite last_chr_snoc in HLi. subst z.
  apply elem_of_app in Hsq as [Hsq|Hsq]; [done|].
  apply list_elem_of_singleton in Hsq. done.
Qed.
End long_pattern.

(** X16. A pattern longer than the sequence is never found. On a sequence
    that ends with its sentinel, a pattern with more symbols than the
    sequence, all of them symbols of the sequence and the sentinel at most
    the last one, makes the search return the empty list, whatever the
    attribute [suffix_array] holds. *)
Theorem search_long_pattern (s : ascii) (body : str) (self : BWT) (p : str) :
  sentinel_ok s body →
  seqOriginal self = body ++ [s] →
  (length (body ++ [s]) < length p)%nat →
  Forall (λ c, c ∈ body ++ [s]) p →
  s ∉ take (length p - 1) p →
  procuraPadraoBWT p self = Ret [].
Proof.
  intros Hs Hseq Hlen Hp Hsent.
  destruct (procuraPadraoBWT_fm p self) as (count & Hcount & ->).
  rewrite Hseq in *. rewrite (sorted_bwt_first_col s body).
  rewrite bwt_of_last_col in Hcount.
  assert (length (last_col (matrix (body ++ [s]))) = length (body ++ [s]))
    as HL by by rewrite length_last_col, length_matrix.
  rewrite HL in Hcount.
  pose proof (length_sq_pos s body) as Hnpos.
  set (n := length (body ++ [s])) in *.
  set (p1 := take (length p - n) p). set (p2 := drop (length p - n) p).
  assert (p = p1 ++ p2) as Hsplit by (unfold p1, p2; by rewrite take_drop).
  assert (length p2 = n) as Hn2 by (unfold p2; rewrite length_drop; lia).
  assert (length p1 = (length p - n)%nat) as Hn1
    by (unfold p1; rewrite length_take; lia).
  assert (p1 ≠ []) as Hne.
  { intros Hnil. rewrite Hnil in Hn1. simpl in Hn1. lia. }
  destruct (exists_last Hne) as (p1' & c & Hp1).
  assert (take (length p - 1) p = p1 ++ take (n - 1) p2) as Htake.
  { rewrite Hsplit at 2. rewrite take_app_ge by lia. do 2 f_equal. lia. }
  assert (c ≠ s) as Hc.
  { intros ->. apply Hsent. rewrite Htake, Hp1.
    apply elem_of_app. left. apply elem_of_app. right. by left. }
  assert (c ∈ body ++ [s]) as Hcin.
  { apply (proj1 (Forall_forall _ _) Hp). rewrite Hsplit, Hp1.
    apply elem_of_app. left. apply elem_of_app. right. by left. }
  replace (S (length p)) with (length p2 + S (length p1))%nat by lia.
  unfold len. fold n. change 0 with (Z.of_nat 0). rewrite Hsplit.
  destruct (fm_loop_suffix s body Hs count Hcount (attr_suffix_array self)
              (S (length p1)) p1 p2 [] 0 n)
    as [Hnil|(a' & b' & Hrows & Hab & Hrun)].
  - apply rows_from_all.
  - lia.
  - rewrite app_nil_r. lia.
  - intros d Hd. apply (proj1 (Forall_forall _ _) Hp). rewrite Hsplit.
    apply elem_of_app. by right.
  - done.
  - rewrite Hrun. rewrite app_nil_r in Hrows. rewrite Hp1.
    apply (fm_loop_full_row s body count Hcount (attr_suffix_array self)
             (length (p1' ++ [c])) p1' c p2 a' b'); try done.
    rewrite Hn2. intros Hin. apply Hsent. rewrite Htake.
    apply elem_of_app. by right.
Qed.

Lemma search_long_pattern_witness :
  procuraPadraoBWT (s2l "TTAGACAGAGA$") (BWT_init (s2l "TAGACAGAGA$"))
    = Ret [].
Proof.
  apply (search_long_pattern "$" (s2l "TAGACAGAGA")
           (BWT_init (s2l "TAGACAGAGA$")) (s2l "TTAGACAGAGA$")).
  - apply (bool_decide_unpack _). vm_compute. exact I.
  - reflexivity.
  - vm_compute. lia.
  - apply (bool_decide_unpack _). vm_compute. exact I.
  - apply (bool_decide_unpack _). vm_compute. exact I.
Defined.

(** ** The empty sequence *)

(** X17. The empty sequence: the matrix, the transform and the suffix array
    are empty, every search returns the empty list without entering the
    loop, whatever the pattern and the attribute, and the reconstruction
    of the empty string never returns: its loop has no row at which to
    stop, and line 235 calls again. *)
Theorem empty_sequence (self : BWT) (pattern : str) :
  seqOriginal self = [] →
  criarMatriz [] = Ret [] ∧
  transform [] = Ret [] ∧
  (attr_suffix_array self = SA_method →
   suffix_array [] self = Ret ([], set_suffix_array [] self)) ∧
  procuraPadraoBWT pattern self = Ret [] ∧
  (∀ fuel letra, invert fuel letra [] self = NoFuel).
Proof.
  intros Hseq. split_and!; try done.
  - intros Hattr. unfold suffix_array. by rewrite Hattr.
  - unfold procuraPadraoBWT. by rewrite Hseq.
  - intros fuel letra. rewrite invert_unfold.
    rewrite obterSequenciaOriginal_no_match; [done| |by left].
    apply not_elem_of_nil.
Qed.

Lemma empty_sequence_witness :
  procuraPadraoBWT (s2l "AGA") (BWT_init []) = Ret [].
Proof.
  apply (empty_sequence (BWT_init []) (s2l "AGA")). reflexivity.
Defined.

(** ** The sorted matrix, the suffix array and the circular occurrences *)

(** X18. On a sequence that ends with its sentinel, the suffix array lists
    the rows of the sorted matrix: row [i] is the rotation that starts at
    [SA[i]], [seq[SA[i]:] + seq[:SA[i]]]. *)
Theorem sorted_matrix_by_suffix_array (s : ascii) (body : str) (self : BWT) :
  sentinel_ok s body →
  attr_suffix_array self = SA_method →
  ∃ matriz sa self',
    criarMatriz (body ++ [s]) = Ret matriz ∧
    suffix_array (body ++ [s]) self = Ret (sa, self') ∧
    ∀ i, 0 ≤ i < len (body ++ [s]) →
      ∃ k, getitem sa i = Ret k ∧
           getitem (ordenarMatriz matriz) i
             = Ret (slice (body ++ [s]) k (len (body ++ [s]))
                    ++ slice (body ++ [s]) 0 k).
Proof.
  intros Hs Hattr.
  destruct (ordenarMatriz_criarMatriz (body ++ [s])) as (m & Hm & Hsort).
  exists m. eexists _, _. split; [done|].
  split; [by apply suffix_array_spec|].
  intros i Hi. unfold len in Hi.
  destruct (lookup_matrix s body Hs (Z.to_nat i)) as (k & Hk & Hkn & Hrow);
    [lia|].
  exists (Z.of_nat k). split.
  - apply getitem_Z; [lia|]. by rewrite list_lookup_fmap, Hk.
  - rewrite Hsort. apply getitem_Z; [lia|]. rewrite Hrow. f_equal.
    rewrite slice_rot. f_equal. unfold slice_bound, len.
    destruct (Z.ltb_spec (Z.of_nat k) 0); lia.
Qed.

Lemma sorted_matrix_by_suffix_array_witness :
  ∃ matriz sa self',
    criarMatriz (s2l "TAGACAGAGA$") = Ret matriz ∧
    suffix_array (s2l "TAGACAGAGA$") (BWT_init (s2l "TAGACAGAGA$"))
      = Ret (sa, self') ∧
    ∀ i, 0 ≤ i < 11 →
      ∃ k, getitem sa i = Ret k ∧
           getitem (ordenarMatriz matriz) i
             = Ret (slice (s2l "TAGACAGAGA$") k 11
                    ++ slice (s2l "TAGACAGAGA$") 0 k).
Proof.
  apply (sorted_matrix_by_suffix_array "$" (s2l "TAGACAGAGA")
           (BWT_init (s2l "TAGACAGAGA$"))).
  - apply (bool_decide_unpack _). vm_compute. exact I.
  - reflexivity.
Defined.

Lemma prefix_of_take {A} (p r : list A) :
  p `prefix_of` r ↔ take (length p) r = p.
Proof.
  split.
  - intros [w ->]. apply take_app_length.
  - intros <-. apply prefix_take.
Qed.

(** X19. What the search finds are the circular occurrences. On a sequence
    that ends with its sentinel, after [suffix_array] has been called with
    it, a pattern no longer than the sequence whose symbols all occur in
    the sequence is searched for in the sequence read as a circle: the
    list returned is strictly ascending and holds exactly the indices [x]
    at which [seq[x:] + seq[:x]] starts with the pattern. *)
Theorem search_circular_occurrences (s : ascii) (body : str) (self : BWT)
    (p : str) :
  sentinel_ok s body →
  seqOriginal self = body ++ [s] →
  attr_suffix_array self = SA_method →
  (length p ≤ length (body ++ [s]))%nat →
  Forall (λ c, c ∈ body ++ [s]) p →
  ∃ sa self' l,
    suffix_array (body ++ [s]) self = Ret (sa, self') ∧
    procuraPadraoBWT p self' = Ret l ∧
    (∀ i j a b, (i < j)%nat → l !! i = Some a → l !! j = Some b → a < b) ∧
    ∀ x, x ∈ l ↔
         0 ≤ x < len (body ++ [s]) ∧
         slice (slice (body ++ [s]) x (len (body ++ [s]))
                ++ slice (body ++ [s]) 0 x) 0 (len p) = p.
Proof.
  intros Hs Hseq Hattr Hlen Hp.
  destruct (procuraPadraoBWT_starts s body Hs
              (set_suffix_array (Z.of_nat <$> sa_nat (body ++ [s])) self) p)
    as (l & Hrun & Hnd & Hl); [done|done|done| |].
  { intros c Hc. by apply (proj1 (Forall_forall _ _) Hp). }
  eexists _, _, _. split; [by apply suffix_array_spec|].
  split; [exact Hrun|]. split.
  - intros i j a b Hij Hi Hj.
    assert (le_of Z.leb a b) as Hle.
    { eapply (StronglySorted_lookup _ (sorted Z.leb l)); [|exact Hij|done..].
      apply sorted_StronglySorted; [apply Z_leb_total|apply Z_leb_trans]. }
    apply Z.leb_le in Hle.
    assert (a ≠ b); [|lia]. intros ->.
    assert (NoDup (sorted Z.leb l)) as Hnd'
      by by rewrite sorted_Permutation.
    pose proof (NoDup_lookup _ _ _ _ Hnd' Hi Hj). lia.
  - intros x. rewrite elem_of_sorted, Hl.
    change (len p) with (Z.of_nat (length p)).
    rewrite slice_rot, slice_to. split.
    + intros (k & Hk & -> & Hpre). split; [unfold len; lia|].
      replace (Z.to_nat (slice_bound (len (body ++ [s])) (Z.of_nat k)))
        with k.
      * by apply prefix_of_take.
      * unfold slice_bound, len.
        destruct (Z.ltb_spec (Z.of_nat k) 0); lia.
    + intros [Hx Hpre]. unfold len in Hx.
      exists (Z.to_nat x). split; [lia|]. split; [lia|].
      replace (Z.to_nat (slice_bound (len (body ++ [s])) x))
        with (Z.to_nat x) in Hpre.
      * by apply prefix_of_take.
      * unfold slice_bound, len.
        destruct (Z.ltb_spec x 0); lia.
Qed.

Lemma search_circular_occurrences_witness :
  ∃ sa self' l,
    suffix_array (s2l "TAGACAGAGA$") (BWT_init (s2l "TAGACAGAGA$"))
      = Ret (sa, self') ∧
    procuraPadraoBWT (s2l "A$TA") self' = Ret l ∧
    (∀ i j a b, (i < j)%nat → l !! i = Some a → l !! j = Some b → a < b) ∧
    ∀ x, x ∈ l ↔
         0 ≤ x < len (s2l "TAGACAGAGA" ++ ["$"%char]) ∧
         slice (slice (s2l "TAGACAGAGA" ++ ["$"%char]) x
                  (len (s2l "TAGACAGAGA" ++ ["$"%char]))
                ++ slice (s2l "TAGACAGAGA" ++ ["$"%char]) 0 x) 0
           (len (s2l "A$TA")) = s2l "A$TA".
Proof.
  apply (search_circular_occurrences "$" (s2l "TAGACAGAGA")
           (BWT_init (s2l "TAGACAGAGA$")) (s2l "A$TA")).
  - apply (bool_decide_unpack _). vm_compute. exact I.
  - reflexivity.
  - reflexivity.
  - vm_compute. lia.
  - apply (bool_decide_unpack _). vm_compute. exact I.
Defined.

(** ** The tables of the search *)

(** X20. The tables lines 295-305 build, for every string: [count] has a
    row for each symbol of the string and for no other, of length
    [len(bwt) + 1], whose entry [i] is the number of occurrences of the
    symbol in [bwt[:i]]; [first_occurrence] holds, for each symbol of the
    string and for no other, the first index of the symbol in the sorted
    string. *)
Theorem search_tables (bwt : str) :
  ∃ count,
    count_table bwt = Ret count ∧
    ∀ c,
      (c ∈ bwt →
       (∃ row, lookup_key count c = Ret row ∧
               len row = len bwt + 1 ∧
               ∀ i, 0 ≤ i ≤ len bwt →
                 getitem row i = Ret (Z.of_nat (count_chr c (slice bwt 0 i)))) ∧
       (∃ i0, lookup_key (first_occurrence_table (sorted chr_leb bwt)) c
                = Ret i0 ∧
              getitem (sorted chr_leb bwt) i0 = Ret c ∧
              ∀ j, 0 ≤ j < i0 → getitem (sorted chr_leb bwt) j ≠ Ret c)) ∧
      (c ∉ bwt →
       lookup_key count c = Raise KeyError ∧
       lookup_key (first_occurrence_table (sorted chr_leb bwt)) c
         = Raise KeyError).
Proof.
  destruct (count_table_spec bwt) as (count & Hrun & Hcount).
  exists count. split; [done|]. intros c. split.
  - intros Hc. split.
    + exists (count_row bwt c (length bwt)). unfold lookup_key.
      rewrite Hcount, decide_True by done. split; [done|]. split.
      * unfold len. rewrite length_count_row. lia.
      * intros i Hi. unfold len in Hi.
        rewrite <- (Z2Nat.id i) by lia. rewrite slice_to.
        apply getitem_nat. rewrite lookup_count_row by lia.
        by rewrite decide_True by lia.
    + assert (c ∈ sorted chr_leb bwt) as Hcs by by rewrite elem_of_sorted.
      destruct (list_find_elem_of (λ x, x = c) (sorted chr_leb bwt) c Hcs
                  eq_refl) as [[i0 y] Hf].
      exists (Z.of_nat i0). unfold lookup_key.
      rewrite first_occurrence_table_spec, Hf. split; [done|].
      apply list_find_Some in Hf as (Hi0 & -> & Hmin). split.
      * by apply getitem_nat.
      * intros j Hj Hget.
        destruct (lookup_lt_is_Some_2 (sorted chr_leb bwt) (Z.to_nat j))
          as [z Hz].
        { apply lookup_lt_Some in Hi0. lia. }
        rewrite (getitem_Z _ _ _ (proj1 Hj) Hz) in Hget.
        injection Hget as ->. apply (Hmin (Z.to_nat j) c Hz); [lia|done].
  - intros Hc. unfold lookup_key. rewrite Hcount, decide_False by done.
    split; [done|]. rewrite first_occurrence_table_spec.
    destruct (list_find _ _) as [[i0 y]|] eqn:Hf; [|done].
    apply list_find_Some in Hf as (Hi0 & -> & _). exfalso. apply Hc.
    rewrite <- (elem_of_sorted chr_leb). by eapply list_elem_of_lookup_2.
Qed.

Lemma search_tables_witness :
  ∃ count row,
    count_table (s2l "AGGGTCAAAA$") = Ret count ∧
    lookup_key count "A"%char = Ret row ∧
    getitem row 7 = Ret 2.
Proof.
  destruct (search_tables (s2l "AGGGTCAAAA$")) as (count & Hrun & Hc).
  destruct (proj1 (Hc "A"%char)) as [(row & Hrow & _ & Hget) _].
  { apply (bool_decide_unpack _). vm_compute. exact I. }
  exists count, row. split; [done|]. split; [done|].
  apply (Hget 7). vm_compute. split; discriminate.
Defined.
